(** * Reynir reducer: a shallow embedding of [reducer.py]

    The reducer prunes a parse forest to a single tree in three passes:
    [OptionFinder] collects, per token position, the terminals matching the
    token; [_calc_terminal_scores] scores each (position, terminal) pair;
    [ParseForestReducer] sums the scores bottom-up and keeps one family of
    children per nonterminal node.

    Python objects are modelled as records, [dict]s whose iteration order is
    observable as insertion-ordered association lists, [dict]s keyed by
    token position as [gmap], exceptions as an error monad. *)

From Stdlib Require Import ZArith String Ascii List Bool Lia.
From stdpp Require Import base tactics option list gmap strings.

Local Open Scope string_scope.
Local Open Scope Z_scope.
Local Open Scope list_scope.

(** ** Exceptions and the state-and-error monad *)

Inductive exn := KeyError | IndexError | ValueError | TypeError.

Inductive result (A : Type) :=
| Ok (a : A)
| Raise (e : exn).
Arguments Ok {A} a.
Arguments Raise {A} e.

(** A computation over a mutable store [S] that may raise. *)
Definition M (S A : Type) : Type := S → result (A * S).

Definition ret {S A} (a : A) : M S A := λ σ, Ok (a, σ).

Definition bind {S A B} (m : M S A) (f : A → M S B) : M S B :=
  λ σ, match m σ with
       | Ok (a, σ') => f a σ'
       | Raise e => Raise e
       end.

Definition raise {S A} (e : exn) : M S A := λ _, Raise e.

Definition get_state {S} : M S S := λ σ, Ok (σ, σ).

Definition modify {S} (f : S → S) : M S unit := λ σ, Ok (tt, f σ).

(** [o] or raise [e] when the lookup found nothing. *)
Definition or_raise {S A} (o : option A) (e : exn) : M S A :=
  match o with
  | Some a => ret a
  | None => raise e
  end.

Declare Scope py_scope.
Delimit Scope py_scope with py.
Notation "'let*' x ':=' c1 'in' c2" := (bind c1 (λ x, c2))
  (at level 10, x name, c1 at level 100, c2 at level 200) : py_scope.
Notation "'exec' c1 'in' c2" := (bind c1 (λ _, c2))
  (at level 10, c1 at level 100, c2 at level 200) : py_scope.
Local Open Scope py_scope.

(** [for x in l: body x] *)
Fixpoint for_each {S A} (l : list A) (body : A → M S unit) : M S unit :=
  match l with
  | [] => ret tt
  | x :: l' => exec body x in for_each l' body
  end.

(** ** Python strings *)

(** [needle in hay] on strings: substring test. *)
Fixpoint str_in (needle hay : string) : bool :=
  String.prefix needle hay ||
  match hay with
  | EmptyString => false
  | String _ hay' => str_in needle hay'
  end.

(** [s[0]] raises [IndexError] on the empty string. *)
Definition str_head (s : string) : option ascii :=
  match s with
  | EmptyString => None
  | String c _ => Some c
  end.

(** The test that [s[0]] is a quote character, double or single. *)
Definition starts_with_quote (s : string) : option bool :=
  c ← str_head s; Some (Ascii.eqb c "034"%char || Ascii.eqb c "039"%char).

Definition digit_value (c : ascii) : option Z :=
  let n := Z.of_nat (nat_of_ascii c) in
  if (48 <=? n) && (n <=? 57) then Some (n - 48) else None.

Fixpoint parse_digits (acc : Z) (s : string) : option Z :=
  match s with
  | EmptyString => Some acc
  | String c s' => d ← digit_value c; parse_digits (10 * acc + d) s'
  end.

(** [int(s)] for a string of decimal digits; [ValueError] on the empty
    string or on a character that is no digit.  (Signs, blanks and
    underscores, which [int] also takes, cannot pass the substring guard
    under which the reducer calls it.) *)
Definition py_int (s : string) : option Z :=
  match s with
  | EmptyString => None
  | _ => parse_digits 0 s
  end.

(** ** Insertion-ordered dictionaries *)

Section dict.
Context {K V : Type} `{EqDecision K}.

Fixpoint dict_get (d : list (K * V)) (k : K) : option V :=
  match d with
  | [] => None
  | (k', v) :: d' => if decide (k' = k) then Some v else dict_get d' k
  end.

(** [d[k] = v]: overwrite in place, or append a new key. *)
Fixpoint dict_set (d : list (K * V)) (k : K) (v : V) : list (K * V) :=
  match d with
  | [] => [(k, v)]
  | (k', v') :: d' =>
      if decide (k' = k) then (k', v) :: d' else (k', v') :: dict_set d' k v
  end.

Definition dict_keys (d : list (K * V)) : list K := d.*1.
End dict.

(** [s.add(x)] on a set kept in insertion order.  Python iterates a set
    in an order of its own, by hash; the list is the set in one order, and
    the lemmas on the scoring loop hold for every duplicate-free list. *)
Definition set_add {A} `{EqDecision A} (x : A) (s : list A) : list A :=
  if bool_decide (x ∈ s) then s else s ++ [x].

(** ** Grammar and token objects *)

(** Modelled from the spec: the class [Terminal] of [grammar.py] is not
    among the sources; section 3 of the spec gives a terminal a primary
    category ([first]), a name and variant flags, queried by name or by
    position.  [t_id] stands for the identity of the Python object ([is],
    hashing); [variants] are the flags in order; [verb_cases] and the
    [is_*] fields are the attributes the reducer reads, left free. *)
Record Terminal := mkTerminal {
  t_id : nat;
  name : string;
  first : string;
  variants : list string;
  verb_cases : string;
  is_singular : bool;
  is_plural : bool;
  is_abbrev : bool;
  is_sagnb : bool;
  is_lh : bool;
  is_mm : bool;
  is_vh : bool;
  is_subj : bool;
  is_nh : bool
}.

Global Instance Terminal_eq_dec : EqDecision Terminal.
Proof. solve_decision. Defined.

(** Modelled from the spec: [t.has_variant(v)], the query by flag name. *)
Definition has_variant (t : Terminal) (v : string) : bool :=
  bool_decide (v ∈ variants t).

(** Modelled from the spec: [t.variant(index)], the query by position;
    [IndexError] when out of range. *)
Definition variant (t : Terminal) (index : nat) : option string :=
  variants t !! index.

(** [BIN_Meaning] of [bindb.py]. *)
Record BIN_Meaning := mkMeaning {
  stofn : string;
  utg : Z;
  ordfl : string;
  fl : string;
  ordmynd : string;
  beyging : string
}.

(** Modelled from the spec: the token class is not among the sources;
    section 3 of the spec gives a token its original text [t1], its
    lowercased text [lower] and its candidate meanings [t2]. *)
Record Token := mkToken {
  t1 : string;
  lower : string;
  t2 : list BIN_Meaning
}.

(** Modelled from the spec: the class [Production] of [grammar.py] is not
    among the sources; section 6 of the spec gives a production its owning
    nonterminal and an integer priority, lower preferred. *)
Record Production := mkProduction {
  prod_nonterminal : string;
  priority : Z
}.

(** ** The parse forest *)

(** Modelled from the spec: the class [Node] of [fastparser.py] is not
    among the sources.  What a token node carries, after section 3 of the
    spec: its span, its terminal and its token; [tk_id] is the identity of
    the object. *)
Record TokenInfo := mkTokenInfo {
  tk_id : nat;
  tk_start : nat;
  tk_end : nat;
  terminal : Terminal;
  token : Token
}.

(** Modelled from the spec: what a nonterminal node carries besides its
    families: its span, its nonterminal and whether it is completed;
    [nt_id] is the identity of the object. *)
Record NtInfo := mkNtInfo {
  nt_id : nat;
  nt_start : nat;
  nt_end : nat;
  nonterminal : string;
  is_completed : bool
}.

(** Modelled from the spec: a node is a token node or a nonterminal node
    with its families, each a production and an ordered list of children;
    an epsilon child is [None], the value [_visit_epsilon] stands for.  The
    forest is a graph with shared nodes: a shared node occurs at each
    place that references it, with the same identity ([tk_id], [nt_id]). *)
Inductive Node :=
| TokenNode (d : TokenInfo)
| NonterminalNode (d : NtInfo) (families : list (Production * list (option Node))).

(** [w.start] and [w.end] *)
Definition start (w : Node) : nat :=
  match w with
  | TokenNode d => tk_start d
  | NonterminalNode d _ => nt_start d
  end.

Definition end_ (w : Node) : nat :=
  match w with
  | TokenNode d => tk_end d
  | NonterminalNode d _ => nt_end d
  end.

(** Modelled from the spec: the key of a node in the [visited] dictionary,
    its identity; [None] for epsilon. *)
Definition node_key (w : option Node) : option nat :=
  match w with
  | None => None
  | Some (TokenNode d) => Some (tk_id d)
  | Some (NonterminalNode d _) => Some (nt_id d)
  end.

(** ** The forest traversal protocol *)

(** Modelled from the spec: [ParseForestNavigator] of [fastparser.py], the
    base class of both walks, is not part of the sources at hand.  The hooks
    bear the names under which [reducer.py] overrides them; the [level]
    argument, which no hook of the reducer reads, is left out.  A walk has a
    store [S] of its own, yields a result [R] per node and gathers the
    results of the children of a nonterminal node in an accumulator [Acc]. *)
Record Navigator (S R Acc : Type) := mkNavigator {
  _visit_epsilon : M S R;
  _visit_token : TokenInfo → M S R;
  _visit_nonterminal : NtInfo → M S Acc;
  _visit_family : Acc → NtInfo → nat → Production → M S Acc;
  _add_result : Acc → nat → R → M S Acc;
  _process_results : Acc → NtInfo → M S R
}.
Arguments _visit_epsilon {S R Acc}.
Arguments _visit_token {S R Acc}.
Arguments _visit_nonterminal {S R Acc}.
Arguments _visit_family {S R Acc}.
Arguments _add_result {S R Acc}.
Arguments _process_results {S R Acc}.

Section navigate.
Context {S R Acc : Type} (nav : Navigator S R Acc).

(** Modelled from the spec: the store of a walk, the [visited] dictionary
    of section 4.1 and the store of the hooks. *)
Definition NavState : Type := gmap (option nat) R * S.

(** A hook runs on its own store and leaves [visited] alone. *)
Definition lift_hook {A} (m : M S A) : M NavState A :=
  λ '(visited, σ), match m σ with
                   | Ok (a, σ') => Ok (a, (visited, σ'))
                   | Raise e => Raise e
                   end.

Definition memo_lookup (k : option nat) : M NavState (option R) :=
  λ '(visited, σ), Ok (visited !! k, (visited, σ)).

Definition memo_store (k : option nat) (v : R) : M NavState unit :=
  λ '(visited, σ), Ok (tt, (<[k := v]> visited, σ)).

(** Modelled from the spec: memoization by node identity.  A node already
    in [visited] yields its stored result; otherwise [body] computes the
    result, which is stored under the key [k]. *)
Definition memoized (k : option nat) (body : M NavState R) : M NavState R :=
  let* seen := memo_lookup k in
  match seen with
  | Some v => ret v
  | None =>
      let* v := body in
      exec memo_store k v in
      ret v
  end.

(** Modelled from the spec: the walk at an epsilon child. *)
Definition nav_epsilon : M NavState R :=
  memoized None (lift_hook (_visit_epsilon nav)).

(** Modelled from the spec: the walk through the children of the family
    [ix], in order; the result of each child goes to [_add_result]. *)
Definition each_child (visit : option Node → M NavState R) (ix : nat)
  : list (option Node) → Acc → M NavState Acc :=
  fix loop (cs : list (option Node)) (results : Acc) : M NavState Acc :=
    match cs with
    | [] => ret results
    | c :: cs' =>
        let* r := visit c in
        let* results := lift_hook (_add_result nav results ix r) in
        loop cs' results
    end.

(** Modelled from the spec: the walk through the families of a node, in
    their order, numbered from [ix]: [_visit_family], then the children. *)
Definition each_family (visit : option Node → M NavState R) (d : NtInfo)
  : nat → list (Production * list (option Node)) → Acc → M NavState Acc :=
  fix loop (ix : nat) (fams : list (Production * list (option Node)))
      (results : Acc) : M NavState Acc :=
    match fams with
    | [] => ret results
    | (prod, children) :: fams' =>
        let* results := lift_hook (_visit_family nav results d ix prod) in
        let* results := each_child visit ix children results in
        loop (Datatypes.S ix) fams' results
    end.

(** Modelled from the spec: the postorder walk of section 4.1.  The hook
    of the kind of the node runs, for a nonterminal node after all its
    families, each family after [_visit_family] feeding the result of
    every child in order to [_add_result]. *)
Fixpoint nav_node (w : Node) : M NavState R :=
  memoized (node_key (Some w))
    match w with
    | TokenNode d => lift_hook (_visit_token nav d)
    | NonterminalNode d families =>
        let* results := lift_hook (_visit_nonterminal nav d) in
        let* results :=
          each_family (λ c, match c with
                            | None => nav_epsilon
                            | Some n => nav_node n
                            end) d 0%nat families results in
        lift_hook (_process_results nav results d)
    end.

(** Modelled from the spec: the walk from a child, epsilon or a node. *)
Definition _nav_helper (w : option Node) : M NavState R :=
  match w with
  | None => nav_epsilon
  | Some n => nav_node n
  end.

(** Modelled from the spec: [go(root_node)], the walk from the root with
    nothing visited; its result is the result of the root. *)
Definition navigate (root_node : option Node) : M S R :=
  λ σ, match _nav_helper root_node (∅, σ) with
       | Ok (v, (_, σ')) => Ok (v, σ')
       | Raise e => Raise e
       end.
End navigate.

(** ** First pass: [OptionFinder] *)

(** [finals] (a [defaultdict(set)]) and [tokens], keyed by token position. *)
Notation FinderState := (gmap nat (list Terminal) * gmap nat Token)%type.

(** [finals[i]]: the empty set when nothing was recorded at [i]. *)
Definition finals_at (finals : gmap nat (list Terminal)) (i : nat) : list Terminal :=
  default [] (finals !! i).

(** [OptionFinder._visit_token]; the other hooks are those of the base
    class, which do nothing and yield [None]. *)
Definition OptionFinder : Navigator FinderState unit unit := {|
  _visit_epsilon := ret tt;
  _visit_token d :=
    modify (λ '(finals, tokens),
      (<[tk_start d := set_add (terminal d) (finals_at finals (tk_start d))]> finals,
       <[tk_start d := token d]> tokens));
  _visit_nonterminal _ := ret tt;
  _visit_family _ _ _ _ := ret tt;
  _add_result _ _ _ := ret tt;
  _process_results _ _ := ret tt
|}.

(** [Reducer._find_options] *)
Definition _find_options (forest : Node) : M FinderState unit :=
  navigate OptionFinder (Some forest).

(** ** Second pass: terminal scores *)

(** [scores[i][terminal]] *)
Notation Scores := (gmap nat (list (Terminal * Z))).

Definition score_at (scores : Scores) (i : nat) (t : Terminal) : option Z :=
  sc ← scores !! i; dict_get sc t.

(** [scores[i][t] += d] *)
Definition add_score (i : nat) (t : Terminal) (d : Z) : M Scores unit :=
  let* scores := get_state in
  let* sc := or_raise (scores !! i) KeyError in
  let* z := or_raise (dict_get sc t) KeyError in
  modify <[i := dict_set sc t (z + d)]>.

(** A preference: the worse categories, the better ones and the factor. *)
Definition Pref : Type := list string * list string * Z.

(** [adj_worse] and [adj_better], two [defaultdict(int)]. *)
Definition AdjState : Type := list (Terminal * Z) * list (Terminal * Z).

(** Lines 121-130: one pair [(wt, bt)] of a preference. *)
Definition note_pair (wt bt : Terminal) (factor : Z) : M AdjState unit :=
  let* literal := or_raise (starts_with_quote (name bt)) IndexError in
  let adj_w := -2 * factor in
  let adj_b := if literal : bool then 6 * factor else 4 * factor in
  modify (λ '(adj_worse, adj_better),
    (dict_set adj_worse wt (Z.min (default 0 (dict_get adj_worse wt)) adj_w),
     dict_set adj_better bt (Z.max (default 0 (dict_get adj_better bt)) adj_b))).

(** Lines 116-130 *)
Definition collect_prefs (s : list Terminal) (prefs : list Pref) : M AdjState unit :=
  for_each prefs (λ '(worse, better, factor),
    for_each s (λ wt,
      if bool_decide (first wt ∈ worse) then
        for_each s (λ bt,
          if negb (bool_decide (wt = bt)) && bool_decide (first bt ∈ better)
          then note_pair wt bt factor
          else ret tt)
      else ret tt)).

(** Lines 113-136 *)
Definition apply_prefs (i : nat) (s : list Terminal) (prefs : list Pref) : M Scores unit :=
  let* adj := (λ σ, match collect_prefs s prefs ([], []) with
                    | Ok (_, adj) => Ok (adj, σ)
                    | Raise e => Raise e
                    end) in
  exec for_each (fst adj) (λ '(wt, a), add_score i wt a) in
  for_each (snd adj) (λ '(bt, a), add_score i bt a).

Section scorer.
(** The tables of [settings.py]: [Preferences.get], [VerbObjects.VERBS[0]]
    and [VerbObjects.SCORES]. *)
Variable Preferences : string → option (list Pref).
Variable VERBS_0 : gset string.
Variable SCORES : gmap string Z.

Definition is_verb (m : BIN_Meaning) : bool := String.eqb (ordfl m) "so".

(** Lines 175-176: no meaning of the token is a verb without arguments. *)
Definition no_zero_arg_meaning (tok : Token) : bool :=
  forallb (λ m, negb (bool_decide (stofn m ∈ VERBS_0)) && negb (str_in "MM" (beyging m)))
          (List.filter is_verb (t2 tok)).

(** Lines 183-190: the score of the first verb meaning that has one. *)
Fixpoint verb_case_score (t : Terminal) (ms : list BIN_Meaning) : Z :=
  match ms with
  | [] => 0
  | m :: ms' =>
      if is_verb m then
        match SCORES !! (stofn m ++ verb_cases t)%string with
        | Some score => score
        | None => verb_case_score t ms'
        end
      else verb_case_score t ms'
  end.

(** Lines 167-191 *)
Definition verb_arguments (i : nat) (tok : Token) (t : Terminal) : M Scores unit :=
  let* v0 := or_raise (variant t 0) IndexError in
  if str_in v0 "012" then
    let* numcases := or_raise (py_int v0) ValueError in
    let adj := 2 * numcases in
    let adj := if (numcases =? 0) && no_zero_arg_meaning tok then -5 else adj in
    let adjmax := verb_case_score t (t2 tok) in
    add_score i t (adj + adjmax)
  else ret tt.

(** Lines 192-209 *)
Definition verb_form (i : nat) (t : Terminal) : M Scores unit :=
  if is_sagnb t then add_score i t 6
  else if is_lh t then
    if has_variant t "vb" then add_score i t (-2) else add_score i t 3
  else if is_mm t then add_score i t 3
  else if is_vh t then add_score i t 2
  else ret tt.

(** Lines 210-216 *)
Definition verb_subject (i : nat) (t : Terminal) : M Scores unit :=
  if is_subj t then
    if has_variant t "none" then add_score i t (-3) else add_score i t 1
  else ret tt.

Definition is_nhm (pt : Terminal) : bool := String.eqb (first pt) "nhm".

Definition is_noun_ef_ft (pt : Terminal) : bool :=
  String.eqb (first pt) "no" && has_variant pt "ef" && is_plural pt.

(** Lines 221-226: the first [nhm] key of [scores[i - 1]] gets 2. *)
Definition prop_up_nhm (i : nat) : M Scores unit :=
  let* scores := get_state in
  let* prev := or_raise (scores !! (i - 1)%nat) KeyError in
  match List.find is_nhm (dict_keys prev) with
  | Some pt => add_score (i - 1) pt 2
  | None => ret tt
  end.

(** Lines 217-230 *)
Definition verb_infinitive (finals : gmap nat (list Terminal)) (i : nat)
    (s : list Terminal) (t : Terminal) : M Scores unit :=
  if is_nh t then
    exec (if (0 <? i)%nat && existsb is_nhm (finals_at finals (i - 1))
          then exec add_score i t 4 in prop_up_nhm i
          else ret tt) in
    if existsb is_noun_ef_ft s then add_score i t 4 else ret tt
  else ret tt.

Definition is_ef_number (pt : Terminal) : bool :=
  (String.eqb (first pt) "no" || String.eqb (first pt) "töl") && has_variant pt "ef".

(** Lines 142-260: the heuristics for the terminal [t] of the set [s]. *)
Definition heuristics (finals : gmap nat (list Terminal)) (w_start i : nat)
    (s : list Terminal) (tok : Token) (t : Terminal) : M Scores unit :=
  let tfirst := first t in
  let txt := lower tok in
  if String.eqb tfirst "ao" || String.eqb tfirst "eo" then add_score i t (-1)
  else if String.eqb tfirst "no" then
    if is_singular t then add_score i t 1
    else if is_abbrev t then add_score i t (-1)
    else ret tt
  else if String.eqb tfirst "fs" then
    if has_variant t "nf" then add_score i t (-5)
    else if String.eqb txt "við" && has_variant t "þgf" then add_score i t 1
    else if String.eqb txt "sem" && has_variant t "þf" then add_score i t (-6)
    else add_score i t 2
  else if String.eqb tfirst "so" then
    exec verb_arguments i tok t in
    exec verb_form i t in
    exec verb_subject i t in
    verb_infinitive finals i s t
  else if String.eqb tfirst "tala" || String.eqb tfirst "töl" then
    exec (if String.eqb tfirst "tala" then add_score i t (-1) else ret tt) in
    for_each s (λ pt, if is_ef_number pt then add_score i pt (-1) else ret tt)
  else if String.eqb tfirst "sérnafn" then
    match t2 tok with
    | [] => add_score i t 2
    | _ :: _ =>
        exec add_score i t (-6) in
        if (i =? w_start)%nat then add_score i t (-4) else ret tt
    end
  else
    let* literal := or_raise (starts_with_quote (name t)) IndexError in
    if literal : bool then add_score i t 1 else ret tt.

(** Line 95: a dictionary with the score 0 for each terminal of [s]. *)
Definition init_scores (s : list Terminal) : list (Terminal * Z) :=
  foldl (λ d t, dict_set d t 0) [] s.

(** Line 106 *)
Definition same_first (s : list Terminal) : bool :=
  (length (remove_dups (first <$> s)) =? 1)%nat.

(** Lines 110-136: the preferences are looked up unless all the terminals
    have the same first part; an empty list of preferences counts as none. *)
Definition check_preferences (i : nat) (s : list Terminal) (tok : Token) : M Scores unit :=
  let prefs := if same_first s then None else Preferences (lower tok) in
  match prefs with
  | Some (p :: ps) => apply_prefs i s (p :: ps)
  | _ => ret tt
  end.

(** Lines 93-260: the body of the loop over the token positions. *)
Definition score_position (finals : gmap nat (list Terminal)) (tokens : gmap nat Token)
    (w_start i : nat) : M Scores unit :=
  let s := finals_at finals i in
  exec modify <[i := init_scores s]> in
  if (length s <=? 1)%nat then ret tt
  else
    let* tok := or_raise (tokens !! i) KeyError in
    exec check_preferences i s tok in
    for_each s (heuristics finals w_start i s tok).

(** Lines 91-264 *)
Definition score_positions (finals : gmap nat (list Terminal)) (tokens : gmap nat Token)
    (w : Node) : M Scores unit :=
  for_each (seq (start w) (end_ w - start w)) (score_position finals tokens (start w)).

(** [Reducer._calc_terminal_scores] *)
Definition _calc_terminal_scores (w : Node) : result Scores :=
  match _find_options w (∅, ∅) with
  | Raise e => Raise e
  | Ok (_, (finals, tokens)) =>
      match score_positions finals tokens w ∅ with
      | Ok (_, scores) => Ok scores
      | Raise e => Raise e
      end
  end.
End scorer.

(** ** Third pass: [ParseForestReducer] *)

(** [ReductionInfo]: the child tree scores [sc] per family index, the
    nonterminal [nt] of a completed node, and the priority pool. *)
Record ReductionInfo := mkReductionInfo {
  sc : list (nat * Z);
  nt : option string;
  highest_prio : option Z;
  use_prio : bool;
  highest_ix : option (list nat)
}.

(** [ReductionInfo.__init__] *)
Definition new_ReductionInfo (node : NtInfo) : ReductionInfo := {|
  sc := [];
  nt := if is_completed node then Some (nonterminal node) else None;
  highest_prio := None;
  use_prio := false;
  highest_ix := None
|}.

(** [ReductionInfo.add_child_score]: [self.sc[ix] += sc] on a
    [defaultdict(int)]. *)
Definition add_child_score (self : ReductionInfo) (ix : nat) (score : Z) : ReductionInfo := {|
  sc := dict_set (sc self) ix (default 0 (dict_get (sc self) ix) + score);
  nt := nt self;
  highest_prio := highest_prio self;
  use_prio := use_prio self;
  highest_ix := highest_ix self
|}.

(** [ReductionInfo.add_child_production] *)
Definition add_child_production (self : ReductionInfo) (ix : nat) (prod : Production)
    : ReductionInfo :=
  match nt self with
  | None => self
  | Some _ =>
      let prio := priority prod in
      let use_prio' :=
        match highest_prio self with
        | Some hp => if prio =? hp then use_prio self else true
        | None => use_prio self
        end in
      let lower := match highest_prio self with
                   | None => true
                   | Some hp => prio <? hp
                   end in
      if lower then
        {| sc := sc self; nt := nt self; highest_prio := Some prio;
           use_prio := use_prio'; highest_ix := Some [ix] |}
      else if bool_decide (Some prio = highest_prio self) then
        {| sc := sc self; nt := nt self; highest_prio := highest_prio self;
           use_prio := use_prio';
           highest_ix := set_add ix <$> highest_ix self |}
      else
        {| sc := sc self; nt := nt self; highest_prio := highest_prio self;
           use_prio := use_prio'; highest_ix := highest_ix self |}
  end.

(** [sorted(items, key = lambda x: x[1], reverse = True)]: a stable sort in
    decreasing order of the score; items of equal score keep their order. *)
Fixpoint insert_desc (x : nat * Z) (l : list (nat * Z)) : list (nat * Z) :=
  match l with
  | [] => [x]
  | y :: l' => if x.2 <? y.2 then y :: insert_desc x l' else x :: y :: l'
  end.

Definition sorted_desc (items : list (nat * Z)) : list (nat * Z) :=
  foldr insert_desc [] items.

(** The store of the reducing walk: the calls [node.reduce_to(ix)] made so
    far, as pairs of the identity of the node and the index of the family
    it keeps, the latest last. *)
Notation Reductions := (list (nat * nat)).

(** Modelled from the spec: [Node.reduce_to] of [fastparser.py] is not
    among the sources; by section 6 of the spec it replaces the family
    list of the node with the chosen family.  The call is recorded. *)
Definition reduce_to (node : NtInfo) (ix : nat) : M Reductions unit :=
  modify (λ log : Reductions, (log ++ [(nt_id node, ix)])%list).

Section reducer.
(** [grammar._nt_scores] and the scores of the second pass. *)
Variable _nt_scores : gmap string Z.
Variable scores : Scores.

(** Line 341: the families of the highest priority. *)
Definition highest_only (results : ReductionInfo) : M Reductions (list (nat * Z)) :=
  match highest_ix results with
  | Some hs => ret (List.filter (λ '(ix, _), bool_decide (ix ∈ hs)) (sc results))
  | None =>
      match sc results with
      | [] => ret []
      | _ :: _ => raise TypeError
      end
  end.

(** [ParseForestReducer._process_results] *)
Definition process_results (results : ReductionInfo) (node : NtInfo) : M Reductions Z :=
  let* csc := if use_prio results then highest_only results else ret (sc results) in
  let* score :=
    if (length csc =? 1)%nat && negb (use_prio results) then
      match csc with
      | [(_, score)] => ret score
      | _ => raise ValueError
      end
    else
      match sorted_desc csc with
      | [] => raise IndexError
      | (ix, score) :: _ => exec reduce_to node ix in ret score
      end in
  match nt results with
  | Some nt => ret (score + default 0 (_nt_scores !! nt))
  | None => ret score
  end.

(** The hooks of [ParseForestReducer]. *)
Definition ParseForestReducer : Navigator Reductions Z ReductionInfo := {|
  _visit_epsilon := ret 0;
  _visit_token node :=
    or_raise (sc ← scores !! tk_start node; dict_get sc (terminal node)) KeyError;
  _visit_nonterminal node := ret (new_ReductionInfo node);
  _visit_family results w ix prod := ret (add_child_production results ix prod);
  _add_result results ix score := ret (add_child_score results ix score);
  _process_results := process_results
|}.

(** [Reducer._reduce] *)
Definition _reduce (w : Node) : result (Z * Reductions) :=
  navigate ParseForestReducer (Some w) [].
End reducer.

(** ** The orchestrator *)

(** The forest handed back: the argument with the reductions made on it. *)
Definition ReducedForest : Type := Node * Reductions.

Section orchestrator.
(** The two methods [go_with_score] calls on [self]. *)
Variable calc_terminal_scores : Node → result Scores.
Variable reduce : Scores → Node → result (Z * Reductions).

(** [Reducer.go_with_score] *)
Definition go_with_score_of (forest : option Node) : result (option ReducedForest * Z) :=
  match forest with
  | None => Ok (None, 0)
  | Some w =>
      match calc_terminal_scores w with
      | Raise e => Raise e
      | Ok scores =>
          match reduce scores w with
          | Raise e => Raise e
          | Ok (score, log) => Ok (Some (w, log), score)
          end
      end
  end.

(** [Reducer.go] *)
Definition go_of (forest : option Node) : result (option ReducedForest) :=
  match go_with_score_of forest with
  | Raise e => Raise e
  | Ok (w, _) => Ok w
  end.
End orchestrator.

Section Reducer.
Variable Preferences : string → option (list Pref).
Variable VERBS_0 : gset string.
Variable SCORES : gmap string Z.
Variable _nt_scores : gmap string Z.

(** [go_with_score] and [go] with the two passes of the class. *)
Definition go_with_score : option Node → result (option ReducedForest * Z) :=
  go_with_score_of (_calc_terminal_scores Preferences VERBS_0 SCORES) (_reduce _nt_scores).

Definition go : option Node → result (option ReducedForest) :=
  go_of (_calc_terminal_scores Preferences VERBS_0 SCORES) (_reduce _nt_scores).
End Reducer.

(** ** The claims of the specification, in the words of the specification *)

Section spec_verbs.
Variable SCORES : gmap string Z.

(** The entries of the verb-case score table for the verb meanings of a
    token, keyed by the stem followed by the case signature. *)
Definition verb_case_entries (t : Terminal) (ms : list BIN_Meaning) : list Z :=
  omap (λ m, if is_verb m then SCORES !! (stofn m ++ verb_cases t)%string else None) ms.

(** The maximum of the entries, and 0 when there is none. *)
Definition spec_verb_case_max (t : Terminal) (ms : list BIN_Meaning) : Z :=
  match verb_case_entries t ms with
  | [] => 0
  | e :: es => foldr Z.max e es
  end.
End spec_verbs.

(** ** Auxiliary notions for the walks *)

(** The results of the children of a family, visited in order. *)
Fixpoint visit_all {S R} (visit : option Node → M S R) (cs : list (option Node))
    : M S (list R) :=
  match cs with
  | [] => ret []
  | c :: cs' =>
      let* r := visit c in
      let* rs := visit_all visit cs' in
      ret (r :: rs)
  end.

(** The sum of a list of scores. *)
Definition Zsum (l : list Z) : Z := foldr Z.add 0 l.

(** ** Auxiliary notions for the scores *)

(** The terminals that have a score, per position. *)
Definition keys_of (scores : Scores) : gmap nat (list Terminal) :=
  dict_keys <$> scores.

(** A step on the scores that, started with the keys [K], keeps the keys
    and adds [δ j u] to the score of the terminal [u] at the position [j]. *)
Definition adds (K : gmap nat (list Terminal)) (m : M Scores unit)
    (δ : nat → Terminal → Z) : Prop :=
  ∀ σ σ' u0, keys_of σ = K → m σ = Ok (u0, σ') →
    keys_of σ' = K
    ∧ ∀ j u, score_at σ' j u = (λ z, z + δ j u) <$> score_at σ j u.

(** [δ] at the one place [(i, t)], nothing elsewhere. *)
Definition at_place (i : nat) (t : Terminal) (d : Z) : nat → Terminal → Z :=
  λ j u, if decide (j = i ∧ u = t) then d else 0.

(** ** The preferences, as the specification words them *)

(** A literal terminal: its name begins with a quote. *)
Definition is_literal (t : Terminal) : bool :=
  default false (starts_with_quote (name t)).

(** The triples of a preference factor and an ordered pair [(wt, bt)] of
    distinct candidates, [wt] of a worse category, [bt] of a better one. *)
Definition matching_pairs (s : list Terminal) (prefs : list Pref)
    : list (Terminal * Terminal * Z) :=
  pref ← prefs; wt ← s; bt ← s;
  if decide (wt ≠ bt ∧ first wt ∈ pref.1.1 ∧ first bt ∈ pref.1.2)
  then [(wt, bt, pref.2)] else [].

Definition worse_adjustments (t : Terminal) (pairs : list (Terminal * Terminal * Z)) : list Z :=
  omap (λ p, if decide (p.1.1 = t) then Some (-2 * p.2) else None) pairs.

Definition better_adjustments (t : Terminal) (pairs : list (Terminal * Terminal * Z)) : list Z :=
  omap (λ p, if decide (p.1.2 = t)
             then Some (if is_literal p.1.2 then 6 * p.2 else 4 * p.2)
             else None) pairs.

(** The pending adjustment of [t] on the worse side: the least of 0 and of
    -2 * factor over the pairs that have [t] as their worse terminal. *)
Definition spec_adj_worse (s : list Terminal) (prefs : list Pref) (t : Terminal) : Z :=
  foldr Z.min 0 (worse_adjustments t (matching_pairs s prefs)).

(** On the better side: the greatest of 0 and of 6 * factor, for a literal
    terminal, or 4 * factor over the pairs that have [t] as their better
    terminal. *)
Definition spec_adj_better (s : list Terminal) (prefs : list Pref) (t : Terminal) : Z :=
  foldr Z.max 0 (better_adjustments t (matching_pairs s prefs)).

(** [adj[t]] on a [defaultdict(int)] *)
Definition adj_at (adj : list (Terminal * Z)) (t : Terminal) : Z :=
  default 0 (dict_get adj t).

(** A step on [adj_worse] and [adj_better] that accumulates the adjustments
    of the pairs [pairs]. *)
Definition accumulates (m : M AdjState unit) (pairs : list (Terminal * Terminal * Z)) : Prop :=
  ∀ aw ab aw' ab' u0, m (aw, ab) = Ok (u0, (aw', ab')) →
    NoDup (dict_keys aw) → NoDup (dict_keys ab) →
    NoDup (dict_keys aw') ∧ NoDup (dict_keys ab')
    ∧ ∀ t, adj_at aw' t = foldr Z.min (adj_at aw t) (worse_adjustments t pairs)
           ∧ adj_at ab' t = foldr Z.max (adj_at ab t) (better_adjustments t pairs).

(** ** The heuristics in closed form *)

Section heuristics_closed_form.
Variable VERBS_0 : gset string.
Variable SCORES : gmap string Z.

(** What lines 167-191 add to a verb terminal. *)
Definition verb_arguments_adj (tok : Token) (t : Terminal) : Z :=
  match variant t 0 with
  | Some v0 =>
      if str_in v0 "012" then
        match py_int v0 with
        | Some numcases =>
            (if (numcases =? 0) && no_zero_arg_meaning VERBS_0 tok then -5 else 2 * numcases)
            + verb_case_score SCORES t (t2 tok)
        | None => 0
        end
      else 0
  | None => 0
  end.

(** What lines 192-209 add. *)
Definition verb_form_adj (t : Terminal) : Z :=
  if is_sagnb t then 6
  else if is_lh t then (if has_variant t "vb" then -2 else 3)
  else if is_mm t then 3
  else if is_vh t then 2
  else 0.

(** What lines 210-216 add. *)
Definition verb_subject_adj (t : Terminal) : Z :=
  if is_subj t then (if has_variant t "none" then -3 else 1) else 0.

(** The test of line 218: a position before [i], with an [nhm] terminal. *)
Definition nhm_before (finals : gmap nat (list Terminal)) (i : nat) : bool :=
  (0 <? i)%nat && existsb is_nhm (finals_at finals (i - 1)).

(** What lines 217-230 add to the verb terminal itself. *)
Definition verb_infinitive_adj (finals : gmap nat (list Terminal)) (i : nat)
    (s : list Terminal) (t : Terminal) : Z :=
  if is_nh t then
    (if nhm_before finals i then 4 else 0) + (if existsb is_noun_ef_ft s then 4 else 0)
  else 0.

(** The two categories of numbers. *)
Definition is_number (t : Terminal) : bool :=
  String.eqb (first t) "tala" || String.eqb (first t) "töl".

Definition is_infinitive_verb (t : Terminal) : bool :=
  String.eqb (first t) "so" && is_nh t.

(** What the heuristics for [t] add to the score of [t] itself. *)
Definition own_adjust (finals : gmap nat (list Terminal)) (w_start i : nat)
    (s : list Terminal) (tok : Token) (t : Terminal) : Z :=
  let tfirst := first t in
  let txt := lower tok in
  if String.eqb tfirst "ao" || String.eqb tfirst "eo" then -1
  else if String.eqb tfirst "no" then
    if is_singular t then 1 else if is_abbrev t then -1 else 0
  else if String.eqb tfirst "fs" then
    if has_variant t "nf" then -5
    else if String.eqb txt "við" && has_variant t "þgf" then 1
    else if String.eqb txt "sem" && has_variant t "þf" then -6
    else 2
  else if String.eqb tfirst "so" then
    verb_arguments_adj tok t + verb_form_adj t + verb_subject_adj t
    + verb_infinitive_adj finals i s t
  else if String.eqb tfirst "tala" || String.eqb tfirst "töl" then
    if String.eqb tfirst "tala" then -1 else 0
  else if String.eqb tfirst "sérnafn" then
    match t2 tok with
    | [] => 2
    | _ :: _ => -6 + (if (i =? w_start)%nat then -4 else 0)
    end
  else if is_literal t then 1 else 0.

(** What the heuristics for a number terminal add to the members of [s]:
    -1 to each noun or [töl] terminal with the variant [ef]. *)
Definition ef_penalty (i : nat) (s : list Terminal) : nat → Terminal → Z :=
  λ j u, Zsum ((λ pt, if is_ef_number pt then at_place i pt (-1) j u else 0) <$> s).

(** What [prop_up_nhm] adds: 2 to the first [nhm] key at [i - 1]. *)
Definition nhm_bonus (K : gmap nat (list Terminal)) (i : nat) : nat → Terminal → Z :=
  λ j u, match List.find is_nhm (default [] (K !! (i - 1)%nat)) with
         | Some pt => at_place (i - 1) pt 2 j u
         | None => 0
         end.

(** What the heuristics for [t] add, to any terminal at any position. *)
Definition heur_delta (K finals : gmap nat (list Terminal)) (w_start i : nat)
    (s : list Terminal) (tok : Token) (t : Terminal) : nat → Terminal → Z :=
  λ j u,
    at_place i t (own_adjust finals w_start i s tok t) j u
    + (if is_number t then ef_penalty i s j u else 0)
    + (if is_infinitive_verb t && nhm_before finals i then nhm_bonus K i j u else 0).
End heuristics_closed_form.

(** What the preference step adds to the score of [t]: nothing when all
    candidates have the same first part, else the two pending adjustments
    under the preferences found for the lowercased text of the token. *)
Definition pref_adjust (Preferences : string → option (list Pref))
    (s : list Terminal) (tok : Token) (t : Terminal) : Z :=
  if same_first s then 0
  else
    let prefs := default [] (Preferences (lower tok)) in
    spec_adj_worse s prefs t + spec_adj_better s prefs t.

(** What the heuristics add to a noun terminal as such. *)
Definition noun_adj (t : Terminal) : Z :=
  if is_singular t then 1 else if is_abbrev t then -1 else 0.

(** The claim on numbers as the specification has it: wherever the
    candidates include a number terminal, a noun or [töl] candidate with
    the variant [ef] ends one below what the preferences and the heuristics
    for its own category give it. *)
Definition spec_number_rule_once : Prop :=
  ∀ Preferences VERBS_0 SCORES finals tokens w_start i (σ σ' : Scores) tok t,
    let s := finals_at finals i in
    NoDup s → tokens !! i = Some tok →
    (∃ n, n ∈ s ∧ is_number n = true) →
    t ∈ s → is_ef_number t = true →
    score_position Preferences VERBS_0 SCORES finals tokens w_start i σ = Ok (tt, σ') →
    score_at σ' i t =
      Some (pref_adjust Preferences s tok t
            + own_adjust VERBS_0 SCORES finals w_start i s tok t - 1).

(** ** The nodes of a forest *)

(** The nodes under a child of a family; none under epsilon. *)
Definition under {A} (f : Node → list A) (c : option Node) : list A :=
  match c with
  | None => []
  | Some n => f n
  end.

(** The children of all the families of a node, in the order of the walk. *)
Definition children_of (fams : list (Production * list (option Node))) : list (option Node) :=
  flat_map snd fams.

(** The nodes of the forest with the root [w], [w] first, a shared node at
    each of its places. *)
Fixpoint nodes (w : Node) : list Node :=
  w :: match w with
       | TokenNode _ => []
       | NonterminalNode _ fams => flat_map (λ fam, flat_map (under nodes) fam.2) fams
       end.

(** Nodes of the same identity are the same node. *)
Definition wf_ids (w : Node) : Prop :=
  ∀ u v, u ∈ nodes w → v ∈ nodes w →
    node_key (Some u) = node_key (Some v) → u = v.

(** A token spans a position at least, and a child lies within the span of
    its parent. *)
Inductive spans_nested : Node → Prop :=
| spans_token d :
    (tk_start d < tk_end d)%nat → spans_nested (TokenNode d)
| spans_nonterminal d fams :
    (∀ n, Some n ∈ children_of fams →
       (nt_start d ≤ start n)%nat ∧ (end_ n ≤ nt_end d)%nat ∧ spans_nested n) →
    spans_nested (NonterminalNode d fams).

(** Every nonterminal node has one family, of one child at least. *)
Definition unambiguous (w : Node) : Prop :=
  ∀ d fams, NonterminalNode d fams ∈ nodes w →
    ∃ prod children, fams = [(prod, children)] ∧ children ≠ [].

Section root_score.
Variable _nt_scores : gmap string Z.
Variable scores : Scores.

(** The score of a token leaf, 0 when it has none. *)
Definition token_score (d : TokenInfo) : Z :=
  default 0 (score_at scores (tk_start d) (terminal d)).

(** The score adjustment the grammar declares for a nonterminal, 0 if none. *)
Definition declared_adjustment (d : NtInfo) : Z :=
  default 0 (_nt_scores !! nonterminal d).

(** The token leaves of the forest. *)
Definition token_leaves (w : Node) : list TokenInfo :=
  omap (λ u, match u with TokenNode d => Some d | NonterminalNode _ _ => None end)
       (nodes w).

(** Its completed nonterminal nodes. *)
Definition completed_nonterminals (w : Node) : list NtInfo :=
  omap (λ u, match u with
             | NonterminalNode d _ => if is_completed d then Some d else None
             | TokenNode _ => None
             end)
       (nodes w).

(** The score of the root, as the specification has it for a forest with
    no ambiguity: the scores of all token leaves and the adjustments of
    all completed nonterminal nodes. *)
Definition spec_root_score (w : Node) : Z :=
  Zsum (token_score <$> token_leaves w)
  + Zsum (declared_adjustment <$> completed_nonterminals w).

(** What one node adds to that sum. *)
Definition node_share (w : Node) : Z :=
  match w with
  | TokenNode d => token_score d
  | NonterminalNode d _ => if is_completed d then declared_adjustment d else 0
  end.

(** What a child adds: nothing for epsilon. *)
Definition child_score (c : option Node) : Z :=
  match c with
  | None => 0
  | Some n => spec_root_score n
  end.
End root_score.

(** The invariant of the reducing walk on a forest with no ambiguity: a
    visited node has the score of its tree as its stored result. *)
Definition reducer_inv (_nt_scores : gmap string Z) (scores : Scores) (root : Node)
    (st : @NavState Reductions Z) : Prop :=
  (∀ u v, u ∈ nodes root → st.1 !! node_key (Some u) = Some v →
      v = spec_root_score _nt_scores scores u)
  ∧ (∀ v, st.1 !! None = Some v → v = 0).

(** A step of the reducing walk that yields the score of the child [c],
    keeps the invariant and reduces nothing. *)
Definition sums (_nt_scores : gmap string Z) (scores : Scores) (root : Node)
    (m : M (@NavState Reductions Z) Z) (c : option Node) : Prop :=
  ∀ st, reducer_inv _nt_scores scores root st →
    ∃ st', m st = Ok (child_score _nt_scores scores c, st')
           ∧ reducer_inv _nt_scores scores root st' ∧ st'.2 = st.2.

(** A computation that never raises [KeyError]. *)
Definition no_KeyError {S A} (m : M S A) : Prop := ∀ σ, m σ ≠ Raise KeyError.

(** What the walk does at a node that is not in [visited]. *)
Definition node_body {S R Acc} (nav : Navigator S R Acc) (w : Node) : M NavState R :=
  match w with
  | TokenNode d => lift_hook (_visit_token nav d)
  | NonterminalNode d fams =>
      let* results := lift_hook (_visit_nonterminal nav d) in
      let* results := each_family nav (_nav_helper nav) d 0 fams results in
      lift_hook (_process_results nav results d)
  end.

(** ** What the first pass has found *)

(** The terminal and the token of every token node under [u] are in. *)
Definition recorded (fs : FinderState) (u : Node) : Prop :=
  ∀ d, TokenNode d ∈ nodes u →
    terminal d ∈ finals_at fs.1 (tk_start d) ∧ is_Some (fs.2 !! tk_start d).

(** [finals] holds sets, of terminals of token nodes of the forest. *)
Definition from_forest (root : Node) (fs : FinderState) : Prop :=
  (∀ i, NoDup (finals_at fs.1 i))
  ∧ ∀ i t, t ∈ finals_at fs.1 i →
      ∃ d, TokenNode d ∈ nodes root ∧ tk_start d = i ∧ terminal d = t.

(** The invariant of the first walk: what is under a visited node is
    recorded, and nothing else is. *)
Definition finder_inv (root : Node) (st : @NavState FinderState unit) : Prop :=
  (∀ u, u ∈ nodes root → is_Some (st.1 !! node_key (Some u)) → recorded st.2 u)
  ∧ from_forest root st.2.

(** The store only grows. *)
Definition extends (st st' : @NavState FinderState unit) : Prop :=
  (∀ k, is_Some (st.1 !! k) → is_Some (st'.1 !! k))
  ∧ (∀ i t, t ∈ finals_at st.2.1 i → t ∈ finals_at st'.2.1 i)
  ∧ (∀ i, is_Some (st.2.2 !! i) → is_Some (st'.2.2 !! i)).

(** A step of the first walk that visits the child [c]: it returns, keeps
    the invariant, and leaves [c] visited. *)
Definition finds (root : Node) (m : M (@NavState FinderState unit) unit)
    (cs : list (option Node)) : Prop :=
  ∀ st, finder_inv root st →
    ∃ st', m st = Ok (tt, st') ∧ finder_inv root st' ∧ extends st st'
           ∧ ∀ n, Some n ∈ cs → is_Some (st'.1 !! node_key (Some n)).

(** ** Sample inputs *)

Module Sample.
Definition mk (id : nat) (nm fst : string) (vs : list string) : Terminal :=
  mkTerminal id nm fst vs EmptyString false false false false false false false false false.

(** A verb with one object in the accusative, and a singular noun. *)
Definition so_1 : Terminal :=
  mkTerminal 1 "so_1_þf" "so" ["1"; "þf"] "_þf"
    false false false false false false false false false.
Definition no_et : Terminal :=
  mkTerminal 2 "no_et" "no" ["et"] EmptyString
    true false false false false false false false false.

(** A token with two verb meanings, both with an entry in [SCORES]. *)
Definition two_verbs : Token :=
  mkToken "Mynda" "mynda"
    [mkMeaning "mynda" 1 "so" "alm" "mynda" "GM-NH";
     mkMeaning "myndast" 2 "so" "alm" "mynda" "GM-NH"].
Definition verb_scores : gmap string Z :=
  {[ "mynda_þf" := 1; "myndast_þf" := 5 ]}.

Definition S_prod : Production := mkProduction "S" 0.

(** One position with the two terminals as alternatives. *)
Definition verb_or_noun : Node :=
  NonterminalNode (mkNtInfo 100 0 1 "S" true)
    [(S_prod, [Some (TokenNode (mkTokenInfo 101 0 1 so_1 two_verbs))]);
     (S_prod, [Some (TokenNode (mkTokenInfo 102 0 1 no_et two_verbs))])].

Definition no_prefs (txt : string) : option (list Pref) := None.

(** A completed node whose better-scored family has the worse priority. *)
Definition prio_info : NtInfo := mkNtInfo 200 0 1 "S" true.
Definition prio_families : list (Production * list (option Node)) :=
  [(mkProduction "S" 1, [Some (TokenNode (mkTokenInfo 201 0 1 so_1 two_verbs))]);
   (mkProduction "S" 0, [Some (TokenNode (mkTokenInfo 202 0 1 no_et two_verbs))])].
Definition prio_scores : Scores := {[ 0%nat := [(so_1, 10); (no_et, -5)] ]}.

(** The word ekki: an adverb or a noun, the adverb preferred. *)
Definition ao : Terminal := mk 3 "ao" "ao" [].
Definition no_hk : Terminal := mk 4 "no_hk" "no" ["hk"].
Definition ekki : Token := mkToken "Ekki" "ekki" [].
Definition ekki_prefs (txt : string) : option (list Pref) :=
  if String.eqb txt "ekki" then Some [(["no"], ["ao"], 1)] else None.
Definition ekki_finals : gmap nat (list Terminal) := {[ 0%nat := [ao; no_hk] ]}.
Definition ekki_tokens : gmap nat Token := {[ 0%nat := ekki ]}.

(** A proper noun or a noun, for a token that has meanings. *)
Definition sernafn : Terminal := mk 5 "sérnafn" "sérnafn" [].
Definition name_finals : gmap nat (list Terminal) := {[ 0%nat := [sernafn; no_hk] ]}.
Definition name_tokens : gmap nat Token := {[ 0%nat := two_verbs ]}.

(** A number: the rough [tala] or the full [töl] in the genitive. *)
Definition tala : Terminal := mk 6 "tala" "tala" [].
Definition tol_ef : Terminal := mk 7 "töl_ef" "töl" ["ef"].
Definition tveggja : Token := mkToken "tveggja" "tveggja" [].
Definition number_finals : gmap nat (list Terminal) := {[ 0%nat := [tala; tol_ef] ]}.
Definition number_tokens : gmap nat Token := {[ 0%nat := tveggja ]}.

(** The infinitive marker and a verb in the infinitive: at the position 0
    the marker [nhm] or a preposition, at the position 1 a verb in the
    infinitive or a plural noun in the genitive. *)
Definition nhm : Terminal := mk 8 "nhm" "nhm" [].
Definition fs_thf : Terminal := mk 9 "fs_þf" "fs" ["þf"].
Definition so_nh : Terminal :=
  mkTerminal 10 "so_1_þf_nh" "so" ["1"; "þf"; "nh"] "_þf"
    false false false false false false false false true.
Definition no_ef_ft : Terminal :=
  mkTerminal 11 "no_ef_ft" "no" ["ef"; "ft"] EmptyString
    false true false false false false false false false.
Definition ad : Token := mkToken "að" "að" [].
Definition inf_finals : gmap nat (list Terminal) :=
  {[ 0%nat := [nhm; fs_thf]; 1%nat := [so_nh; no_ef_ft] ]}.
Definition inf_tokens : gmap nat Token := {[ 0%nat := ad; 1%nat := two_verbs ]}.

(** The same with no infinitive marker: at the position 0 the preposition
    alone. *)
Definition bare_finals : gmap nat (list Terminal) :=
  {[ 0%nat := [fs_thf]; 1%nat := [so_nh; no_ef_ft] ]}.

(** A forest with a shared node: the token node of the adverb is a child
    of two families of the root. *)
Definition ekki_ao : Node := TokenNode (mkTokenInfo 301 0 1 ao ekki).
Definition ekki_no : Node := TokenNode (mkTokenInfo 302 0 1 no_hk ekki).
Definition shared_forest : Node :=
  NonterminalNode (mkNtInfo 300 0 1 "S" true)
    [(S_prod, [Some ekki_ao]); (S_prod, [Some ekki_no]); (S_prod, [Some ekki_ao; None])].

(** A forest with no ambiguity: a sentence of a noun phrase, a verb and an
    empty tail. *)
Definition plain_forest : Node :=
  NonterminalNode (mkNtInfo 400 0 2 "S" true)
    [(S_prod,
      [Some (NonterminalNode (mkNtInfo 401 0 1 "NP" true)
               [(mkProduction "NP" 0,
                 [Some (TokenNode (mkTokenInfo 402 0 1 no_et ekki))])]);
       Some (TokenNode (mkTokenInfo 403 1 2 so_1 two_verbs));
       None])].
Definition plain_scores : Scores := {[ 0%nat := [(no_et, 1)]; 1%nat := [(so_1, 3)] ]}.
Definition plain_adjustments : gmap string Z := {[ "S" := 3; "NP" := -1 ]}.
End Sample.

(** ** The calls of a walk on a result object *)

(** What one family does to the result object of its node: the call
    [add_child_production] for the family, then [add_child_score] for the
    result [rs] of each of its children. *)
Definition family_calls (r : ReductionInfo) (ix : nat) (prod : Production) (rs : list Z)
    : ReductionInfo :=
  foldl (λ r s, add_child_score r ix s) (add_child_production r ix prod) rs.

(** The families in turn, numbered from [ix]. *)
Fixpoint families_calls (r : ReductionInfo) (ix : nat) (fams : list (Production * list Z))
    : ReductionInfo :=
  match fams with
  | [] => r
  | (prod, rs) :: fams' => families_calls (family_calls r ix prod rs) (Datatypes.S ix) fams'
  end.

(** The total of each family that had a child, by family index. *)
Fixpoint family_totals (ix : nat) (fams : list (Production * list Z)) : list (nat * Z) :=
  match fams with
  | [] => []
  | (_, rs) :: fams' =>
      match rs with
      | [] => family_totals (Datatypes.S ix) fams'
      | _ :: _ => (ix, Zsum rs) :: family_totals (Datatypes.S ix) fams'
      end
  end.

(** A family that takes part in the choice at the node [d]: any family of
    a node that is not completed, and a family of the least priority
    number of a completed node. *)
Definition considered (d : NtInfo) (fams : list (Production * list Z))
    (fam : Production * list Z) : Prop :=
  is_completed d = true → Forall (λ f, priority fam.1 ≤ priority f.1) fams.

(** The score adjustment of the node: that of its nonterminal when the
    node is completed. *)
Definition node_adjustment (_nt_scores : gmap string Z) (d : NtInfo) : Z :=
  if is_completed d then default 0 (_nt_scores !! nonterminal d) else 0.

(** The entries are in the order of the family indices. *)
Fixpoint by_index (l : list (nat * Z)) : Prop :=
  match l with
  | [] => True
  | a :: l' => Forall (λ b, (a.1 < b.1)%nat) l' ∧ by_index l'
  end.

(** ** Steps that return *)

(** Every character of the string passes the test. *)
Fixpoint all_chars (P : ascii → bool) (s : string) : bool :=
  match s with
  | EmptyString => true
  | String c s' => P c && all_chars P s'
  end.

(** A terminal the scorer can read: its name is not empty, and a verb
    terminal has a first variant, which is not empty. *)
Definition readable (t : Terminal) : Prop :=
  name t ≠ EmptyString
  ∧ (first t = "so" → ∃ v0, variant t 0 = Some v0 ∧ v0 ≠ EmptyString).

(** A step on the scores that, started with the keys [K], raises nothing
    and keeps the keys. *)
Definition succeeds (K : gmap nat (list Terminal)) (m : M Scores unit) : Prop :=
  ∀ σ, keys_of σ = K → ∃ σ', m σ = Ok (tt, σ') ∧ keys_of σ' = K.

(** A step on [adj_worse] and [adj_better] that raises nothing and has
    terminals of [s] as keys. *)
Definition collects (s : list Terminal) (m : M AdjState unit) : Prop :=
  ∀ aw ab, dict_keys aw ⊆ s → dict_keys ab ⊆ s →
    ∃ aw' ab', m (aw, ab) = Ok (tt, (aw', ab'))
               ∧ dict_keys aw' ⊆ s ∧ dict_keys ab' ⊆ s.

(** ** The scores after the loop *)

(** What the loop body at [i] gives the candidate [u] at [i]: nothing
    when [u] is the one candidate, else what the preferences give, what
    the heuristics for [u] give, and -1 for each number terminal among the
    candidates when [u] is a noun or a number in the genitive. *)
Definition position_score (Preferences : string → option (list Pref))
    (VERBS_0 : gset string) (SCORES : gmap string Z)
    (finals : gmap nat (list Terminal)) (tokens : gmap nat Token)
    (w_start i : nat) (u : Terminal) : Z :=
  let s := finals_at finals i in
  if (length s <=? 1)%nat then 0
  else match tokens !! i with
       | Some tok =>
           pref_adjust Preferences s tok u
           + own_adjust VERBS_0 SCORES finals w_start i s tok u
           + (if is_ef_number u then - Z.of_nat (length (List.filter is_number s)) else 0)
       | None => 0
       end.

(** What the loop body at [i] adds to the terminal [u] at the position
    before, whose keys are [prev]: 2 to the first [nhm] key for each verb
    terminal in the infinitive at [i]. *)
Definition bonus_from (finals : gmap nat (list Terminal)) (prev : list Terminal)
    (i : nat) (u : Terminal) : Z :=
  let s := finals_at finals i in
  if (1 <? length s)%nat && nhm_before finals i
  then match List.find is_nhm prev with
       | Some pt => if decide (u = pt) then 2 else 0
       | None => 0
       end * Z.of_nat (length (List.filter is_infinitive_verb s))
  else 0.

(** What the loop body at the position [j + 1] adds to the terminal [u] at
    the position [j] of a forest that ends at [w_end]: 2 for each verb
    terminal in the infinitive at [j + 1], when that position is in the
    span and has more than one candidate and [u] is the first [nhm]
    terminal at [j]. *)
Definition marker_bonus (finals : gmap nat (list Terminal)) (w_end j : nat)
    (u : Terminal) : Z :=
  let next := finals_at finals (j + 1) in
  if (j + 1 <? w_end)%nat && (1 <? length next)%nat
     && bool_decide (List.find is_nhm (finals_at finals j) = Some u)
  then 2 * Z.of_nat (length (List.filter is_infinitive_verb next))
  else 0.

(** ** More sample inputs *)

Module Sample2.
(** A verb or a noun at the one position of a sentence. *)
Definition verb_finals : gmap nat (list Terminal) :=
  {[ 0%nat := [Sample.so_1; Sample.no_et] ]}.
Definition verb_tokens : gmap nat Token := {[ 0%nat := Sample.two_verbs ]}.

(** Three families of a completed node: the first has the greatest total
    and the worse priority, the other two have the same total. *)
Definition three_families : list (Production * list Z) :=
  [(mkProduction "S" 1, [10; 2]); (mkProduction "S" 0, [3; 4]);
   (mkProduction "S" 0, [-5; 12])].

(** An empty family of the better priority before a family with a child. *)
Definition empty_first : list (Production * list Z) :=
  [(mkProduction "S" 0, []); (mkProduction "S" 1, [5])].

(** A sentence of two positions, for its span. *)
Definition two_positions : Node := NonterminalNode (mkNtInfo 500 0 2 "S" true) [].
End Sample2.

(** ** The best tree of a forest *)

Global Instance considered_dec d fams fam : Decision (considered d fams fam).
Proof. unfold considered. apply _. Defined.

(** The greatest total among the considered families; 0 when there is no
    family. *)
Definition best_total (d : NtInfo) (fams : list (Production * list Z)) : Z :=
  match (λ fam, Zsum fam.2) <$> filter (considered d fams) fams with
  | [] => 0
  | z :: zs => foldr Z.max z zs
  end.

(** The family that is kept: the first of the considered families of the
    greatest total. *)
Definition kept (d : NtInfo) (fams : list (Production * list Z)) (ix : nat) : Prop :=
  ∃ prod rs,
    fams !! ix = Some (prod, rs)
    ∧ considered d fams (prod, rs)
    ∧ ∀ ix' fam', fams !! ix' = Some fam' → considered d fams fam' →
        Zsum fam'.2 ≤ Zsum rs ∧ (Zsum fam'.2 = Zsum rs → (ix ≤ ix')%nat).

Section best_tree.
Variable _nt_scores : gmap string Z.
Variable scores : Scores.

(** The score of the best tree under a node: the score of a token node;
    for a nonterminal node the greatest total, over its considered
    families, of the scores of the best trees under the children of the
    family, with the score adjustment of the node. *)
Fixpoint best_score (w : Node) : Z :=
  match w with
  | TokenNode d => default 0 (score_at scores (tk_start d) (terminal d))
  | NonterminalNode d fams =>
      best_total d
        (List.map (λ fam : Production * list (option Node),
           (fam.1, List.map (λ c, match c with
                                  | None => 0
                                  | Some n => best_score n
                                  end) fam.2)) fams)
      + node_adjustment _nt_scores d
  end.

(** The score of the best tree under a child: 0 for epsilon. *)
Definition child_best (c : option Node) : Z :=
  match c with
  | None => 0
  | Some n => best_score n
  end.

(** The families of a node with the scores of their children. *)
Definition results_of (fams : list (Production * list (option Node)))
    : list (Production * list Z) :=
  List.map (λ fam, (fam.1, List.map child_best fam.2)) fams.
End best_tree.

(** Every nonterminal node has a family, and every family a child. *)
Definition families_nonempty (w : Node) : Prop :=
  ∀ d fams, NonterminalNode d fams ∈ nodes w →
    fams ≠ [] ∧ Forall (λ fam, fam.2 ≠ []) fams.

(** The keys of a child and of the nodes under it. *)
Definition keys_under (c : option Node) : list (option nat) :=
  node_key c :: ((λ u, node_key (Some u)) <$> under nodes c).

(** The invariant of the reducing walk: a visited node has the score of
    its best tree as its stored result, the nodes under a visited node
    are visited, and the reductions made are those of the visited nodes
    of two families or more, once each, to the family that is kept. *)
Definition best_inv (_nt_scores : gmap string Z) (scores : Scores) (root : Node)
    (st : @NavState Reductions Z) : Prop :=
  (∀ u v, u ∈ nodes root → st.1 !! node_key (Some u) = Some v →
      v = best_score _nt_scores scores u)
  ∧ (∀ v, st.1 !! None = Some v → v = 0)
  ∧ (∀ u u', u ∈ nodes root → is_Some (st.1 !! node_key (Some u)) → u' ∈ nodes u →
      is_Some (st.1 !! node_key (Some u')))
  ∧ NoDup st.2.*1
  ∧ ∀ id ix, (id, ix) ∈ st.2 ↔
      ∃ d fams, NonterminalNode d fams ∈ nodes root ∧ nt_id d = id
        ∧ is_Some (st.1 !! Some id) ∧ (2 ≤ length fams)%nat
        ∧ kept d (results_of _nt_scores scores fams) ix.

(** A step of the reducing walk that visits the children [cs]: it yields
    the scores of their best trees, keeps the invariant, and visits them
    and nodes under them, and epsilon, no other. *)
Definition walks {A} (_nt_scores : gmap string Z) (scores : Scores) (root : Node)
    (m : M (@NavState Reductions Z) A) (a : A) (cs : list (option Node)) : Prop :=
  ∀ st, best_inv _nt_scores scores root st →
    ∃ st', m st = Ok (a, st')
      ∧ best_inv _nt_scores scores root st'
      ∧ (∀ k, is_Some (st.1 !! k) → is_Some (st'.1 !! k))
      ∧ (∀ k, is_Some (st'.1 !! k) →
           is_Some (st.1 !! k) ∨ k = None ∨ ∃ c, c ∈ cs ∧ k ∈ keys_under c)
      ∧ (∀ c, c ∈ cs → is_Some (st'.1 !! node_key c))
      ∧ (∀ x, x ∈ st.2 → x ∈ st'.2).

(** * The BÍN database: a shallow embedding of [bindb.py]

    [BIN_Db.meanings] reads the meanings of a word form from the database
    through a cache of at most [CACHE_SIZE] entries; [BIN_Db.lookup_word]
    tries in turn the word, its lowercase form, the abbreviations, the
    adjective endings, the compound words and the prefix ó.

    The lists of meanings are Python objects that the cache and its callers
    share: they live in a heap, and a value of the program is a reference
    into it.  The database, the tables of [settings.py] and the word base
    are parameters.  Messages printed are left out. *)

Module BinDb.

(** ** Python strings, by code point *)

(** A Python string is a sequence of code points; here it is its UTF-8
    encoding, as the literals of the source are.  The tests [in],
    [startswith], [endswith] and [==] are the same on the encodings; the
    positions of [s[0]], [s[1:]] and [s[:-1]] count code points, which
    take a first byte and the continuation bytes after it. *)
Definition is_continuation (c : ascii) : bool :=
  let n := nat_of_ascii c in (128 <=? n)%nat && (n <? 192)%nat.

Fixpoint drop_continuation (s : string) : string :=
  match s with
  | EmptyString => EmptyString
  | String c s' => if is_continuation c then drop_continuation s' else s
  end.

(** [s[1:]]: all but the first code point. *)
Definition str_tail (s : string) : string :=
  match s with
  | EmptyString => EmptyString
  | String _ s' => drop_continuation s'
  end.

(** [s[:-1]]: all but the last code point. *)
Fixpoint str_init (s : string) : string :=
  match s with
  | EmptyString => EmptyString
  | String c s' => if all_chars is_continuation s' then EmptyString else String c (str_init s')
  end.

(** [s[1:-1]] *)
Definition str_strip (s : string) : string := str_init (str_tail s).

(** [s.endswith(suffix)] *)
Fixpoint str_ends_with (s suffix : string) : bool :=
  String.eqb s suffix ||
  match s with
  | EmptyString => false
  | String _ s' => str_ends_with s' suffix
  end.

(** [sep.join(l)] *)
Fixpoint str_join (sep : string) (l : list string) : string :=
  match l with
  | [] => EmptyString
  | [x] => x
  | x :: l' => (x ++ sep ++ str_join sep l')%string
  end.

(** ** Exceptions, the store and its monad *)

(** The exceptions of [bindb.py]: those of Python the reducer knows, the
    failed [assert], and [DatabaseError] for any exception of the database
    connector that [meanings] does not catch. *)
Inductive error := PyError (e : exn) | AssertionError | DatabaseError.

Inductive outcome (A : Type) :=
| Done (a : A)
| Fails (e : error).
Arguments Done {A} a.
Arguments Fails {A} e.

(** What [execute] and [fetchall] do for a query: rows, the answer [None]
    of [fetchall], a [DataError] or [ProgrammingError], which [meanings]
    catches, or another exception. *)
Inductive db_answer :=
| Rows (g : list BIN_Meaning)
| NoRows
| BadQuery
| Broken.

(** A value [m] of the program: [None] or a list object. *)
Definition value : Type := option nat.

(** The store: whether the cursor [self._c] is there; the list objects by
    reference, and the next free reference; the cache of [meanings], the
    entry used last first; the words queried in the database, the latest
    last. *)
Record DbState := mkDbState {
  connected : bool;
  heap : gmap nat (list BIN_Meaning);
  next : nat;
  cache : list (string * value);
  queries : list string
}.

Definition DB (A : Type) : Type := DbState → outcome (A * DbState).

Definition db_ret {A} (a : A) : DB A := λ σ, Done (a, σ).

Definition db_bind {A B} (m : DB A) (f : A → DB B) : DB B :=
  λ σ, match m σ with
       | Done (a, σ') => f a σ'
       | Fails e => Fails e
       end.

Definition db_fail {A} (e : error) : DB A := λ _, Fails e.

Declare Scope db_scope.
Delimit Scope db_scope with db.
Notation "'let*' x ':=' c1 'in' c2" := (db_bind c1 (λ x, c2))
  (at level 10, x name, c1 at level 100, c2 at level 200) : db_scope.
Notation "'exec' c1 'in' c2" := (db_bind c1 (λ _, c2))
  (at level 10, c1 at level 100, c2 at level 200) : db_scope.
Local Open Scope db_scope.

(** A new list object. *)
Definition alloc (l : list BIN_Meaning) : DB nat :=
  λ σ, Done (next σ,
             mkDbState (connected σ) (<[next σ := l]> (heap σ)) (Datatypes.S (next σ))
                       (cache σ) (queries σ)).

(** The list a reference stands for. *)
Definition list_of (σ : DbState) (r : nat) : list BIN_Meaning :=
  default [] (heap σ !! r).

Definition read (r : nat) : DB (list BIN_Meaning) := λ σ, Done (list_of σ r, σ).

(** [m.append(x)] and [m.extend(l)]: the object changes in place. *)
Definition extend (r : nat) (l : list BIN_Meaning) : DB unit :=
  λ σ, Done (tt, mkDbState (connected σ) (<[r := list_of σ r ++ l]> (heap σ)) (next σ)
                           (cache σ) (queries σ)).

(** The test [if m]: neither [None] nor an empty list. *)
Definition truthy (σ : DbState) (m : value) : bool :=
  match m with
  | None => false
  | Some r => match list_of σ r with [] => false | _ :: _ => true end
  end.

Definition is_truthy (m : value) : DB bool := λ σ, Done (truthy σ m, σ).

(** [w[0]], which raises [IndexError] on the empty string. *)
Definition first_char (w : string) : DB ascii :=
  match w with
  | EmptyString => db_fail (PyError IndexError)
  | String c _ => db_ret c
  end.

(** [w[0] == '['] *)
Definition starts_with_bracket (w : string) : DB bool :=
  let* c := first_char w in db_ret (Ascii.eqb c "["%char).

(** [CACHE_SIZE] *)
Definition CACHE_SIZE : nat := 512.

(** [ADJECTIVE_TEST] *)
Definition ADJECTIVE_TEST : string := "leg".

Section bin_db.
(** [str.lower]; the database; [Meanings.DICT], [Abbreviations.DICT] and
    [AdjectiveTemplate.ENDINGS] of [settings.py], their tuples made into
    meanings; [Wordbase.dawg().slice_compound_word], the empty list for a
    word that is no compound. *)
Variable str_lower : string → string.
Variable db : string → db_answer.
Variable Meanings_DICT : string → option (list BIN_Meaning).
Variable Abbreviations_DICT : string → option BIN_Meaning.
Variable ENDINGS : list (string * string).
Variable slice_compound_word : string → list string.

(** The body of [BIN_Db.meanings], lines 107-125. *)
Definition meanings_body (w : string) : DB value :=
  λ σ,
    if negb (connected σ) then Fails AssertionError
    else
      let σ := mkDbState (connected σ) (heap σ) (next σ) (cache σ) (queries σ ++ [w]) in
      match db w with
      | Broken => Fails DatabaseError
      | BadQuery => Done (None, σ)
      | NoRows => Done (None, σ)
      | Rows g =>
          (let* m := alloc g in
           exec match Meanings_DICT w with
                | Some more => extend m more
                | None => db_ret tt
                end in
           db_ret (Some m)) σ
      end.

(** [lru_cache(maxsize = CACHE_SIZE)] around the body, for the one
    instance of [BIN_Db] at hand: a word in the cache yields the stored
    value, the same object, and becomes the entry used last; otherwise the
    body runs, and its value is stored, in place of the entry used least
    recently when the cache is full.  An exception stores nothing. *)
Definition meanings (w : string) : DB value :=
  λ σ,
    match dict_get (cache σ) w with
    | Some m =>
        Done (m, mkDbState (connected σ) (heap σ) (next σ)
                   ((w, m) :: List.filter (λ e, negb (String.eqb e.1 w)) (cache σ))
                   (queries σ))
    | None =>
        match meanings_body w σ with
        | Done (m, σ') =>
            Done (m, mkDbState (connected σ') (heap σ') (next σ')
                       (take CACHE_SIZE ((w, m) :: cache σ')) (queries σ'))
        | Fails e => Fails e
        end
    end.

(** [lookup_abbreviation], lines 130-136. *)
Definition lookup_abbreviation (w : string) : DB value :=
  let* bracket := starts_with_bracket w in
  let clean_w := if bracket : bool then str_strip w else w in
  match Abbreviations_DICT clean_w with
  | None => db_ret None
  | Some m => let* r := alloc [m] in db_ret (Some r)
  end.

(** Lines 145-150: the lowercase form, when it differs. *)
Definition try_lowercase (w lower_w : string) (m : value) : DB value :=
  if negb (String.eqb lower_w w) then
    let* t := is_truthy m in
    if negb t then meanings lower_w
    else
      let* more := meanings lower_w in
      match m, more with
      | Some r, Some r' => let* l := read r' in exec extend r l in db_ret m
      | _, _ => db_fail (PyError TypeError)
      end
  else db_ret m.

(** Lines 152-161: the abbreviations; the word loses its brackets when an
    abbreviation is found. *)
Definition try_abbreviation (w lower_w : string) (m : value) : DB (string * value) :=
  let* t := is_truthy m in
  let* go :=
    if negb t then
      if negb (String.eqb lower_w w) then db_ret true else starts_with_bracket w
    else db_ret false in
  if go : bool then
    let* m := lookup_abbreviation w in
    let* t := is_truthy m in
    let* m :=
      if negb t then
        let* bracket := starts_with_bracket w in
        if bracket : bool then lookup_abbreviation lower_w else db_ret m
      else db_ret m in
    let* t := is_truthy m in
    let* w :=
      if t : bool then
        let* bracket := starts_with_bracket w in
        db_ret (if bracket : bool then str_strip w else w)
      else db_ret w in
    db_ret (w, m)
  else db_ret (w, m).

(** Lines 167-172: one ending of the adjective template. *)
Definition try_ending (lower_w : string) (m : value) (e : string * string) : DB value :=
  let '(aend, beyging) := e in
  if str_ends_with lower_w aend && (String.length aend <? String.length lower_w)%nat then
    let prefix := String.substring 0 (String.length lower_w - String.length aend) lower_w in
    let* r := match m with
              | None => alloc []
              | Some r => db_ret r
              end in
    exec extend r [mkMeaning (prefix ++ "legur") 0 "lo" "alm" lower_w beyging] in
    db_ret (Some r)
  else db_ret m.

Fixpoint try_endings (lower_w : string) (m : value) (es : list (string * string))
    : DB value :=
  match es with
  | [] => db_ret m
  | e :: es' => let* m := try_ending lower_w m e in try_endings lower_w m es'
  end.

(** Lines 163-172: the adjectives in -legur. *)
Definition try_adjective (lower_w : string) (m : value) : DB value :=
  let* t := is_truthy m in
  if negb t && str_in ADJECTIVE_TEST lower_w then try_endings lower_w m ENDINGS
  else db_ret m.

(** Lines 174-184: a compound word has the meanings of its last part. *)
Definition try_compound (lower_w : string) (m : value) : DB value :=
  let* t := is_truthy m in
  if negb t then
    let cw := slice_compound_word lower_w in
    match cw with
    | [] => db_ret m
    | _ :: _ =>
        let prefix := str_join "-" (removelast cw) in
        let* m := meanings (List.last cw EmptyString) in
        match m with
        | None => db_fail (PyError TypeError)
        | Some r =>
            let* l := read r in
            let* r' := alloc (List.map (λ r, mkMeaning (prefix ++ "-" ++ stofn r) (utg r)
                                               (ordfl r) (fl r)
                                               (prefix ++ "-" ++ ordmynd r) (beyging r)) l) in
            db_ret (Some r')
        end
    end
  else db_ret m.

(** Lines 186-195: an adjective with the prefix ó. *)
Definition try_negation (lower_w : string) (m : value) : DB value :=
  let* t := is_truthy m in
  if negb t && String.prefix "ó" lower_w then
    let suffix := str_tail lower_w in
    match suffix with
    | EmptyString => db_ret m
    | String _ _ =>
        let* om := meanings suffix in
        let* t := is_truthy om in
        match om with
        | Some r =>
            if t : bool then
              let* l := read r in
              let* r' := alloc (List.map (λ r, mkMeaning ("ó" ++ stofn r) (utg r) (ordfl r)
                                                 (fl r) ("ó" ++ ordmynd r) (beyging r))
                                  (List.filter (λ r, String.eqb (ordfl r) "lo") l)) in
              db_ret (Some r')
            else db_ret m
        | None => db_ret m
        end
    end
  else db_ret m.

(** [BIN_Db.lookup_word] *)
Definition lookup_word (w : string) (at_sentence_start : bool) : DB (string * value) :=
  let* m := meanings w in
  let* t := is_truthy m in
  if at_sentence_start || negb t then
    let lower_w := str_lower w in
    let* m := try_lowercase w lower_w m in
    let* wm := try_abbreviation w lower_w m in
    let* m := try_adjective lower_w wm.2 in
    let* m := try_compound lower_w m in
    let* m := try_negation lower_w m in
    db_ret (wm.1, m)
  else db_ret (w, m).
End bin_db.
End BinDb.

(** The cache holds a word once and [CACHE_SIZE] entries at most. *)
Definition cache_ok (σ : BinDb.DbState) : Prop :=
  NoDup (dict_keys (BinDb.cache σ)) ∧ (length (BinDb.cache σ) ≤ BinDb.CACHE_SIZE)%nat.

(** ** A sample database *)

Module DbSample.
(** The pronoun hann, which a sentence may begin with, and a name. *)
Definition hann_pfn : BIN_Meaning := mkMeaning "hann" 403780 "pfn" "alm" "hann" "KK-NFET".
Definition hann_thf : BIN_Meaning := mkMeaning "hann" 403780 "pfn" "alm" "hann" "KK-ÞFET".
Definition Hann_name : BIN_Meaning := mkMeaning "Hann" 1 "kk" "ism" "Hann" "NFET".

(** The database knows these two word forms, and refuses the query for
    one word. *)
Definition db (w : string) : BinDb.db_answer :=
  if String.eqb w "Hann" then BinDb.Rows [Hann_name]
  else if String.eqb w "hann" then BinDb.Rows [hann_pfn; hann_thf]
  else if String.eqb w "%" then BinDb.BadQuery
  else BinDb.Rows [].

(** A database that refuses every query but the one for the name. *)
Definition db_refusing (w : string) : BinDb.db_answer :=
  if String.eqb w "Hann" then BinDb.Rows [Hann_name] else BinDb.BadQuery.

Definition lower (w : string) : string :=
  if String.eqb w "Hann" then "hann" else w.

Definition no_meanings (w : string) : option (list BIN_Meaning) := None.
Definition no_abbreviations (w : string) : option BIN_Meaning := None.
Definition no_compounds (w : string) : list string := [].

(** One abbreviation, hf. for hlutafélag. *)
Definition hf : BIN_Meaning := mkMeaning "hlutafélag" 0 "hk" "skst" "hf." "-".
Definition abbreviations (w : string) : option BIN_Meaning :=
  if String.eqb w "hf." then Some hf else None.

(** A connection with nothing looked up yet. *)
Definition fresh : BinDb.DbState := BinDb.mkDbState true ∅ 0 [] [].
End DbSample.

(** * Properties *)

(** ** The monad *)

Lemma bind_Ok {S A B} (m : M S A) (f : A → M S B) σ b σ' :
  bind m f σ = Ok (b, σ') ↔ ∃ a σ1, m σ = Ok (a, σ1) ∧ f a σ1 = Ok (b, σ').
Proof.
  unfold bind. destruct (m σ) as [[a σ1]|e]; split.
  - eauto.
  - intros (? & ? & [= <- <-] & ?); done.
  - done.
  - intros (? & ? & ? & ?); done.
Qed.

Lemma or_raise_Ok {S A} (o : option A) e (σ σ' : S) a :
  or_raise o e σ = Ok (a, σ') ↔ o = Some a ∧ σ' = σ.
Proof. destruct o; unfold or_raise, ret, raise; naive_solver. Qed.

Lemma ret_Ok {S A} (a b : A) (σ σ' : S) : ret a σ = Ok (b, σ') ↔ b = a ∧ σ' = σ.
Proof. unfold ret; naive_solver. Qed.

Lemma modify_Ok {S} (f : S → S) u σ σ' : modify f σ = Ok (u, σ') ↔ σ' = f σ.
Proof. unfold modify; destruct u; naive_solver. Qed.

Lemma get_state_Ok {S} (a σ σ' : S) : get_state σ = Ok (a, σ') ↔ a = σ ∧ σ' = σ.
Proof. unfold get_state; naive_solver. Qed.

(** Invert a run that ended well, one step at a time. *)
Ltac inv_run H :=
  repeat match type of H with
  | bind _ _ _ = Ok _ =>
      let a := fresh "a" in let σ := fresh "σ" in let H1 := fresh "Hrun" in
      apply bind_Ok in H as (a & σ & H1 & H); try inv_run H1
  | or_raise _ _ _ = Ok _ =>
      let H1 := fresh "Hst" in apply or_raise_Ok in H as [H H1]; try subst
  | ret _ _ = Ok _ =>
      let H1 := fresh "Hst" in apply ret_Ok in H as [H H1]; simplify_eq
  | modify _ _ = Ok _ => apply modify_Ok in H; try subst
  | get_state _ = Ok _ =>
      let H1 := fresh "Hst" in apply get_state_Ok in H as [H H1]; try subst
  | raise _ _ = Ok _ => discriminate H
  | Raise _ = Ok _ => discriminate H
  | Ok _ = Ok _ => injection H as H
  end.

(** ** Dictionaries *)

Section dict_facts.
Context {K V : Type} `{EqDecision K}.
Implicit Types (d : list (K * V)) (k : K) (v : V).

Lemma dict_get_None d k : dict_get d k = None ↔ k ∉ dict_keys d.
Proof.
  unfold dict_keys. induction d as [|[k' v'] d IH]; simpl.
  - split; [intros _; apply not_elem_of_nil | done].
  - rewrite not_elem_of_cons. case_decide; naive_solver.
Qed.

Lemma dict_get_is_Some d k : is_Some (dict_get d k) ↔ k ∈ dict_keys d.
Proof.
  rewrite <- not_eq_None_Some, dict_get_None.
  split; [apply dec_stable | naive_solver].
Qed.

Lemma dict_get_set d k v k' :
  dict_get (dict_set d k v) k' = if decide (k = k') then Some v else dict_get d k'.
Proof.
  induction d as [|[k0 v0] d IH]; simpl; repeat (case_decide; simpl); congruence.
Qed.

Lemma dict_keys_set_in d k v :
  k ∈ dict_keys d → dict_keys (dict_set d k v) = dict_keys d.
Proof.
  unfold dict_keys. induction d as [|[k0 v0] d IH]; simpl.
  - intros ?%elem_of_nil; done.
  - intros [->|?]%elem_of_cons; case_decide; simpl; try done.
    f_equal; auto.
Qed.

Lemma dict_keys_set_notin d k v :
  k ∉ dict_keys d → dict_keys (dict_set d k v) = dict_keys d ++ [k].
Proof.
  unfold dict_keys. induction d as [|[k0 v0] d IH]; simpl; [done|].
  intros [? ?]%not_elem_of_cons. case_decide; [congruence|].
  simpl. f_equal; auto.
Qed.

Lemma dict_get_elem d k v : dict_get d k = Some v → (k, v) ∈ d.
Proof.
  induction d as [|[k0 v0] d IH]; simpl; [done|].
  case_decide; [intros [= ->]; subst; left | right; auto].
Qed.

Lemma dict_elem_get d k v : NoDup (dict_keys d) → (k, v) ∈ d → dict_get d k = Some v.
Proof.
  unfold dict_keys. induction d as [|[k0 v0] d IH]; simpl.
  - intros _ ?%elem_of_nil; done.
  - intros [Hk Hd]%NoDup_cons [[= <- <-]|Hin]%elem_of_cons.
    + by rewrite decide_True.
    + rewrite decide_False; [auto|].
      intros ->. apply Hk. apply list_elem_of_fmap. by exists (k, v).
Qed.
End dict_facts.

(** ** The absent forest *)

(** C8: for an absent forest, [go_with_score] yields no tree and the score
    0, and [go] yields no tree, whatever the scoring and the reducing
    passes would do, even if they raised: none of them runs, and nothing
    is raised. *)
Theorem C8_absent_forest :
  (∀ calc reduce, go_with_score_of calc reduce None = Ok (None, 0)
                  ∧ go_of calc reduce None = Ok None)
  ∧ (∀ Preferences VERBS_0 SCORES nt_scores,
       go_with_score Preferences VERBS_0 SCORES nt_scores None = Ok (None, 0)
       ∧ go Preferences VERBS_0 SCORES nt_scores None = Ok None).
Proof. split; intros; split; reflexivity. Qed.

(** ** The verb-case score *)

Lemma verb_case_score_entries SCORES t ms :
  verb_case_score SCORES t ms = default 0 (head (verb_case_entries SCORES t ms)).
Proof.
  unfold verb_case_entries. induction ms as [|m ms IH]; simpl; [done|].
  destruct (is_verb m); [|done].
  by destruct (SCORES !! _).
Qed.

(** C3: on a token with two verb meanings whose entries in the verb-case
    score table are 1 and 5, the reducer adds the first entry found, 1, to
    the score of the verb terminal, which ends at 2*1 + 1 = 3; the maximum
    of the entries is 5. *)
Theorem C3_first_entry_not_maximum :
  verb_case_score Sample.verb_scores Sample.so_1 (t2 Sample.two_verbs) = 1
  ∧ spec_verb_case_max Sample.verb_scores Sample.so_1 (t2 Sample.two_verbs) = 5
  ∧ (∃ scores,
       _calc_terminal_scores Sample.no_prefs ∅ Sample.verb_scores Sample.verb_or_noun
         = Ok scores
       ∧ score_at scores 0 Sample.so_1 = Some 3).
Proof.
  split; [|split].
  - vm_compute. reflexivity.
  - vm_compute. reflexivity.
  - eexists. split; vm_compute; reflexivity.
Qed.

(** ** The priority pool of a nonterminal node *)

Lemma insert_desc_elem x y l : y ∈ insert_desc x l ↔ y = x ∨ y ∈ l.
Proof.
  induction l as [|z l IH]; simpl.
  - rewrite list_elem_of_singleton, elem_of_nil. tauto.
  - destruct (x.2 <? z.2); rewrite !elem_of_cons, ?IH; tauto.
Qed.

Lemma sorted_desc_elem y l : y ∈ sorted_desc l ↔ y ∈ l.
Proof.
  unfold sorted_desc. induction l as [|x l IH]; simpl; [done|].
  rewrite insert_desc_elem, IH, elem_of_cons. tauto.
Qed.

(** What the priority pool holds once the families of the priorities [ps],
    numbered from 0, went through [add_child_production]. *)
Definition pool_of (ps : list Z) (r : ReductionInfo) : Prop :=
  match highest_prio r with
  | None => ps = [] ∧ use_prio r = false
  | Some m =>
      m ∈ ps ∧ Forall (Z.le m) ps
      ∧ (∃ hs, highest_ix r = Some hs ∧ ∀ j, j ∈ hs ↔ ps !! j = Some m)
      ∧ (use_prio r = true ↔ ∃ p, p ∈ ps ∧ p ≠ m)
  end.

Lemma pool_of_add_child_production ps r prod :
  is_Some (nt r) →
  pool_of ps r →
  pool_of (ps ++ [priority prod]) (add_child_production r (length ps) prod).
Proof.
  intros [n Hn] Hpool. unfold add_child_production, pool_of in *. rewrite Hn.
  destruct (highest_prio r) as [hp|] eqn:Hhp; simpl.
  - destruct Hpool as (Hin & Hle & (hs & Hhs & Hix) & Huse).
    destruct (priority prod <? hp) eqn:Hlt; simpl.
    + apply Z.ltb_lt in Hlt. split; [set_solver|]. split.
      { apply Forall_app. split; [|by apply Forall_singleton].
        eapply Forall_impl; [done|]. simpl. lia. }
      split.
      { eexists; split; [done|]. intros j.
        rewrite list_elem_of_singleton. split.
        - intros ->. by rewrite lookup_app_r, Nat.sub_diag.
        - intros Hj. destruct (decide (j < length ps)%nat) as [Hlen|Hlen].
          + rewrite lookup_app_l in Hj by done.
            apply list_elem_of_lookup_2 in Hj.
            rewrite Forall_forall in Hle. apply Hle in Hj. lia.
          + apply lookup_lt_Some in Hj. rewrite length_app in Hj. simpl in Hj. lia. }
      destruct (priority prod =? hp) eqn:Heq; [apply Z.eqb_eq in Heq; lia|].
      split; [intros _|done]. exists hp. split; [set_solver|lia].
    + apply Z.ltb_ge in Hlt. case_bool_decide as Heq; simpl.
      * injection Heq as Heq. rewrite Heq, Z.eqb_refl.
        split; [set_solver|]. split.
        { apply Forall_app. split; [done|]. apply Forall_singleton. lia. }
        split.
        { rewrite Hhs. eexists; split; [done|]. intros j.
          unfold set_add. case_bool_decide as Hmem.
          - apply Hix, lookup_lt_Some in Hmem. lia.
          - rewrite elem_of_app, list_elem_of_singleton, Hix. split.
            + intros [Hj| ->].
              * by apply lookup_app_l_Some.
              * by rewrite lookup_app_r, Nat.sub_diag.
            + intros Hj. destruct (decide (j < length ps)%nat) as [Hlen|Hlen].
              * left. by rewrite lookup_app_l in Hj.
              * right. apply lookup_lt_Some in Hj.
                rewrite length_app in Hj. simpl in Hj. lia. }
        rewrite Huse. split; intros (p & Hp & Hne); exists p.
        -- split; [set_solver|done].
        -- apply elem_of_app in Hp as [Hp|Hp%list_elem_of_singleton]; [done|congruence].
      * assert (priority prod ≠ hp) as Hne by congruence.
        destruct (priority prod =? hp) eqn:Heq'; [apply Z.eqb_eq in Heq'; done|].
        split; [set_solver|]. split.
        { apply Forall_app. split; [done|]. apply Forall_singleton. lia. }
        split.
        { exists hs. split; [done|]. intros j. rewrite Hix. split.
          - by apply lookup_app_l_Some.
          - intros Hj. destruct (decide (j < length ps)%nat) as [Hlen|Hlen].
            + by rewrite lookup_app_l in Hj.
            + apply lookup_lt_Some in Hj as Hj'.
              rewrite length_app in Hj'. simpl in Hj'.
              replace j with (length ps) in Hj by lia.
              rewrite lookup_app_r, Nat.sub_diag in Hj by done. naive_solver. }
        split; [intros _|done]. exists (priority prod). split; [set_solver|done].
  - destruct Hpool as [-> Huse]. simpl. split; [set_solver|].
    split; [by apply Forall_singleton|]. split.
    + eexists; split; [done|]. intros j. rewrite list_elem_of_singleton.
      destruct j; simpl; naive_solver.
    + rewrite Huse. split; [done|]. intros (p & ->%list_elem_of_singleton & ?). done.
Qed.

Lemma lift_hook_Ok {S R A} (m : M S A) (st st' : gmap (option nat) R * S) a :
  lift_hook m st = Ok (a, st') ↔ st'.1 = st.1 ∧ m st.2 = Ok (a, st'.2).
Proof.
  destruct st as [v σ], st' as [v' σ']. unfold lift_hook. simpl.
  destruct (m σ) as [[a1 σ1]|e]; naive_solver.
Qed.

Lemma visit_all_length {S R} (visit : option Node → M S R) cs σ rs σ' :
  visit_all visit cs σ = Ok (rs, σ') → length rs = length cs.
Proof.
  revert σ rs. induction cs as [|c cs IH]; simpl; intros σ rs Hrun.
  - inv_run Hrun. done.
  - inv_run Hrun. simpl. f_equal. eauto.
Qed.

Lemma add_child_production_fields r ix prod :
  nt (add_child_production r ix prod) = nt r
  ∧ sc (add_child_production r ix prod) = sc r.
Proof.
  unfold add_child_production. destruct (nt r) eqn:Hnt; [|done].
  repeat case_match; simpl; done.
Qed.

Lemma foldl_add_child_score r ix rs :
  let r' := foldl (λ r s, add_child_score r ix s) r rs in
  nt r' = nt r ∧ highest_prio r' = highest_prio r ∧ use_prio r' = use_prio r
  ∧ highest_ix r' = highest_ix r
  ∧ (∀ j, dict_get (sc r') j =
          if decide (j = ix ∧ rs ≠ [])
          then Some (default 0 (dict_get (sc r) ix) + Zsum rs)
          else dict_get (sc r) j)
  ∧ dict_keys (sc r') =
      if decide (rs = [] ∨ ix ∈ dict_keys (sc r))
      then dict_keys (sc r) else dict_keys (sc r) ++ [ix].
Proof.
  revert r. induction rs as [|s rs IH]; intros r; simpl.
  - repeat split; try done.
    intros j. rewrite decide_False by naive_solver. done.
  - destruct (IH (add_child_score r ix s)) as (-> & -> & -> & -> & Hget & Hkeys).
    repeat split; try done.
    + intros j. rewrite Hget. simpl. rewrite !dict_get_set.
      destruct rs; simpl; repeat case_decide; simplify_eq/=;
        try done; try (f_equal; lia); naive_solver.
    + rewrite Hkeys. simpl.
      destruct (decide (ix ∈ dict_keys (sc r))) as [Hin|Hnin].
      * rewrite dict_keys_set_in by done.
        rewrite !decide_True by auto. done.
      * rewrite dict_keys_set_notin by done.
        rewrite decide_True by (right; set_solver).
        rewrite decide_False; [done|]. intros [?|?]; done.
Qed.

Section reducer_loops.
Variable nt_scores : gmap string Z.
Variable scores : Scores.
Variable visit : option Node → M (@NavState Reductions Z) Z.
Let PFR := ParseForestReducer nt_scores scores.

(** The children of a family add their scores to the entry of the family. *)
Lemma each_child_reducer ix cs results σ results' σ' :
  each_child PFR visit ix cs results σ = Ok (results', σ') ↔
  ∃ rs, visit_all visit cs σ = Ok (rs, σ')
  ∧ results' = foldl (λ r s, add_child_score r ix s) results rs.
Proof.
  revert results results' σ. induction cs as [|c cs IH]; simpl; intros results results' σ.
  - split.
    + intros Hrun. inv_run Hrun. exists []. done.
    + intros (rs & Hrun & ->). inv_run Hrun. done.
  - split.
    + intros Hrun. inv_run Hrun.
      apply lift_hook_Ok in Hrun1 as [Hv Hrun1]. simpl in Hrun1.
      inv_run Hrun1. apply IH in Hrun as (rs & Hrs & ->).
      exists (a :: rs). split; [|done].
      apply bind_Ok. exists a, σ0. split; [done|].
      apply bind_Ok. exists rs, σ'. split; [|done].
      destruct σ0, σ1; simpl in *; by subst.
    + intros (rs & Hrun & ->). inv_run Hrun. simpl.
      apply bind_Ok. exists a, σ0. split; [done|].
      apply bind_Ok. eexists _, σ0. split.
      { apply lift_hook_Ok. simpl. done. }
      apply IH. eauto.
Qed.

Lemma each_family_reducer d fams : ∀ ps results σ results' σ',
  each_family PFR visit d (length ps) fams results σ = Ok (results', σ') →
  is_Some (nt results) →
  pool_of ps results →
  dict_keys (sc results) = seq 0 (length ps) →
  Forall (λ fam, fam.2 ≠ []) fams →
  pool_of (ps ++ ((λ fam, priority fam.1) <$> fams)) results'
  ∧ dict_keys (sc results') = seq 0 (length ps + length fams)
  ∧ nt results' = nt results.
Proof.
  induction fams as [|[prod children] fams IH];
    intros ps results σ results' σ' Hrun Hnt Hpool Hkeys Hne; simpl in *.
  - inv_run Hrun. rewrite app_nil_r, Nat.add_0_r. done.
  - inv_run Hrun. apply Forall_cons in Hne as [Hchildren Hne]. simpl in Hchildren.
    apply lift_hook_Ok in Hrun0 as [Hv Hrun0]. simpl in Hrun0. inv_run Hrun0.
    apply each_child_reducer in Hrun1 as (rs & Hrs & ->).
    apply visit_all_length in Hrs.
    destruct (add_child_production_fields results (length ps) prod) as [Hnt1 Hsc1].
    destruct (foldl_add_child_score (add_child_production results (length ps) prod)
      (length ps) rs) as (Hnt2 & Hhp & Hup & Hhi & _ & Hkeys2).
    set (r2 := foldl _ _ rs) in *.
    assert (Hpool2 : pool_of (ps ++ [priority prod]) r2).
    { pose proof (pool_of_add_child_production ps results prod Hnt Hpool) as Hp.
      unfold pool_of in *. rewrite Hhp, Hup, Hhi. done. }
    assert (Hkeys2' : dict_keys (sc r2) = seq 0 (length (ps ++ [priority prod]))).
    { rewrite Hkeys2, Hsc1, Hkeys. rewrite decide_False.
      - rewrite length_app. simpl. rewrite Nat.add_1_r, seq_S. done.
      - intros [->|Hin]; [destruct children; done|].
        apply elem_of_seq in Hin. lia. }
    replace (Datatypes.S (length ps)) with (length (ps ++ [priority prod])) in Hrun
      by (rewrite length_app; simpl; lia).
    eapply IH in Hrun as (Hp & Hk & Hn); try done.
    + rewrite <- app_assoc in Hp. simpl in Hp. split; [done|].
      rewrite Hk, length_app. simpl. split; [f_equal; lia|].
      rewrite Hn, Hnt2, Hnt1. done.
    + rewrite Hnt2, Hnt1. done.
Qed.
End reducer_loops.

Lemma nav_node_unvisited {S R Acc} (nav : Navigator S R Acc) d fams (st : NavState) :
  st.1 !! Some (nt_id d) = None →
  nav_node nav (NonterminalNode d fams) st =
    (let* v := (let* results := lift_hook (_visit_nonterminal nav d) in
                let* results := each_family nav (_nav_helper nav) d 0 fams results in
                lift_hook (_process_results nav results d)) in
     exec memo_store (Some (nt_id d)) v in ret v) st.
Proof.
  intros Hnew. destruct st as [visited σ]. simpl in *.
  unfold memoized, bind at 1, memo_lookup. simpl. rewrite Hnew. reflexivity.
Qed.

(** C1: take a completed nonterminal node, not visited yet, whose families,
    each with a child at least, differ in the priority of their
    productions.  Once the walk has been through the families, whatever the
    scores of the children are, the node is reduced to a family [ix] whose
    production has the least priority number among the families of the
    node: the walk of the node returns with the call [reduce_to(ix)] as
    its last reduction. *)
Theorem C1_priority_dominance nt_scores scores d fams
    (st st1 : NavState) (results : ReductionInfo) :
  let PFR := ParseForestReducer nt_scores scores in
  is_completed d = true →
  Forall (λ fam, fam.2 ≠ []) fams →
  (∃ f1 f2, f1 ∈ fams ∧ f2 ∈ fams ∧ priority f1.1 ≠ priority f2.1) →
  st.1 !! Some (nt_id d) = None →
  each_family PFR (_nav_helper PFR) d 0 fams (new_ReductionInfo d) st = Ok (results, st1) →
  ∃ ix prod children score,
    nav_node PFR (NonterminalNode d fams) st =
      Ok (score, (<[Some (nt_id d) := score]> st1.1, st1.2 ++ [(nt_id d, ix)]))
    ∧ fams !! ix = Some (prod, children)
    ∧ Forall (λ fam, priority prod ≤ priority fam.1) fams.
Proof.
  intros PFR Hcompleted Hne (f1 & f2 & Hf1 & Hf2 & Hdiff) Hnew Hrun.
  assert (Hnt0 : is_Some (nt (new_ReductionInfo d))).
  { simpl. rewrite Hcompleted. eauto. }
  apply (each_family_reducer nt_scores scores (_nav_helper PFR) d fams []) in Hrun
    as Hinv; [|done|done|done|done].
  destruct Hinv as (Hpool & Hkeys & Hnt). simpl in Hpool, Hkeys, Hnt. clear Hnt0.
  unfold pool_of in Hpool.
  destruct (highest_prio results) as [m|] eqn:Hhp; cycle 1.
  { destruct Hpool as [Hnil _]. apply fmap_nil_inv in Hnil. subst. set_solver. }
  destruct Hpool as (Hm & Hle & (hs & Hhs & Hix) & Huse).
  assert (Hup : use_prio results = true).
  { apply Huse. destruct (decide (priority f1.1 = m)) as [Heq|Hneq].
    - exists (priority f2.1). split; [|congruence].
      apply list_elem_of_fmap. eauto.
    - exists (priority f1.1). split; [|done].
      apply list_elem_of_fmap. eauto. }
  set (csc := List.filter (λ '(ix, _), bool_decide (ix ∈ hs)) (sc results)).
  assert (Hcsc : ∀ ix z, (ix, z) ∈ csc → ((λ fam, priority fam.1) <$> fams) !! ix = Some m).
  { intros ix z Hin. apply list_elem_of_In, filter_In in Hin as [_ Hin].
    apply bool_decide_eq_true in Hin. by apply Hix. }
  assert (Hsome : ∃ x, x ∈ csc).
  { apply list_elem_of_lookup in Hm as [j Hj]. apply Hix in Hj as Hjs.
    apply lookup_lt_Some in Hj. rewrite length_fmap in Hj.
    assert (j ∈ dict_keys (sc results)) as Hk.
    { rewrite Hkeys. apply elem_of_seq. lia. }
    apply dict_get_is_Some in Hk as [z Hz]. exists (j, z).
    apply list_elem_of_In, filter_In. split.
    - apply list_elem_of_In. by apply dict_get_elem.
    - by apply bool_decide_eq_true. }
  destruct (sorted_desc csc) as [|[ix score] rest] eqn:Hsorted.
  { destruct Hsome as [x Hx]. apply sorted_desc_elem in Hx.
    rewrite Hsorted in Hx. by apply elem_of_nil in Hx. }
  assert (Hsel : (ix, score) ∈ csc).
  { apply sorted_desc_elem. rewrite Hsorted. left. }
  apply Hcsc in Hsel. rewrite list_lookup_fmap in Hsel.
  destruct (fams !! ix) as [[prod children]|] eqn:Hfam; [|done].
  simpl in Hsel. injection Hsel as Hprio.
  assert (Hnt1 : is_Some (nt results)) by (rewrite Hnt, Hcompleted; eauto).
  destruct Hnt1 as [n Hn].
  exists ix, prod, children, (score + default 0 (nt_scores !! n)).
  split; [|split; [done|]].
  - rewrite nav_node_unvisited by done.
    destruct st as [v0 l0], st1 as [v1 l1]. simpl in *.
    unfold bind at 1. unfold bind at 1. unfold bind at 1. simpl.
    fold PFR. rewrite Hrun. simpl.
    unfold process_results, bind at 1. rewrite Hup. unfold bind at 1.
    unfold highest_only. rewrite Hhs. simpl. fold csc.
    rewrite andb_false_r. rewrite Hsorted. simpl. rewrite Hn. reflexivity.
  - rewrite Forall_fmap in Hle. eapply Forall_impl; [exact Hle|].
    intros fam. simpl. lia.
Qed.

Lemma C1_priority_dominance_witness :
  ∃ ix prod children score,
    nav_node (ParseForestReducer ∅ Sample.prio_scores)
      (NonterminalNode Sample.prio_info Sample.prio_families) (∅, []) =
      Ok (score, (<[Some 200%nat := score]> {[ Some 201%nat := 10; Some 202%nat := -5 ]},
                  [] ++ [(200%nat, ix)]))
    ∧ Sample.prio_families !! ix = Some (prod, children)
    ∧ Forall (λ fam, priority prod ≤ priority fam.1) Sample.prio_families.
Proof.
  refine (C1_priority_dominance ∅ Sample.prio_scores Sample.prio_info
            Sample.prio_families (∅, []) ({[ Some 201%nat := 10; Some 202%nat := -5 ]}, [])
            (foldl (λ r s, add_child_score r 1 s)
               (add_child_production
                  (foldl (λ r s, add_child_score r 0 s)
                     (add_child_production (new_ReductionInfo Sample.prio_info) 0
                        (mkProduction "S" 1)) [10])
                  1 (mkProduction "S" 0)) [-5])
            _ _ _ _ _).
  - reflexivity.
  - repeat constructor; discriminate.
  - eexists _, _. split; [left|]. split; [right; left|]. simpl. lia.
  - reflexivity.
  - vm_compute. reflexivity.
Defined.

(** On the sample the family 0 has the better score, 10 against -5, and the
    worse priority: the node is reduced to the family 1. *)
Example prio_sample_reduced_to_1 :
  nav_node (ParseForestReducer ∅ Sample.prio_scores)
    (NonterminalNode Sample.prio_info Sample.prio_families) (∅, []) =
  Ok (-5, ({[ Some 200%nat := -5; Some 201%nat := 10; Some 202%nat := -5 ]},
           [(200%nat, 1%nat)])).
Proof. vm_compute. reflexivity. Qed.

(** ** Steps on the scores *)

Lemma adds_ext K m δ δ' : (∀ j u, δ j u = δ' j u) → adds K m δ → adds K m δ'.
Proof.
  intros Heq Hm σ σ' u0 HK Hrun. destruct (Hm σ σ' u0 HK Hrun) as [HK' Hsc].
  split; [done|]. intros j u. rewrite Hsc, Heq. done.
Qed.

Lemma adds_ret K : adds K (ret tt) (λ _ _, 0).
Proof.
  intros σ σ' u0 HK Hrun. inv_run Hrun. split; [done|].
  intros j u. destruct (score_at σ j u); simpl; f_equal. lia.
Qed.

Lemma adds_bind K (m1 m2 : M Scores unit) δ1 δ2 :
  adds K m1 δ1 → adds K m2 δ2 →
  adds K (exec m1 in m2) (λ j u, δ1 j u + δ2 j u).
Proof.
  intros H1 H2 σ σ' u0 HK Hrun. inv_run Hrun.
  destruct (H1 _ _ _ HK Hrun0) as [HK1 Hsc1].
  destruct (H2 _ _ _ HK1 Hrun) as [HK2 Hsc2].
  split; [done|]. intros j u. rewrite Hsc2, Hsc1.
  destruct (score_at σ j u); simpl; f_equal. lia.
Qed.

Lemma adds_or_raise {A} K (o : option A) e (f : A → M Scores unit) δ :
  (∀ a, o = Some a → adds K (f a) δ) →
  adds K (let* a := or_raise o e in f a) δ.
Proof.
  intros Hf σ σ' u0 HK Hrun. inv_run Hrun. eapply Hf; eauto.
Qed.

Lemma adds_add_score K i t d : adds K (add_score i t d) (at_place i t d).
Proof.
  intros σ σ' u0 HK Hrun. unfold add_score in Hrun.
  apply bind_Ok in Hrun as (σ0 & σ1 & [-> ->]%get_state_Ok & Hrun).
  apply bind_Ok in Hrun as (sc0 & σ1 & [Hsc ->]%or_raise_Ok & Hrun).
  apply bind_Ok in Hrun as (z & σ1 & [Hz ->]%or_raise_Ok & Hrun).
  apply modify_Ok in Hrun as ->.
  assert (Hkeys : dict_keys (dict_set sc0 t (z + d)) = dict_keys sc0).
  { apply dict_keys_set_in, dict_get_is_Some. eauto. }
  split.
  - rewrite <- HK. unfold keys_of. rewrite fmap_insert, Hkeys.
    apply insert_id. rewrite lookup_fmap, Hsc. done.
  - intros j u. unfold score_at, at_place.
    destruct (decide (j = i)) as [->|Hj].
    + rewrite lookup_insert_eq, Hsc. simpl. rewrite dict_get_set.
      destruct (decide (t = u)) as [->|Hu].
      * rewrite decide_True by done. rewrite Hz. done.
      * rewrite decide_False by naive_solver.
        destruct (dict_get sc0 u); simpl; f_equal; lia.
    + rewrite lookup_insert_ne by done. rewrite decide_False by naive_solver.
      destruct (σ !! j) as [sc1|]; simpl; [|done].
      destruct (dict_get sc1 u); simpl; f_equal; lia.
Qed.

Lemma adds_for_each {A} K (l : list A) (body : A → M Scores unit) δ :
  (∀ x, x ∈ l → adds K (body x) (δ x)) →
  adds K (for_each l body) (λ j u, Zsum ((λ x, δ x j u) <$> l)).
Proof.
  induction l as [|x l IH]; intros Hbody; simpl.
  - apply adds_ret.
  - apply adds_bind.
    + apply Hbody. left.
    + apply IH. intros y Hy. apply Hbody. by right.
Qed.

Lemma Zsum_app l1 l2 : Zsum (l1 ++ l2) = Zsum l1 + Zsum l2.
Proof. unfold Zsum. induction l1; simpl; lia. Qed.

Lemma Zsum_zero {A} (f : A → Z) l : (∀ x, x ∈ l → f x = 0) → Zsum (f <$> l) = 0.
Proof.
  induction l as [|x l IH]; intros Hf; [done|].
  rewrite fmap_cons. unfold Zsum in *. simpl.
  rewrite Hf by left. rewrite IH; [done|]. intros y Hy. apply Hf. by right.
Qed.

(** In a set, the sum of what is added at the place of each member is
    what is added at the place of the one member asked for. *)
Lemma Zsum_at_member {A} `{EqDecision A} (f : A → Z) (l : list A) (u : A) :
  NoDup l →
  Zsum ((λ x, if decide (u = x) then f x else 0) <$> l) = if decide (u ∈ l) then f u else 0.
Proof.
  induction 1 as [|x l Hx Hl IH].
  - rewrite decide_False; [done|]. apply not_elem_of_nil.
  - rewrite fmap_cons. unfold Zsum in *. simpl. rewrite IH. destruct (decide (u = x)) as [->|Hne].
    + rewrite (decide_True (P := x ∈ x :: l)) by left.
      rewrite decide_False by done. lia.
    + destruct (decide (u ∈ l)) as [Hin|Hnin].
      * rewrite decide_True by (by right). lia.
      * rewrite decide_False; [lia|]. rewrite not_elem_of_cons. done.
Qed.

Lemma Zsum_const_filter {A} (P : A → bool) (c : Z) (l : list A) :
  Zsum ((λ x, if P x then c else 0) <$> l) = c * Z.of_nat (length (List.filter P l)).
Proof.
  induction l as [|x l IH]; [unfold Zsum; simpl; lia|].
  rewrite fmap_cons. unfold Zsum in *. simpl.
  rewrite IH. destruct (P x); simpl; lia.
Qed.

(** ** The preferences *)

Lemma dict_set_NoDup {K V} `{EqDecision K} (d : list (K * V)) k v :
  NoDup (dict_keys d) → NoDup (dict_keys (dict_set d k v)).
Proof.
  intros Hd. destruct (decide (k ∈ dict_keys d)) as [Hin|Hnin].
  - by rewrite dict_keys_set_in.
  - rewrite dict_keys_set_notin by done.
    apply NoDup_app. split; [done|]. split; [|apply NoDup_singleton].
    intros x Hx ->%list_elem_of_singleton. done.
Qed.

Lemma foldr_min_acc a z l : foldr Z.min (Z.min z a) l = Z.min (foldr Z.min z l) a.
Proof. induction l as [|x l IH]; simpl; [done|]. rewrite IH. lia. Qed.

Lemma foldr_max_acc a z l : foldr Z.max (Z.max z a) l = Z.max (foldr Z.max z l) a.
Proof. induction l as [|x l IH]; simpl; [done|]. rewrite IH. lia. Qed.

Lemma foldr_min_seq z l1 l2 :
  foldr Z.min (foldr Z.min z l1) l2 = foldr Z.min z (l1 ++ l2).
Proof.
  induction l1 as [|x l1 IH]; simpl; [done|].
  rewrite <- IH. rewrite (Z.min_comm x), foldr_min_acc. lia.
Qed.

Lemma foldr_max_seq z l1 l2 :
  foldr Z.max (foldr Z.max z l1) l2 = foldr Z.max z (l1 ++ l2).
Proof.
  induction l1 as [|x l1 IH]; simpl; [done|].
  rewrite <- IH. rewrite (Z.max_comm x), foldr_max_acc. lia.
Qed.

Lemma accumulates_ret : accumulates (ret tt) [].
Proof. intros aw ab aw' ab' u0 Hrun ? ?. inv_run Hrun. done. Qed.

Lemma accumulates_bind (m1 m2 : M AdjState unit) p1 p2 :
  accumulates m1 p1 → accumulates m2 p2 → accumulates (exec m1 in m2) (p1 ++ p2).
Proof.
  intros H1 H2 aw ab aw' ab' u0 Hrun Hw Hb.
  apply bind_Ok in Hrun as (u1 & [aw1 ab1] & Hrun1 & Hrun2).
  destruct (H1 _ _ _ _ _ Hrun1 Hw Hb) as (Hw1 & Hb1 & Hadj1).
  destruct (H2 _ _ _ _ _ Hrun2 Hw1 Hb1) as (Hw2 & Hb2 & Hadj2).
  split; [done|]. split; [done|]. intros t.
  destruct (Hadj1 t) as [Ha1 Hb1']. destruct (Hadj2 t) as [-> ->].
  rewrite Ha1, Hb1'. unfold worse_adjustments, better_adjustments.
  rewrite !omap_app, foldr_min_seq, foldr_max_seq. done.
Qed.

Lemma accumulates_for_each {A} (l : list A) (body : A → M AdjState unit) pairs :
  (∀ x, x ∈ l → accumulates (body x) (pairs x)) →
  accumulates (for_each l body) (x ← l; pairs x).
Proof.
  induction l as [|x l IH]; intros Hbody; simpl.
  - apply accumulates_ret.
  - apply accumulates_bind.
    + apply Hbody. left.
    + apply IH. intros y Hy. apply Hbody. by right.
Qed.

Lemma accumulates_note_pair wt bt factor :
  accumulates (note_pair wt bt factor) [(wt, bt, factor)].
Proof.
  intros aw ab aw' ab' u0 Hrun Hw Hb. unfold note_pair in Hrun.
  apply bind_Ok in Hrun as (literal & σ1 & [Hlit ->]%or_raise_Ok & Hrun).
  apply modify_Ok in Hrun. injection Hrun as -> ->.
  split; [by apply dict_set_NoDup|]. split; [by apply dict_set_NoDup|].
  intros t. unfold adj_at, worse_adjustments, better_adjustments, is_literal. simpl.
  rewrite !dict_get_set, Hlit. simpl.
  destruct (decide (wt = t)) as [->|?], (decide (bt = t)) as [->|?]; simpl; split; lia.
Qed.

Lemma collect_prefs_accumulates s prefs :
  accumulates (collect_prefs s prefs) (matching_pairs s prefs).
Proof.
  unfold collect_prefs, matching_pairs.
  apply accumulates_for_each. intros [[worse better] factor] _. simpl.
  apply accumulates_for_each. intros wt _.
  case_bool_decide as Hw.
  - apply accumulates_for_each. intros bt _.
    case_bool_decide as Hne; simpl.
    + rewrite decide_False by naive_solver. apply accumulates_ret.
    + case_bool_decide as Hb; simpl.
      * rewrite decide_True by done. apply accumulates_note_pair.
      * rewrite decide_False by naive_solver. apply accumulates_ret.
  - replace (bt ← s; _) with (@nil (Terminal * Terminal * Z)); [apply accumulates_ret|].
    symmetry. induction s as [|bt s' IH]; simpl; [done|].
    rewrite decide_False by naive_solver. done.
Qed.

Lemma Zsum_adj_at (adj : list (Terminal * Z)) i j u :
  NoDup (dict_keys adj) →
  Zsum ((λ x, at_place i x.1 x.2 j u) <$> adj) = if decide (j = i) then adj_at adj u else 0.
Proof.
  unfold adj_at, at_place.
  induction adj as [|[t a] adj IH]; intros Hnd.
  - by destruct (decide (j = i)).
  - change (dict_keys ((t, a) :: adj)) with (t :: dict_keys adj) in Hnd.
    apply NoDup_cons in Hnd as [Ht Hnd].
    rewrite fmap_cons. unfold Zsum in *. simpl. rewrite IH by done.
    destruct (decide (j = i)) as [->|Hj].
    + destruct (decide (t = u)) as [->|Hu].
      * rewrite decide_True by done.
        apply (dict_get_None (V:=Z)) in Ht. rewrite Ht. simpl. lia.
      * rewrite decide_False by naive_solver. lia.
    + rewrite decide_False by naive_solver. lia.
Qed.

(** Each terminal gets its two pending adjustments, once. *)
Lemma adds_apply_prefs K i s prefs :
  adds K (apply_prefs i s prefs)
       (λ j u, if decide (j = i) then spec_adj_worse s prefs u + spec_adj_better s prefs u
               else 0).
Proof.
  intros σ σ' u0 HK Hrun. unfold apply_prefs in Hrun.
  apply bind_Ok in Hrun as ([aw ab] & σ1 & Hcollect & Hrun).
  destruct (collect_prefs s prefs ([], [])) as [[u1 [aw1 ab1]]|] eqn:Hc; [|done].
  injection Hcollect as -> -> ->.
  destruct (collect_prefs_accumulates s prefs _ _ _ _ _ Hc) as (Hw & Hb & Hadj);
    [apply NoDup_nil_2..|].
  revert Hrun. simpl.
  assert (Hstep : adds K
    (exec for_each aw (λ '(wt, a), add_score i wt a)
     in for_each ab (λ '(bt, a), add_score i bt a))
    (λ j u, Zsum ((λ x, at_place i x.1 x.2 j u) <$> aw)
            + Zsum ((λ x, at_place i x.1 x.2 j u) <$> ab))).
  { apply adds_bind; apply adds_for_each; intros [t a] _; apply adds_add_score. }
  intros Hrun. destruct (Hstep _ _ _ HK Hrun) as [HK' Hsc]. split; [done|].
  intros j u. rewrite Hsc, !Zsum_adj_at by done.
  destruct (Hadj u) as [-> ->]. unfold spec_adj_worse, spec_adj_better, adj_at. simpl.
  destruct (decide (j = i)); [done|]. destruct (score_at _ j u); simpl; f_equal; lia.
Qed.

Lemma init_scores_get_from (d : list (Terminal * Z)) s t :
  dict_get (foldl (λ d t, dict_set d t 0) d s) t =
    if decide (t ∈ s) then Some 0 else dict_get d t.
Proof.
  revert d. induction s as [|x s IH]; intros d.
  - rewrite decide_False; [done|]. apply not_elem_of_nil.
  - cbn [foldl]. rewrite IH, dict_get_set.
    destruct (decide (t ∈ s)) as [Hin|Hnin].
    + rewrite decide_True by (by right). done.
    + destruct (decide (x = t)) as [->|Hne].
      * rewrite decide_True by left. done.
      * rewrite decide_False; [done|]. rewrite not_elem_of_cons. naive_solver.
Qed.

Lemma init_scores_get s t :
  dict_get (init_scores s) t = if decide (t ∈ s) then Some 0 else None.
Proof. apply init_scores_get_from. Qed.

Lemma init_scores_keys_from (d : list (Terminal * Z)) s :
  NoDup (dict_keys d ++ s) →
  dict_keys (foldl (λ d t, dict_set d t 0) d s) = dict_keys d ++ s.
Proof.
  revert d. induction s as [|x s IH]; intros d Hnd; simpl.
  - by rewrite app_nil_r.
  - assert (x ∉ dict_keys d) as Hx.
    { apply NoDup_app in Hnd as (_ & Hdis & _). intros Hin.
      apply (Hdis x Hin). left. }
    rewrite IH; rewrite dict_keys_set_notin by done.
    + by rewrite <- app_assoc.
    + by rewrite <- app_assoc.
Qed.

Lemma init_scores_keys s : NoDup s → dict_keys (init_scores s) = s.
Proof. intros Hs. unfold init_scores. by rewrite init_scores_keys_from. Qed.

(** C5: at a position with more than one candidate terminal, the scoring
    of the position goes through a store [σ1], reached by the preference
    step from the scores initialised to 0.  When all candidates have the
    same first part, the step is the empty step, whatever the preference
    table holds: the table is not read, and [σ1] is the initial store.
    Otherwise each candidate [t] has in [σ1] the sum of its two pending
    adjustments: the least of 0 and -2 * factor over the pairs with [t] on
    the worse side, and the greatest of 0 and 6 * factor (literal) or
    4 * factor over the pairs with [t] on the better side. *)
Theorem C5_preference_adjustments Preferences VERBS_0 SCORES finals tokens w_start i
    (σ σ' : Scores) :
  let s := finals_at finals i in
  (1 < length s)%nat →
  score_position Preferences VERBS_0 SCORES finals tokens w_start i σ = Ok (tt, σ') →
  ∃ tok σ1,
    tokens !! i = Some tok
    ∧ check_preferences Preferences i s tok (<[i := init_scores s]> σ) = Ok (tt, σ1)
    ∧ for_each s (heuristics VERBS_0 SCORES finals w_start i s tok) σ1 = Ok (tt, σ')
    ∧ (same_first s = true →
         σ1 = <[i := init_scores s]> σ
         ∧ ∀ table, check_preferences table i s tok = ret tt)
    ∧ (same_first s = false →
         let prefs := default [] (Preferences (lower tok)) in
         ∀ t, t ∈ s →
           score_at σ1 i t = Some (spec_adj_worse s prefs t + spec_adj_better s prefs t)).
Proof.
  intros s Hlen Hrun. unfold score_position in Hrun. fold s in Hrun.
  apply bind_Ok in Hrun as (u1 & σ0 & ->%modify_Ok & Hrun).
  destruct (length s <=? 1)%nat eqn:Hle; [apply Nat.leb_le in Hle; lia|].
  apply bind_Ok in Hrun as (tok & σ0 & [Htok ->]%or_raise_Ok & Hrun).
  apply bind_Ok in Hrun as ([] & σ1 & Hprefs & Hrun).
  exists tok, σ1. split; [done|]. split; [done|]. split; [done|].
  split.
  - intros Hsame. unfold check_preferences in *. rewrite Hsame in *.
    apply ret_Ok in Hprefs as [_ ->]. done.
  - intros Hsame prefs t Ht. unfold check_preferences in Hprefs. rewrite Hsame in Hprefs.
    assert (Hinit : score_at (<[i:=init_scores s]> σ) i t = Some 0).
    { unfold score_at. rewrite lookup_insert_eq. simpl.
      rewrite init_scores_get, decide_True by done. done. }
    assert (Hzero : spec_adj_worse s [] t + spec_adj_better s [] t = 0) by done.
    subst prefs. destruct (Preferences (lower tok)) as [[|p ps]|]; simpl.
    + apply ret_Ok in Hprefs as [_ ->]. rewrite Hinit, Hzero. done.
    + destruct (adds_apply_prefs _ i s (p :: ps) _ _ _ eq_refl Hprefs) as [_ Hsc].
      rewrite Hsc, Hinit. simpl. rewrite decide_True by done. done.
    + apply ret_Ok in Hprefs as [_ ->]. rewrite Hinit, Hzero. done.
Qed.

Lemma C5_preference_adjustments_witness :
  ∃ tok σ1,
    Sample.ekki_tokens !! 0%nat = Some tok
    ∧ check_preferences Sample.ekki_prefs 0 [Sample.ao; Sample.no_hk] tok
        (<[0%nat := init_scores [Sample.ao; Sample.no_hk]]> ∅) = Ok (tt, σ1)
    ∧ for_each [Sample.ao; Sample.no_hk]
        (heuristics ∅ ∅ Sample.ekki_finals 0 0 [Sample.ao; Sample.no_hk] tok) σ1
      = Ok (tt, {[ 0%nat := [(Sample.ao, 3); (Sample.no_hk, -2)] ]})
    ∧ (same_first [Sample.ao; Sample.no_hk] = true →
         σ1 = <[0%nat := init_scores [Sample.ao; Sample.no_hk]]> ∅
         ∧ ∀ table, check_preferences table 0 [Sample.ao; Sample.no_hk] tok = ret tt)
    ∧ (same_first [Sample.ao; Sample.no_hk] = false →
         let prefs := default [] (Sample.ekki_prefs (lower tok)) in
         ∀ t, t ∈ [Sample.ao; Sample.no_hk] →
           score_at σ1 0 t
           = Some (spec_adj_worse [Sample.ao; Sample.no_hk] prefs t
                   + spec_adj_better [Sample.ao; Sample.no_hk] prefs t)).
Proof.
  apply (C5_preference_adjustments Sample.ekki_prefs ∅ ∅ Sample.ekki_finals
           Sample.ekki_tokens 0 0 ∅ {[ 0%nat := [(Sample.ao, 3); (Sample.no_hk, -2)] ]}).
  - vm_compute. lia.
  - vm_compute. reflexivity.
Defined.

(** ** The heuristics *)

Lemma adds_nothing K i t : adds K (ret tt) (at_place i t 0).
Proof.
  eapply adds_ext; [|apply adds_ret]. intros j u. unfold at_place.
  by case_decide.
Qed.

Lemma at_place_plus i t a b j u :
  at_place i t a j u + at_place i t b j u = at_place i t (a + b) j u.
Proof. unfold at_place. case_decide; lia. Qed.

Section heuristics_facts.
Variable VERBS_0 : gset string.
Variable SCORES : gmap string Z.
Variable K finals : gmap nat (list Terminal).

Lemma adds_verb_arguments i tok t :
  adds K (verb_arguments VERBS_0 SCORES i tok t)
  (at_place i t (verb_arguments_adj VERBS_0 SCORES tok t)).
Proof.
  unfold verb_arguments, verb_arguments_adj.
  apply adds_or_raise. intros v0 ->.
  destruct (str_in v0 "012"); [|apply adds_nothing].
  apply adds_or_raise. intros n ->. apply adds_add_score.
Qed.

Lemma adds_verb_form i t : adds K (verb_form i t) (at_place i t (verb_form_adj t)).
Proof.
  unfold verb_form, verb_form_adj.
  repeat case_match; first [apply adds_add_score | apply adds_nothing].
Qed.

Lemma adds_verb_subject i t : adds K (verb_subject i t) (at_place i t (verb_subject_adj t)).
Proof.
  unfold verb_subject, verb_subject_adj.
  repeat case_match; first [apply adds_add_score | apply adds_nothing].
Qed.

Lemma adds_prop_up_nhm i : adds K (prop_up_nhm i) (nhm_bonus K i).
Proof.
  intros σ σ' u0 HK Hrun. unfold prop_up_nhm in Hrun.
  apply bind_Ok in Hrun as (σ0 & σ1 & [-> ->]%get_state_Ok & Hrun).
  apply bind_Ok in Hrun as (prev & σ1 & [Hprev ->]%or_raise_Ok & Hrun).
  assert (HKi : default [] (K !! (i - 1)%nat) = dict_keys prev).
  { rewrite <- HK. unfold keys_of. rewrite lookup_fmap, Hprev. done. }
  assert (Hstep : adds K
    match List.find is_nhm (dict_keys prev) with
    | Some pt => add_score (i - 1) pt 2
    | None => ret tt
    end (nhm_bonus K i)).
  { unfold nhm_bonus. rewrite HKi.
    destruct (List.find is_nhm (dict_keys prev)) as [pt|];
      [apply adds_add_score|apply adds_ret]. }
  eapply Hstep; eauto.
Qed.

Lemma adds_verb_infinitive i s t :
  adds K (verb_infinitive finals i s t)
  (λ j u, at_place i t (verb_infinitive_adj finals i s t) j u
  + (if is_nh t && nhm_before finals i then nhm_bonus K i j u else 0)).
Proof.
  unfold verb_infinitive, verb_infinitive_adj. fold (nhm_before finals i).
  destruct (is_nh t); simpl.
  - destruct (nhm_before finals i); simpl.
    + eapply adds_ext; cycle 1.
      { apply adds_bind.
        - apply adds_bind; [apply adds_add_score|apply adds_prop_up_nhm].
        - instantiate (1 := at_place i t (if existsb is_noun_ef_ft s then 4 else 0)).
          destruct (existsb is_noun_ef_ft s); [apply adds_add_score|apply adds_nothing]. }
      intros j u. simpl. unfold at_place.
      case_decide; destruct (existsb is_noun_ef_ft s); lia.
    + eapply adds_ext; cycle 1.
      { apply adds_bind; [apply adds_ret|].
        instantiate (1 := at_place i t (if existsb is_noun_ef_ft s then 4 else 0)).
        destruct (existsb is_noun_ef_ft s); [apply adds_add_score|apply adds_nothing]. }
      intros j u. simpl. unfold at_place.
      case_decide; destruct (existsb is_noun_ef_ft s); lia.
  - eapply adds_ext; [|apply adds_ret]. intros j u. unfold at_place.
    case_decide; lia.
Qed.

Lemma adds_ef_penalty i s :
  adds K (for_each s (λ pt, if is_ef_number pt then add_score i pt (-1) else ret tt))
  (ef_penalty i s).
Proof.
  unfold ef_penalty.
  eapply adds_ext; cycle 1.
  { apply adds_for_each with
      (δ := λ pt j u, if is_ef_number pt then at_place i pt (-1) j u else 0).
    intros pt _. destruct (is_ef_number pt); [apply adds_add_score|apply adds_ret]. }
  done.
Qed.
End heuristics_facts.

Section heuristics_step.
Variable VERBS_0 : gset string.
Variable SCORES : gmap string Z.
Variable K finals : gmap nat (list Terminal).
Variable w_start i : nat.
Variable s : list Terminal.
Variable tok : Token.

(** Once the first part of [t] is known, the tests on it are decided. *)
Ltac known_first H :=
  unfold heuristics, heur_delta, own_adjust, is_number, is_infinitive_verb;
  rewrite ?H; cbn [String.eqb Ascii.eqb Bool.eqb orb andb].

Ltac own_only t :=
  eapply adds_ext; [|first [apply adds_add_score | apply (adds_nothing K i t)]];
  intros j u; lia.

(** The heuristics for one terminal, in closed form. *)
Lemma adds_heuristics t :
  adds K (heuristics VERBS_0 SCORES finals w_start i s tok t)
  (heur_delta VERBS_0 SCORES K finals w_start i s tok t).
Proof.
  destruct (String.eqb (first t) "ao") eqn:Hao.
  { apply String.eqb_eq in Hao. known_first Hao. own_only t. }
  destruct (String.eqb (first t) "eo") eqn:Heo.
  { apply String.eqb_eq in Heo. known_first Heo. own_only t. }
  destruct (String.eqb (first t) "no") eqn:Hno.
  { apply String.eqb_eq in Hno. known_first Hno.
    destruct (is_singular t); [own_only t|]. destruct (is_abbrev t); own_only t. }
  destruct (String.eqb (first t) "fs") eqn:Hfs.
  { apply String.eqb_eq in Hfs. known_first Hfs.
    destruct (has_variant t "nf"); [own_only t|].
    destruct (String.eqb (lower tok) "við" && has_variant t "þgf"); [own_only t|].
    destruct (String.eqb (lower tok) "sem" && has_variant t "þf"); own_only t. }
  destruct (String.eqb (first t) "so") eqn:Hso.
  { apply String.eqb_eq in Hso. known_first Hso.
    eapply adds_ext; cycle 1.
    { apply adds_bind; [apply adds_verb_arguments|].
      apply adds_bind; [apply adds_verb_form|].
      apply adds_bind; [apply adds_verb_subject|apply adds_verb_infinitive]. }
    intros j u. simpl. rewrite <- !at_place_plus. lia. }
  destruct (String.eqb (first t) "tala") eqn:Htala.
  { apply String.eqb_eq in Htala. known_first Htala.
    eapply adds_ext; cycle 1.
    { apply adds_bind; [apply adds_add_score|apply adds_ef_penalty]. }
    intros j u. simpl. lia. }
  destruct (String.eqb (first t) "töl") eqn:Htol.
  { apply String.eqb_eq in Htol. known_first Htol.
    eapply adds_ext; cycle 1.
    { apply adds_bind; [apply (adds_nothing K i t)|apply adds_ef_penalty]. }
    intros j u. simpl. lia. }
  unfold heuristics, heur_delta, own_adjust, is_number, is_infinitive_verb.
  rewrite Hao, Heo, Hno, Hfs, Hso, Htala, Htol. cbn [orb andb].
  destruct (String.eqb (first t) "sérnafn") eqn:Hser.
  { destruct (t2 tok) as [|m ms].
    - own_only t.
    - eapply adds_ext; cycle 1.
      { apply adds_bind; [apply adds_add_score|].
        instantiate (1 := at_place i t (if (i =? w_start)%nat then -4 else 0)).
        destruct (i =? w_start)%nat; [apply adds_add_score|apply adds_nothing]. }
      intros j u. simpl. rewrite at_place_plus. lia. }
  apply adds_or_raise. intros literal Hlit. unfold is_literal. rewrite Hlit. simpl.
  destruct literal; own_only t.
Qed.
End heuristics_step.

Lemma Zsum_plus {A} (f g : A → Z) l :
  Zsum ((λ x, f x + g x) <$> l) = Zsum (f <$> l) + Zsum (g <$> l).
Proof.
  induction l as [|x l IH]; [done|].
  rewrite !fmap_cons. unfold Zsum in *. simpl. rewrite IH. lia.
Qed.

Lemma Zsum_ext {A} (f g : A → Z) l :
  (∀ x, x ∈ l → f x = g x) → Zsum (f <$> l) = Zsum (g <$> l).
Proof.
  induction l as [|x l IH]; intros Hfg; [done|].
  rewrite !fmap_cons. unfold Zsum in *. simpl. rewrite Hfg by left.
  rewrite IH; [done|]. intros y Hy. apply Hfg. by right.
Qed.

Lemma Zsum_at_place i (f : Terminal → Z) (s : list Terminal) j u :
  NoDup s →
  Zsum ((λ t, at_place i t (f t) j u) <$> s) = if decide (j = i ∧ u ∈ s) then f u else 0.
Proof.
  intros Hs. destruct (decide (j = i)) as [->|Hj].
  - rewrite (Zsum_ext _ (λ t, if decide (u = t) then f t else 0)).
    + rewrite Zsum_at_member by done. repeat case_decide; naive_solver.
    + intros t _. unfold at_place. repeat case_decide; naive_solver.
  - rewrite decide_False by naive_solver. apply Zsum_zero.
    intros t _. unfold at_place. rewrite decide_False by naive_solver. done.
Qed.

Section heuristics_loop.
Variable VERBS_0 : gset string.
Variable SCORES : gmap string Z.
Variable K finals : gmap nat (list Terminal).
Variable w_start i : nat.
Variable s : list Terminal.
Variable tok : Token.
Hypothesis s_set : NoDup s.

Lemma ef_penalty_here u :
  ef_penalty i s i u = if decide (u ∈ s) then (if is_ef_number u then -1 else 0) else 0.
Proof.
  unfold ef_penalty.
  rewrite (Zsum_ext _ (λ pt, at_place i pt (if is_ef_number pt then -1 else 0) i u)).
  - rewrite Zsum_at_place by done. repeat case_decide; naive_solver.
  - intros pt _. unfold at_place. destruct (is_ef_number pt); [done|]. by case_decide.
Qed.

Lemma ef_penalty_elsewhere j u : j ≠ i → ef_penalty i s j u = 0.
Proof.
  intros Hj. unfold ef_penalty. apply Zsum_zero. intros pt _.
  unfold at_place. rewrite decide_False by naive_solver. by destruct (is_ef_number pt).
Qed.

Lemma nhm_bonus_here u : (0 < i)%nat → nhm_bonus K i i u = 0.
Proof.
  intros Hi. unfold nhm_bonus. destruct (List.find _ _); [|done].
  unfold at_place. rewrite decide_False; [done|]. intros [? _]. lia.
Qed.

(** What the heuristics of the whole set add at the position itself. *)
Lemma heuristics_total_here u :
  u ∈ s →
  Zsum ((λ t, heur_delta VERBS_0 SCORES K finals w_start i s tok t i u) <$> s) =
  own_adjust VERBS_0 SCORES finals w_start i s tok u
  + (if is_ef_number u then - Z.of_nat (length (List.filter is_number s)) else 0).
Proof.
  intros Hu. unfold heur_delta. rewrite !Zsum_plus.
  rewrite Zsum_at_place by done. rewrite decide_True by done.
  rewrite (Zsum_ext _ (λ t, if is_number t then (if is_ef_number u then -1 else 0) else 0)).
  2:{ intros t _. rewrite ef_penalty_here, decide_True by done. done. }
  rewrite Zsum_const_filter.
  rewrite Zsum_zero.
  - destruct (is_ef_number u); lia.
  - intros t _. destruct (is_infinitive_verb t); [|done]. simpl.
    destruct (nhm_before finals i) eqn:Hb; [|done].
    apply nhm_bonus_here. unfold nhm_before in Hb.
    apply andb_true_iff in Hb as [Hb _]. by apply Nat.ltb_lt in Hb.
Qed.

(** What they add at the position before. *)
Lemma heuristics_total_before u :
  (0 < i)%nat →
  Zsum ((λ t, heur_delta VERBS_0 SCORES K finals w_start i s tok t (i - 1)%nat u) <$> s) =
  if nhm_before finals i
  then nhm_bonus K i (i - 1)%nat u * Z.of_nat (length (List.filter is_infinitive_verb s))
  else 0.
Proof.
  intros Hi. unfold heur_delta. rewrite !Zsum_plus.
  rewrite Zsum_at_place by done. rewrite decide_False by lia.
  rewrite (Zsum_zero (λ t, if is_number t then _ else _)).
  2:{ intros t _. rewrite ef_penalty_elsewhere by lia. by destruct (is_number t). }
  destruct (nhm_before finals i).
  - rewrite (Zsum_ext _ (λ t, if is_infinitive_verb t then nhm_bonus K i (i - 1)%nat u else 0)).
    + rewrite Zsum_const_filter. lia.
    + intros t _. by rewrite andb_true_r.
  - rewrite Zsum_zero; [done|]. intros t _. by rewrite andb_false_r.
Qed.

(** And elsewhere: nothing. *)
Lemma heuristics_total_elsewhere j u :
  j ≠ i → j ≠ (i - 1)%nat →
  Zsum ((λ t, heur_delta VERBS_0 SCORES K finals w_start i s tok t j u) <$> s) = 0.
Proof.
  intros Hj Hj'. apply Zsum_zero. intros t _. unfold heur_delta.
  unfold at_place at 1. rewrite decide_False by naive_solver.
  rewrite ef_penalty_elsewhere by done.
  assert (nhm_bonus K i j u = 0) as ->.
  { unfold nhm_bonus. destruct (List.find _ _); [|done].
    unfold at_place. rewrite decide_False by naive_solver. done. }
  destruct (is_number t), (is_infinitive_verb t && nhm_before finals i); done.
Qed.
End heuristics_loop.

(** ** The scores of one position *)

Lemma adds_check_preferences K Preferences i s tok :
  adds K (check_preferences Preferences i s tok)
       (λ j u, if decide (j = i) then pref_adjust Preferences s tok u else 0).
Proof.
  unfold check_preferences, pref_adjust.
  destruct (same_first s).
  { eapply adds_ext; [|apply adds_ret]. intros j u. by case_decide. }
  destruct (Preferences (lower tok)) as [[|p ps]|]; simpl.
  - eapply adds_ext; [|apply adds_ret]. intros j u. by case_decide.
  - apply adds_apply_prefs.
  - eapply adds_ext; [|apply adds_ret]. intros j u. by case_decide.
Qed.

Lemma keys_of_init (σ : Scores) i s :
  NoDup s → keys_of (<[i := init_scores s]> σ) = <[i := s]> (keys_of σ).
Proof. intros Hs. unfold keys_of. by rewrite fmap_insert, init_scores_keys. Qed.

Lemma score_at_init (σ : Scores) i s j u :
  score_at (<[i := init_scores s]> σ) j u =
    if decide (j = i) then (if decide (u ∈ s) then Some 0 else None) else score_at σ j u.
Proof.
  unfold score_at. destruct (decide (j = i)) as [->|Hj].
  - rewrite lookup_insert_eq. simpl. apply init_scores_get.
  - by rewrite lookup_insert_ne.
Qed.

Section position.
Variable Preferences : string → option (list Pref).
Variable VERBS_0 : gset string.
Variable SCORES : gmap string Z.
Variable finals : gmap nat (list Terminal).
Variable tokens : gmap nat Token.
Variable w_start i : nat.
Let s := finals_at finals i.
Hypothesis s_set : NoDup s.

(** The scores after the loop body at [i], in closed form. *)
Lemma score_position_spec (σ σ' : Scores) u0 :
  score_position Preferences VERBS_0 SCORES finals tokens w_start i σ = Ok (u0, σ') →
  keys_of σ' = <[i := s]> (keys_of σ)
  ∧ ((length s ≤ 1)%nat → σ' = <[i := init_scores s]> σ)
  ∧ ((1 < length s)%nat →
  ∃ tok, tokens !! i = Some tok
  ∧ ∀ j u, score_at σ' j u =
  (λ z, z + (if decide (j = i) then pref_adjust Preferences s tok u else 0)
  + Zsum ((λ t, heur_delta VERBS_0 SCORES (<[i := s]> (keys_of σ))
  finals w_start i s tok t j u) <$> s))
  <$> score_at (<[i := init_scores s]> σ) j u).
Proof.
  intros Hrun. unfold score_position in Hrun. fold s in Hrun.
  apply bind_Ok in Hrun as (u1 & σ0 & ->%modify_Ok & Hrun).
  pose proof (keys_of_init σ i s s_set) as Hinit.
  destruct (length s <=? 1)%nat eqn:Hle.
  - apply ret_Ok in Hrun as [_ ->]. apply Nat.leb_le in Hle.
    split; [done|]. split; [done|]. lia.
  - apply Nat.leb_gt in Hle.
    apply bind_Ok in Hrun as (tok & σ0 & [Htok ->]%or_raise_Ok & Hrun).
    apply bind_Ok in Hrun as (u2 & σ1 & Hprefs & Hrun).
    destruct (adds_check_preferences _ Preferences i s tok _ _ _ Hinit Hprefs)
      as [HK1 Hsc1].
    assert (Hloop := adds_for_each (<[i := s]> (keys_of σ)) s
      (heuristics VERBS_0 SCORES finals w_start i s tok)
      (heur_delta VERBS_0 SCORES (<[i := s]> (keys_of σ)) finals w_start i s tok)
      (λ t _, adds_heuristics VERBS_0 SCORES _ finals w_start i s tok t)).
    destruct (Hloop _ _ _ HK1 Hrun) as [HK2 Hsc2].
    split; [done|]. split; [lia|]. intros _. exists tok. split; [done|].
    intros j u. rewrite Hsc2, Hsc1.
    by destruct (score_at _ j u).
Qed.

(** At the position itself, for a member of the set. *)
Lemma score_position_here (σ σ' : Scores) u0 u :
  (1 < length s)%nat → u ∈ s →
  score_position Preferences VERBS_0 SCORES finals tokens w_start i σ = Ok (u0, σ') →
  ∃ tok, tokens !! i = Some tok
  ∧ score_at σ' i u =
  Some (pref_adjust Preferences s tok u
  + own_adjust VERBS_0 SCORES finals w_start i s tok u
  + (if is_ef_number u then - Z.of_nat (length (List.filter is_number s)) else 0)).
Proof.
  intros Hlen Hu Hrun.
  destruct (score_position_spec _ _ _ Hrun) as (_ & _ & Hsc).
  destruct (Hsc Hlen) as (tok & Htok & Hat). exists tok. split; [done|].
  rewrite Hat, score_at_init, !decide_True by done. simpl.
  rewrite heuristics_total_here by done. f_equal. lia.
Qed.

(** At the position before. *)
Lemma score_position_before (σ σ' : Scores) u0 u :
  (1 < length s)%nat → (0 < i)%nat →
  score_position Preferences VERBS_0 SCORES finals tokens w_start i σ = Ok (u0, σ') →
  score_at σ' (i - 1) u =
  (λ z, z + if nhm_before finals i
  then nhm_bonus (<[i := s]> (keys_of σ)) i (i - 1)%nat u
  * Z.of_nat (length (List.filter is_infinitive_verb s))
  else 0) <$> score_at σ (i - 1) u.
Proof.
  intros Hlen Hi Hrun.
  destruct (score_position_spec _ _ _ Hrun) as (_ & _ & Hsc).
  destruct (Hsc Hlen) as (tok & Htok & Hat).
  rewrite Hat, score_at_init, !decide_False by lia.
  rewrite heuristics_total_before by done.
  destruct (score_at σ _ u); simpl; f_equal. lia.
Qed.
End position.

(** ** Proper nouns *)

(** C6: at a position with more than one candidate terminal, a terminal of
    the category [sérnafn] ends with what the preference step gave it and,
    from the heuristics, +2 when the token has no meanings, else -6, or -10
    when the position is the first of the forest. *)
Theorem C6_proper_noun Preferences VERBS_0 SCORES finals tokens w_start i
    (σ σ' : Scores) t :
  let s := finals_at finals i in
  NoDup s → (1 < length s)%nat → t ∈ s →
  first t = "sérnafn" →
  score_position Preferences VERBS_0 SCORES finals tokens w_start i σ = Ok (tt, σ') →
  ∃ tok, tokens !! i = Some tok
    ∧ score_at σ' i t =
        Some (pref_adjust Preferences s tok t
              + match t2 tok with
                | [] => 2
                | _ :: _ => if (i =? w_start)%nat then -10 else -6
                end).
Proof.
  intros s Hs Hlen Ht Hfirst Hrun.
  destruct (score_position_here Preferences VERBS_0 SCORES finals tokens w_start i
              Hs σ σ' tt t Hlen Ht Hrun) as (tok & Htok & Hsc).
  exists tok. split; [done|]. rewrite Hsc. fold s. f_equal.
  unfold own_adjust, is_ef_number. rewrite Hfirst.
  cbn [String.eqb Ascii.eqb Bool.eqb orb andb].
  destruct (t2 tok); [lia|]. destruct (i =? w_start)%nat; lia.
Qed.

Lemma C6_proper_noun_witness :
  ∃ tok, Sample.name_tokens !! 0%nat = Some tok
    ∧ score_at {[ 0%nat := [(Sample.sernafn, -10); (Sample.no_hk, 0)] ]} 0 Sample.sernafn =
        Some (pref_adjust Sample.no_prefs (finals_at Sample.name_finals 0) tok Sample.sernafn
              + match t2 tok with
                | [] => 2
                | _ :: _ => if (0 =? 0)%nat then -10 else -6
                end).
Proof.
  apply (C6_proper_noun Sample.no_prefs ∅ ∅ Sample.name_finals Sample.name_tokens 0 0 ∅).
  - vm_compute. repeat constructor; set_solver.
  - vm_compute. lia.
  - vm_compute. left.
  - reflexivity.
  - vm_compute. reflexivity.
Defined.

(** ** Numbers *)

(** C4, as the code has it: at a position with more than one candidate
    terminal, a [tala] terminal gets -1 from the heuristics; a [töl]
    terminal with the variant [ef] gets -1 for each number terminal
    ([tala] or [töl]) among the candidates, and so does a noun terminal
    with the variant [ef], next to what it gets as a noun. *)
Theorem C4_number_rule Preferences VERBS_0 SCORES finals tokens w_start i
    (σ σ' : Scores) t :
  let s := finals_at finals i in
  let k := Z.of_nat (length (List.filter is_number s)) in
  NoDup s → (1 < length s)%nat → t ∈ s →
  score_position Preferences VERBS_0 SCORES finals tokens w_start i σ = Ok (tt, σ') →
  ∃ tok, tokens !! i = Some tok
    ∧ (first t = "tala" →
         score_at σ' i t = Some (pref_adjust Preferences s tok t - 1))
    ∧ (first t = "töl" →
         score_at σ' i t =
           Some (pref_adjust Preferences s tok t - if has_variant t "ef" then k else 0))
    ∧ (first t = "no" →
         score_at σ' i t =
           Some (pref_adjust Preferences s tok t + noun_adj t
                 - if has_variant t "ef" then k else 0)).
Proof.
  intros s k Hs Hlen Ht Hrun.
  destruct (score_position_here Preferences VERBS_0 SCORES finals tokens w_start i
              Hs σ σ' tt t Hlen Ht Hrun) as (tok & Htok & Hsc).
  exists tok. split; [done|]. fold s k in Hsc.
  split; [|split]; intros Hfirst; rewrite Hsc; f_equal;
    unfold own_adjust, is_ef_number, noun_adj; rewrite Hfirst;
    cbn [String.eqb Ascii.eqb Bool.eqb orb andb].
  - lia.
  - destruct (has_variant t "ef"); lia.
  - destruct (has_variant t "ef"), (is_singular t), (is_abbrev t); lia.
Qed.

Lemma C4_number_rule_witness :
  ∃ tok, Sample.number_tokens !! 0%nat = Some tok
    ∧ (first Sample.tol_ef = "tala" →
         score_at {[ 0%nat := [(Sample.tala, -1); (Sample.tol_ef, -2)] ]} 0 Sample.tol_ef =
           Some (pref_adjust Sample.no_prefs (finals_at Sample.number_finals 0) tok
                   Sample.tol_ef - 1))
    ∧ (first Sample.tol_ef = "töl" →
         score_at {[ 0%nat := [(Sample.tala, -1); (Sample.tol_ef, -2)] ]} 0 Sample.tol_ef =
           Some (pref_adjust Sample.no_prefs (finals_at Sample.number_finals 0) tok
                   Sample.tol_ef
                 - if has_variant Sample.tol_ef "ef"
                   then Z.of_nat (length (List.filter is_number
                                            (finals_at Sample.number_finals 0)))
                   else 0))
    ∧ (first Sample.tol_ef = "no" →
         score_at {[ 0%nat := [(Sample.tala, -1); (Sample.tol_ef, -2)] ]} 0 Sample.tol_ef =
           Some (pref_adjust Sample.no_prefs (finals_at Sample.number_finals 0) tok
                   Sample.tol_ef + noun_adj Sample.tol_ef
                 - if has_variant Sample.tol_ef "ef"
                   then Z.of_nat (length (List.filter is_number
                                            (finals_at Sample.number_finals 0)))
                   else 0)).
Proof.
  apply (C4_number_rule Sample.no_prefs ∅ ∅ Sample.number_finals Sample.number_tokens
           0 0 ∅).
  - vm_compute. repeat constructor; set_solver.
  - vm_compute. lia.
  - vm_compute. right. left.
  - vm_compute. reflexivity.
Defined.

(** C4, as the specification has it, fails: with a [tala] and a [töl]
    terminal in the genitive as the candidates, the [töl] terminal gets -1
    twice, once for each of the two number terminals, and ends at -2. *)
Lemma C4_number_rule_counterexample : ¬ spec_number_rule_once.
Proof.
  intros Hspec.
  specialize (Hspec Sample.no_prefs ∅ ∅ Sample.number_finals Sample.number_tokens
                0%nat 0%nat ∅ {[ 0%nat := [(Sample.tala, -1); (Sample.tol_ef, -2)] ]}
                Sample.tveggja Sample.tol_ef).
  simpl in Hspec. 
  assert (Hfalse : score_at {[ 0%nat := [(Sample.tala, -1); (Sample.tol_ef, -2)] ]} 0
                     Sample.tol_ef = Some (-1)).
  { rewrite Hspec.
    - vm_compute. reflexivity.
    - vm_compute. repeat constructor; set_solver.
    - reflexivity.
    - exists Sample.tala. split; [vm_compute; left|reflexivity].
    - vm_compute. right. left.
    - reflexivity.
    - vm_compute. reflexivity. }
  vm_compute in Hfalse. discriminate.
Qed.

(** ** The loop over the positions *)

Section positions.
Variable Preferences : string → option (list Pref).
Variable VERBS_0 : gset string.
Variable SCORES : gmap string Z.
Variable finals : gmap nat (list Terminal).
Variable tokens : gmap nat Token.
Variable w_start : nat.
Hypothesis finals_sets : ∀ j, NoDup (finals_at finals j).

(** After the positions from [a] on, [n] of them, each has the terminals
    found for it as its keys; the keys elsewhere are as before. *)
Lemma score_positions_keys n : ∀ a (σ σ' : Scores) u0,
  for_each (seq a n) (score_position Preferences VERBS_0 SCORES finals tokens w_start) σ
  = Ok (u0, σ') →
  ∀ j, keys_of σ' !! j =
  if decide (a ≤ j < a + n)%nat then Some (finals_at finals j) else keys_of σ !! j.
Proof.
  induction n as [|n IH]; intros a σ σ' u0 Hrun j; simpl in Hrun.
  - apply ret_Ok in Hrun as [_ ->]. rewrite decide_False by lia. done.
  - apply bind_Ok in Hrun as (u1 & σ1 & Hpos & Hrun).
    apply score_position_spec in Hpos as (HK & _); [|done].
    rewrite (IH _ _ _ _ Hrun j), HK.
    destruct (decide (j = a)) as [->|Hne].
    + rewrite lookup_insert_eq. rewrite (decide_False (P := (S a ≤ a < _)%nat)) by lia.
      rewrite decide_True by lia. done.
    + rewrite lookup_insert_ne by done. repeat case_decide; try done; lia.
Qed.
End positions.

(** ** Infinitives *)

(** A list without an [nhm] terminal. *)
Lemma find_nhm_None (l : list Terminal) :
  List.find is_nhm l = None → existsb is_nhm l = false.
Proof.
  intros Hfind. destruct (existsb is_nhm l) eqn:Hex; [|done].
  apply existsb_exists in Hex as (x & Hin & Hx).
  by rewrite (find_none _ _ Hfind x Hin) in Hx.
Qed.

(** C7: let the loop have scored the positions from the start of the
    forest up to [i - 1], and let it score the position [i], with more
    than one candidate.  Take a verb terminal [t] in the infinitive at
    [i].

    When there is an [nhm] terminal among the candidates at [i - 1], [pt]
    the first of them: the heuristics for [t], run from any store with the
    keys of that moment, add to [t] what the other verb heuristics give, 4
    more, and again 4 more when a plural noun in the genitive is among the
    candidates at [i]; and they add 2 to [pt] at [i - 1].  So after the
    position [i], [t] has this next to what the preference step gave it,
    the score of [pt] has grown by 2 for each verb terminal in the
    infinitive at [i], and no other score at [i - 1] has changed.

    When there is no [nhm] terminal among the candidates at [i - 1]: the
    heuristics for [t] add to [t] what the other verb heuristics give, and
    still 4 more when a plural noun in the genitive is among the
    candidates at [i]; no score at [i - 1] changes. *)
Theorem C7_infinitive_after_marker Preferences VERBS_0 SCORES finals tokens
    (w_start n : nat) (σ σ' : Scores) t :
  let i := (w_start + S n)%nat in
  let s := finals_at finals i in
  let prev := finals_at finals (i - 1) in
  (∀ j, NoDup (finals_at finals j)) →
  for_each (seq w_start (S n))
    (score_position Preferences VERBS_0 SCORES finals tokens w_start) ∅ = Ok (tt, σ) →
  score_position Preferences VERBS_0 SCORES finals tokens w_start i σ = Ok (tt, σ') →
  (1 < length s)%nat → t ∈ s →
  first t = "so" → is_nh t = true →
  ∃ tok,
    tokens !! i = Some tok
    ∧ match List.find is_nhm prev with
      | Some pt =>
          ∃ z,
            score_at σ (i - 1) pt = Some z
            ∧ (∀ (σa σb : Scores),
                 keys_of σa = <[i := s]> (keys_of σ) →
                 heuristics VERBS_0 SCORES finals w_start i s tok t σa = Ok (tt, σb) →
                 score_at σb i t =
                   (λ y, y + (verb_arguments_adj VERBS_0 SCORES tok t + verb_form_adj t
                              + verb_subject_adj t
                              + 4 + (if existsb is_noun_ef_ft s then 4 else 0)))
                   <$> score_at σa i t
                 ∧ score_at σb (i - 1) pt = (λ y, y + 2) <$> score_at σa (i - 1) pt)
            ∧ score_at σ' i t =
                Some (pref_adjust Preferences s tok t
                      + verb_arguments_adj VERBS_0 SCORES tok t + verb_form_adj t
                      + verb_subject_adj t
                      + 4 + (if existsb is_noun_ef_ft s then 4 else 0))
            ∧ score_at σ' (i - 1) pt =
                Some (z + 2 * Z.of_nat (length (List.filter is_infinitive_verb s)))
            ∧ ∀ u, u ≠ pt → score_at σ' (i - 1) u = score_at σ (i - 1) u
      | None =>
          (∀ (σa σb : Scores),
             keys_of σa = <[i := s]> (keys_of σ) →
             heuristics VERBS_0 SCORES finals w_start i s tok t σa = Ok (tt, σb) →
             score_at σb i t =
               (λ y, y + (verb_arguments_adj VERBS_0 SCORES tok t + verb_form_adj t
                          + verb_subject_adj t
                          + (if existsb is_noun_ef_ft s then 4 else 0)))
               <$> score_at σa i t
             ∧ ∀ u, score_at σb (i - 1) u = score_at σa (i - 1) u)
          ∧ score_at σ' i t =
              Some (pref_adjust Preferences s tok t
                    + verb_arguments_adj VERBS_0 SCORES tok t + verb_form_adj t
                    + verb_subject_adj t
                    + (if existsb is_noun_ef_ft s then 4 else 0))
          ∧ ∀ u, score_at σ' (i - 1) u = score_at σ (i - 1) u
      end.
Proof.
  intros i s prev Hsets Hbefore Hrun Hlen Ht Hfirst Hnh.
  assert (Hi : (0 < i)%nat) by (unfold i; lia).
  pose proof (score_positions_keys Preferences VERBS_0 SCORES finals tokens w_start
                Hsets _ _ _ _ _ Hbefore (i - 1)%nat) as Hkeys.
  rewrite decide_True in Hkeys by (unfold i; lia). fold prev in Hkeys.
  destruct (score_position_here Preferences VERBS_0 SCORES finals tokens w_start i
              (Hsets i) σ σ' tt t Hlen Ht Hrun) as (tok & Htok & Hsc).
  exists tok. split; [done|].
  destruct (List.find is_nhm prev) as [pt|] eqn:Hfind.
  - assert (Hnhm : nhm_before finals i = true).
    { unfold nhm_before. apply andb_true_iff. split; [by apply Nat.ltb_lt|].
      fold prev. apply find_some in Hfind as [Hin Hpt].
      apply existsb_exists. eauto. }
    assert (Hbonus : ∀ u, nhm_bonus (<[i := s]> (keys_of σ)) i (i - 1)%nat u
                          = if decide (u = pt) then 2 else 0).
    { intros u. unfold nhm_bonus. rewrite lookup_insert_ne by lia.
      rewrite Hkeys. simpl. rewrite Hfind. unfold at_place.
      repeat case_decide; naive_solver. }
    assert (Hz : is_Some (score_at σ (i - 1) pt)).
    { unfold score_at. unfold keys_of in Hkeys. rewrite lookup_fmap in Hkeys.
      destruct (σ !! (i - 1)%nat) as [sc0|]; [|done]. simpl in *.
      apply dict_get_is_Some. injection Hkeys as ->.
      apply find_some in Hfind as [Hin _]. by apply list_elem_of_In. }
    destruct Hz as [z Hz].
    assert (Hown : own_adjust VERBS_0 SCORES finals w_start i s tok t =
                   verb_arguments_adj VERBS_0 SCORES tok t + verb_form_adj t
                   + verb_subject_adj t + 4 + (if existsb is_noun_ef_ft s then 4 else 0)).
    { unfold own_adjust, verb_infinitive_adj. rewrite Hfirst, Hnh, Hnhm.
      cbn [String.eqb Ascii.eqb Bool.eqb orb andb]. lia. }
    exists z. split; [done|]. split; [|split; [|split]].
    + intros σa σb Hka Hstep.
      destruct (adds_heuristics VERBS_0 SCORES _ finals w_start i s tok t σa σb tt Hka Hstep)
        as [_ Hat].
      rewrite !Hat. unfold heur_delta, is_number, is_infinitive_verb.
      rewrite Hown, Hfirst, Hnh, Hnhm, Hbonus, nhm_bonus_here by done.
      cbn [String.eqb Ascii.eqb Bool.eqb orb andb]. unfold at_place.
      rewrite decide_True by done. rewrite decide_False by lia.
      rewrite decide_True by done. split.
      * destruct (score_at σa i t); simpl; f_equal. lia.
      * destruct (score_at σa (i - 1) pt); simpl; f_equal.
    + rewrite Hsc. fold s. f_equal. rewrite Hown.
      unfold is_ef_number. rewrite Hfirst.
      cbn [String.eqb Ascii.eqb Bool.eqb orb andb]. lia.
    + rewrite (score_position_before Preferences VERBS_0 SCORES finals tokens w_start i
                 (Hsets i) σ σ' tt pt Hlen Hi Hrun).
      rewrite Hz, Hnhm, Hbonus, decide_True by done. simpl. f_equal.
    + intros u Hu.
      rewrite (score_position_before Preferences VERBS_0 SCORES finals tokens w_start i
                 (Hsets i) σ σ' tt u Hlen Hi Hrun).
      rewrite Hnhm, Hbonus, decide_False by done.
      destruct (score_at σ (i - 1) u); simpl; f_equal. lia.
  - assert (Hnhm : nhm_before finals i = false).
    { unfold nhm_before. fold prev. rewrite (find_nhm_None _ Hfind).
      apply andb_false_r. }
    assert (Hown : own_adjust VERBS_0 SCORES finals w_start i s tok t =
                   verb_arguments_adj VERBS_0 SCORES tok t + verb_form_adj t
                   + verb_subject_adj t + (if existsb is_noun_ef_ft s then 4 else 0)).
    { unfold own_adjust, verb_infinitive_adj. rewrite Hfirst, Hnh, Hnhm.
      cbn [String.eqb Ascii.eqb Bool.eqb orb andb]. lia. }
    split; [|split].
    + intros σa σb Hka Hstep.
      destruct (adds_heuristics VERBS_0 SCORES _ finals w_start i s tok t σa σb tt Hka Hstep)
        as [_ Hat].
      split; [|intros u]; rewrite Hat; unfold heur_delta, is_number, is_infinitive_verb;
        rewrite Hown, Hfirst, Hnh, Hnhm;
        cbn [String.eqb Ascii.eqb Bool.eqb orb andb]; unfold at_place.
      * rewrite decide_True by done.
        destruct (score_at σa i t); simpl; f_equal. lia.
      * rewrite decide_False by lia.
        destruct (score_at σa (i - 1) u); simpl; f_equal. lia.
    + rewrite Hsc. fold s. f_equal. rewrite Hown.
      unfold is_ef_number. rewrite Hfirst.
      cbn [String.eqb Ascii.eqb Bool.eqb orb andb]. lia.
    + intros u.
      rewrite (score_position_before Preferences VERBS_0 SCORES finals tokens w_start i
                 (Hsets i) σ σ' tt u Hlen Hi Hrun).
      rewrite Hnhm. destruct (score_at σ (i - 1) u); simpl; f_equal. lia.
Qed.

(** Both cases on the samples: after the marker the verb has 11 and the
    marker 2; with the preposition alone before it the verb has 7, the
    noun bonus among them, and the preposition keeps its score. *)
Lemma C7_infinitive_after_marker_witness :
  (let σ : Scores := {[ 0%nat := [(Sample.nhm, 0); (Sample.fs_thf, 2)] ]} in
   let σ' : Scores := {[ 0%nat := [(Sample.nhm, 2); (Sample.fs_thf, 2)];
                         1%nat := [(Sample.so_nh, 11); (Sample.no_ef_ft, 0)] ]} in
   let s := finals_at Sample.inf_finals 1 in
   ∃ tok,
     Sample.inf_tokens !! 1%nat = Some tok
     ∧ ∃ z,
         score_at σ 0 Sample.nhm = Some z
         ∧ (∀ (σa σb : Scores),
              keys_of σa = <[1%nat := s]> (keys_of σ) →
              heuristics ∅ Sample.verb_scores Sample.inf_finals 0 1 s tok Sample.so_nh σa
                = Ok (tt, σb) →
              score_at σb 1 Sample.so_nh =
                (λ y, y + (verb_arguments_adj ∅ Sample.verb_scores tok Sample.so_nh
                           + verb_form_adj Sample.so_nh + verb_subject_adj Sample.so_nh
                           + 4 + (if existsb is_noun_ef_ft s then 4 else 0)))
                <$> score_at σa 1 Sample.so_nh
              ∧ score_at σb 0 Sample.nhm = (λ y, y + 2) <$> score_at σa 0 Sample.nhm)
         ∧ score_at σ' 1 Sample.so_nh =
             Some (pref_adjust Sample.no_prefs s tok Sample.so_nh
                   + verb_arguments_adj ∅ Sample.verb_scores tok Sample.so_nh
                   + verb_form_adj Sample.so_nh + verb_subject_adj Sample.so_nh
                   + 4 + (if existsb is_noun_ef_ft s then 4 else 0))
         ∧ score_at σ' 0 Sample.nhm =
             Some (z + 2 * Z.of_nat (length (List.filter is_infinitive_verb s)))
         ∧ ∀ u, u ≠ Sample.nhm → score_at σ' 0 u = score_at σ 0 u)
  ∧ (let σ : Scores := {[ 0%nat := [(Sample.fs_thf, 0)] ]} in
     let σ' : Scores := {[ 0%nat := [(Sample.fs_thf, 0)];
                           1%nat := [(Sample.so_nh, 7); (Sample.no_ef_ft, 0)] ]} in
     let s := finals_at Sample.bare_finals 1 in
     ∃ tok,
       Sample.inf_tokens !! 1%nat = Some tok
       ∧ (∀ (σa σb : Scores),
            keys_of σa = <[1%nat := s]> (keys_of σ) →
            heuristics ∅ Sample.verb_scores Sample.bare_finals 0 1 s tok Sample.so_nh σa
              = Ok (tt, σb) →
            score_at σb 1 Sample.so_nh =
              (λ y, y + (verb_arguments_adj ∅ Sample.verb_scores tok Sample.so_nh
                         + verb_form_adj Sample.so_nh + verb_subject_adj Sample.so_nh
                         + (if existsb is_noun_ef_ft s then 4 else 0)))
              <$> score_at σa 1 Sample.so_nh
            ∧ ∀ u, score_at σb 0 u = score_at σa 0 u)
       ∧ score_at σ' 1 Sample.so_nh =
           Some (pref_adjust Sample.no_prefs s tok Sample.so_nh
                 + verb_arguments_adj ∅ Sample.verb_scores tok Sample.so_nh
                 + verb_form_adj Sample.so_nh + verb_subject_adj Sample.so_nh
                 + (if existsb is_noun_ef_ft s then 4 else 0))
       ∧ ∀ u, score_at σ' 0 u = score_at σ 0 u).
Proof.
  split.
  - apply (C7_infinitive_after_marker Sample.no_prefs ∅ Sample.verb_scores
             Sample.inf_finals Sample.inf_tokens 0 0
             {[ 0%nat := [(Sample.nhm, 0); (Sample.fs_thf, 2)] ]}
             {[ 0%nat := [(Sample.nhm, 2); (Sample.fs_thf, 2)];
                1%nat := [(Sample.so_nh, 11); (Sample.no_ef_ft, 0)] ]}
             Sample.so_nh).
    + intros j. unfold finals_at, Sample.inf_finals.
      destruct (decide (j = 0%nat)) as [->|H0].
      { vm_compute. repeat constructor; set_solver. }
      destruct (decide (j = 1%nat)) as [->|H1].
      { vm_compute. repeat constructor; set_solver. }
      rewrite lookup_insert_ne, lookup_singleton_ne by done. apply NoDup_nil_2.
    + vm_compute. reflexivity.
    + vm_compute. reflexivity.
    + vm_compute. lia.
    + vm_compute. left.
    + reflexivity.
    + reflexivity.
  - apply (C7_infinitive_after_marker Sample.no_prefs ∅ Sample.verb_scores
             Sample.bare_finals Sample.inf_tokens 0 0
             {[ 0%nat := [(Sample.fs_thf, 0)] ]}
             {[ 0%nat := [(Sample.fs_thf, 0)];
                1%nat := [(Sample.so_nh, 7); (Sample.no_ef_ft, 0)] ]}
             Sample.so_nh).
    + intros j. unfold finals_at, Sample.bare_finals.
      destruct (decide (j = 0%nat)) as [->|H0].
      { vm_compute. repeat constructor; set_solver. }
      destruct (decide (j = 1%nat)) as [->|H1].
      { vm_compute. repeat constructor; set_solver. }
      rewrite lookup_insert_ne, lookup_singleton_ne by done. apply NoDup_nil_2.
    + vm_compute. reflexivity.
    + vm_compute. reflexivity.
    + vm_compute. lia.
    + vm_compute. left.
    + reflexivity.
    + reflexivity.
Defined.

(** ** The walk *)

Lemma Node_induction_nested (P : Node → Prop) :
  (∀ d, P (TokenNode d)) →
  (∀ d fams,
     Forall (λ fam, Forall (λ c, ∀ n, c = Some n → P n) fam.2) fams →
     P (NonterminalNode d fams)) →
  ∀ w, P w.
Proof.
  intros Htoken Hnt.
  fix IH 1. intros [d|d fams]; [apply Htoken|].
  apply Hnt.
  induction fams as [|[prod children] fams IHfams]; constructor; [|exact IHfams].
  simpl. induction children as [|c children IHc]; constructor; [|exact IHc].
  intros n Hn. destruct c as [m|]; [|discriminate Hn].
  injection Hn as <-. apply IH.
Qed.

(** Induction on a node, with the property at hand for every child. *)
Lemma Node_induction (P : Node → Prop) :
  (∀ d, P (TokenNode d)) →
  (∀ d fams, (∀ n, Some n ∈ children_of fams → P n) → P (NonterminalNode d fams)) →
  ∀ w, P w.
Proof.
  intros Htoken Hnt. apply Node_induction_nested; [done|].
  intros d fams Hall. apply Hnt. intros n Hn.
  apply list_elem_of_In, in_flat_map in Hn as ([prod children] & Hfam & Hn).
  apply list_elem_of_In in Hfam, Hn.
  rewrite Forall_forall in Hall. specialize (Hall _ Hfam). simpl in *.
  rewrite Forall_forall in Hall. by apply (Hall _ Hn).
Qed.

Lemma nodes_nonterminal d fams :
  nodes (NonterminalNode d fams) =
    NonterminalNode d fams :: flat_map (under nodes) (children_of fams).
Proof.
  simpl. f_equal. unfold children_of.
  induction fams as [|[prod children] fams IH]; simpl; [done|].
  by rewrite flat_map_app, IH.
Qed.

Lemma nodes_self w : w ∈ nodes w.
Proof. destruct w; left. Qed.

Lemma nodes_child d fams n u :
  Some n ∈ children_of fams → u ∈ nodes n → u ∈ nodes (NonterminalNode d fams).
Proof.
  intros Hn Hu. rewrite nodes_nonterminal. right.
  apply list_elem_of_In, in_flat_map. exists (Some n).
  split; by apply list_elem_of_In.
Qed.

Lemma nodes_trans w : ∀ n u, n ∈ nodes w → u ∈ nodes n → u ∈ nodes w.
Proof.
  induction w as [d|d fams IH] using Node_induction; intros n u Hn Hu.
  - apply list_elem_of_singleton in Hn as ->. done.
  - rewrite nodes_nonterminal in Hn. apply elem_of_cons in Hn as [->|Hn]; [done|].
    apply list_elem_of_In, in_flat_map in Hn as ([c|] & Hc & Hn); [|done].
    apply list_elem_of_In in Hc, Hn. simpl in Hn.
    eapply nodes_child; [done|]. eapply IH; eauto.
Qed.

Section walk_facts.
Context {S R Acc : Type} (nav : Navigator S R Acc).

Lemma nav_node_eq w : nav_node nav w = memoized (node_key (Some w)) (node_body nav w).
Proof. by destruct w. Qed.

Lemma memoized_hit k (body : M (@NavState S R) R) (st : @NavState S R) v :
  st.1 !! k = Some v → memoized k body st = Ok (v, st).
Proof.
  intros Hk. destruct st as [visited σ]. unfold memoized, bind, memo_lookup.
  simpl in *. by rewrite Hk.
Qed.

Lemma memoized_miss k (body : M (@NavState S R) R) (st : @NavState S R) :
  st.1 !! k = None →
  memoized k body st =
  match body st with
  | Ok (v, st') => Ok (v, (<[k := v]> st'.1, st'.2))
  | Raise e => Raise e
  end.
Proof.
  intros Hk. destruct st as [visited σ]. unfold memoized, bind at 1, memo_lookup.
  simpl in *. rewrite Hk. unfold bind.
  destruct (body (visited, σ)) as [[v [visited' σ']]|e]; done.
Qed.
End walk_facts.

(** ** No missing score in the reducing walk *)

Lemma no_KeyError_ret {S A} (a : A) : no_KeyError (ret (S:=S) a).
Proof. intros σ. done. Qed.

Lemma no_KeyError_bind {S A B} (m : M S A) (f : A → M S B) :
  no_KeyError m → (∀ a, no_KeyError (f a)) → no_KeyError (bind m f).
Proof.
  intros Hm Hf σ. unfold bind. specialize (Hm σ).
  destruct (m σ) as [[a σ']|e]; [apply Hf|congruence].
Qed.

Lemma no_KeyError_lift_hook {S R A} (m : M S A) :
  no_KeyError m → no_KeyError (lift_hook (R:=R) m).
Proof.
  intros Hm [visited σ]. unfold lift_hook. specialize (Hm σ).
  destruct (m σ) as [[a σ']|e]; [done|congruence].
Qed.

Lemma no_KeyError_memoized {S R} k (body : M (@NavState S R) R) :
  no_KeyError body → no_KeyError (memoized k body).
Proof.
  intros Hbody. unfold memoized. apply no_KeyError_bind.
  - intros [visited σ]. done.
  - intros [v|]; [apply no_KeyError_ret|].
    apply no_KeyError_bind; [done|]. intros v.
    apply no_KeyError_bind; [|intros; apply no_KeyError_ret].
    intros [visited σ]. done.
Qed.

Section no_missing_score.
Variable nt_scores : gmap string Z.
Variable scores : Scores.
Let PFR := ParseForestReducer nt_scores scores.

Lemma no_KeyError_process_results results d :
  no_KeyError (process_results nt_scores results d).
Proof.
  unfold process_results. apply no_KeyError_bind.
  - destruct (use_prio results); [|apply no_KeyError_ret].
    unfold highest_only. destruct (highest_ix results); [apply no_KeyError_ret|].
    destruct (sc results); [apply no_KeyError_ret|]. intros σ. done.
  - intros csc. apply no_KeyError_bind.
    + destruct (_ && _).
      * destruct csc as [|[ix score] [|? ?]]; try (intros σ; done).
      * destruct (sorted_desc csc) as [|[ix score] rest]; [intros σ; done|].
        apply no_KeyError_bind; [intros σ; done|]. intros; apply no_KeyError_ret.
    + intros score. destruct (nt results); apply no_KeyError_ret.
Qed.

Lemma no_KeyError_each_child visit ix cs : ∀ results,
  (∀ c, c ∈ cs → no_KeyError (visit c)) →
  no_KeyError (each_child PFR visit ix cs results).
Proof.
  induction cs as [|c cs IH]; intros results Hvisit; simpl.
  - apply no_KeyError_ret.
  - apply no_KeyError_bind; [apply Hvisit; left|]. intros r.
    apply no_KeyError_bind.
    + apply no_KeyError_lift_hook, no_KeyError_ret.
    + intros results'. apply IH. intros c' Hc'. apply Hvisit. by right.
Qed.

Lemma no_KeyError_each_family visit d fams : ∀ ix results,
  (∀ c, c ∈ children_of fams → no_KeyError (visit c)) →
  no_KeyError (each_family PFR visit d ix fams results).
Proof.
  induction fams as [|[prod children] fams IH]; intros ix results Hvisit; simpl.
  - apply no_KeyError_ret.
  - apply no_KeyError_bind.
    { apply no_KeyError_lift_hook, no_KeyError_ret. }
    intros results1. apply no_KeyError_bind.
    + apply no_KeyError_each_child. intros c Hc. apply Hvisit.
      unfold children_of. simpl. apply elem_of_app. by left.
    + intros results2. apply IH. intros c Hc. apply Hvisit.
      unfold children_of. simpl. apply elem_of_app. by right.
Qed.

(** With a score for every token node, the walk raises no [KeyError]. *)
Lemma no_KeyError_nav_node w :
  (∀ d, TokenNode d ∈ nodes w → is_Some (score_at scores (tk_start d) (terminal d))) →
  no_KeyError (nav_node PFR w).
Proof.
  induction w as [d|d fams IH] using Node_induction; intros Hscores;
    rewrite nav_node_eq; apply no_KeyError_memoized; simpl.
  - apply no_KeyError_lift_hook. simpl.
    destruct (Hscores d (nodes_self _)) as [z Hz]. unfold score_at in Hz.
    rewrite Hz. apply no_KeyError_ret.
  - apply no_KeyError_bind; [apply no_KeyError_lift_hook, no_KeyError_ret|].
    intros results. apply no_KeyError_bind.
    + apply no_KeyError_each_family. intros [n|] Hc.
      * apply IH; [done|]. intros d' Hd'. apply Hscores. by eapply nodes_child.
      * simpl. unfold nav_epsilon. apply no_KeyError_memoized.
        apply no_KeyError_lift_hook, no_KeyError_ret.
    + intros results'. apply no_KeyError_lift_hook, no_KeyError_process_results.
Qed.
End no_missing_score.

(** ** The first walk *)

Lemma extends_refl st : extends st st.
Proof. done. Qed.

Lemma extends_trans st1 st2 st3 : extends st1 st2 → extends st2 st3 → extends st1 st3.
Proof. intros (? & ? & ?) (? & ? & ?). unfold extends. naive_solver. Qed.

Lemma elem_of_set_add {A} `{EqDecision A} (x y : A) (l : list A) :
  x ∈ set_add y l ↔ x = y ∨ x ∈ l.
Proof.
  unfold set_add. case_bool_decide as Hy.
  - split; [auto|]. intros [->|?]; done.
  - rewrite elem_of_app, list_elem_of_singleton. tauto.
Qed.

Lemma NoDup_set_add {A} `{EqDecision A} (y : A) (l : list A) :
  NoDup l → NoDup (set_add y l).
Proof.
  intros Hl. unfold set_add. case_bool_decide as Hy; [done|].
  apply NoDup_app. split; [done|]. split; [|apply NoDup_singleton].
  intros x Hx ->%list_elem_of_singleton. done.
Qed.

Lemma finals_at_insert (finals : gmap nat (list Terminal)) i l j :
  finals_at (<[i := l]> finals) j = if decide (j = i) then l else finals_at finals j.
Proof.
  unfold finals_at. destruct (decide (j = i)) as [->|Hne].
  - by rewrite lookup_insert_eq.
  - by rewrite lookup_insert_ne.
Qed.

Section finder.
Variable root : Node.
Hypothesis root_ids : wf_ids root.

Lemma finds_ret : finds root (ret tt) [].
Proof.
  intros st Hinv. exists st. split; [done|]. split; [done|].
  split; [apply extends_refl|]. intros n Hn. by apply elem_of_nil in Hn.
Qed.

Lemma finds_bind (m1 : M (@NavState FinderState unit) unit) (m2 : unit → M NavState unit)
  cs1 cs2 :
  finds root m1 cs1 → finds root (m2 tt) cs2 → finds root (bind m1 m2) (cs1 ++ cs2).
Proof.
  intros H1 H2 st Hinv.
  destruct (H1 st Hinv) as (st1 & Hrun1 & Hinv1 & Hext1 & Hvis1).
  destruct (H2 st1 Hinv1) as (st2 & Hrun2 & Hinv2 & Hext2 & Hvis2).
  exists st2. split.
  { unfold bind. rewrite Hrun1. done. }
  split; [done|]. split; [by eapply extends_trans|].
  intros n [Hn|Hn]%elem_of_app; [|by apply Hvis2].
  apply Hext2. by apply Hvis1.
Qed.

Lemma finds_epsilon : finds root (nav_epsilon OptionFinder) [None].
Proof.
  intros [visited σ] Hinv. unfold nav_epsilon.
  destruct (visited !! None) as [[]|] eqn:Hseen.
  - rewrite (memoized_hit _ _ _ tt) by done. exists (visited, σ).
    split; [done|]. split; [done|]. split; [apply extends_refl|].
    intros n Hn. apply list_elem_of_singleton in Hn. done.
  - rewrite memoized_miss by done. simpl.
    exists (<[None := tt]> visited, σ). split; [done|].
    split; [|split].
    + destruct Hinv as [Hrec Hfrom]. split; [|done].
      intros u Hu Hvis. simpl in *. apply Hrec; [done|].
      rewrite lookup_insert_ne in Hvis; [done|]. by destruct u.
    + split; [|done]. intros k Hk. simpl in *.
      destruct (decide (k = None)) as [->|Hne].
      * rewrite lookup_insert_eq. eauto.
      * by rewrite lookup_insert_ne.
    + intros n Hn. apply list_elem_of_singleton in Hn. done.
Qed.

Lemma finds_each_child visit ix cs :
  (∀ c, c ∈ cs → finds root (visit c) [c]) →
  finds root (each_child OptionFinder visit ix cs tt) cs.
Proof.
  induction cs as [|c cs IH]; intros Hvisit; simpl.
  - apply finds_ret.
  - change (c :: cs) with ([c] ++ cs). apply finds_bind; [apply Hvisit; left|].
    apply (finds_bind _ _ [] cs).
    + intros [visited σ] Hinv. exists (visited, σ). split; [done|]. split; [done|].
      split; [apply extends_refl|]. intros n Hn. by apply elem_of_nil in Hn.
    + apply IH. intros c' Hc'. apply Hvisit. by right.
Qed.

Lemma finds_each_family visit d fams : ∀ ix,
  (∀ c, c ∈ children_of fams → finds root (visit c) [c]) →
  finds root (each_family OptionFinder visit d ix fams tt) (children_of fams).
Proof.
  induction fams as [|[prod children] fams IH]; intros ix Hvisit; simpl.
  - apply finds_ret.
  - apply (finds_bind _ _ [] (children ++ children_of fams)).
    { intros [visited σ] Hinv. exists (visited, σ). split; [done|]. split; [done|].
      split; [apply extends_refl|]. intros n Hn. by apply elem_of_nil in Hn. }
    apply finds_bind.
    + apply finds_each_child. intros c Hc. apply Hvisit.
      unfold children_of. simpl. apply elem_of_app. by left.
    + apply IH. intros c Hc. apply Hvisit.
      unfold children_of. simpl. apply elem_of_app. by right.
Qed.

(** The first walk at a token node that is not visited yet. *)
Lemma finds_token d :
  TokenNode d ∈ nodes root →
  finds root (nav_node OptionFinder (TokenNode d)) [Some (TokenNode d)].
Proof.
  intros Hw [visited [finals tokens]] Hinv. rewrite nav_node_eq.
  destruct (visited !! node_key (Some (TokenNode d))) as [[]|] eqn:Hseen.
  { rewrite (memoized_hit _ _ _ tt) by done. eexists. split; [done|].
    split; [done|]. split; [apply extends_refl|].
    intros n ->%list_elem_of_singleton%(inj Some). simpl in *. rewrite Hseen. eauto. }
  rewrite memoized_miss by done. simpl in *.
  set (finals' := <[tk_start d := set_add (terminal d) (finals_at finals (tk_start d))]> finals).
  set (tokens' := <[tk_start d := token d]> tokens).
  exists (<[Some (tk_id d) := tt]> visited, (finals', tokens')).
  split; [done|].
  assert (Hgrow : ∀ i t, t ∈ finals_at finals i → t ∈ finals_at finals' i).
  { intros i t Ht. unfold finals'. rewrite finals_at_insert.
    case_decide as Hi; [subst i|done]. apply elem_of_set_add. by right. }
  assert (Hgrow' : ∀ i, is_Some (tokens !! i) → is_Some (tokens' !! i)).
  { intros i Hi. unfold tokens'. destruct (decide (i = tk_start d)) as [->|Hne].
    - rewrite lookup_insert_eq. eauto.
    - by rewrite lookup_insert_ne. }
  destruct Hinv as [Hrec [Hsets Hfrom]]. simpl in *.
  split; [split; [|split]|split; [split; [|split]|]]; simpl.
  - intros u Hu Hvis.
    destruct (decide (node_key (Some u) = Some (tk_id d))) as [Heq|Hne].
    + assert (u = TokenNode d) as -> by (by apply root_ids).
      intros d' Hd'%list_elem_of_singleton. injection Hd' as ->. simpl. split.
      * unfold finals'. rewrite finals_at_insert, decide_True by done.
        apply elem_of_set_add. by left.
      * unfold tokens'. rewrite lookup_insert_eq. eauto.
    + rewrite lookup_insert_ne in Hvis by done.
      intros d' Hd'. destruct (Hrec u Hu Hvis d' Hd') as [Hin Htok]. auto.
  - intros i. unfold finals'. rewrite finals_at_insert.
    case_decide; [by apply NoDup_set_add|done].
  - intros i t. unfold finals'. rewrite finals_at_insert.
    case_decide as Hi; [|by apply Hfrom]. subst i.
    intros [->|Hin]%elem_of_set_add; [by exists d|by apply Hfrom].
  - intros k Hk. destruct (decide (k = Some (tk_id d))) as [->|Hne].
    + rewrite lookup_insert_eq. eauto.
    + by rewrite lookup_insert_ne.
  - done.
  - done.
  - intros n ->%list_elem_of_singleton%(inj Some). simpl.
    rewrite lookup_insert_eq. eauto.
Qed.

(** The first walk at a nonterminal node whose children it handles. *)
Lemma finds_nonterminal d fams :
  NonterminalNode d fams ∈ nodes root →
  (∀ c, c ∈ children_of fams → finds root (_nav_helper OptionFinder c) [c]) →
  finds root (nav_node OptionFinder (NonterminalNode d fams)) [Some (NonterminalNode d fams)].
Proof.
  intros Hw Hchildren [visited σ] Hinv. rewrite nav_node_eq.
  destruct (visited !! node_key (Some (NonterminalNode d fams))) as [[]|] eqn:Hseen.
  { rewrite (memoized_hit _ _ _ tt) by done. eexists. split; [done|].
    split; [done|]. split; [apply extends_refl|].
    intros n ->%list_elem_of_singleton%(inj Some). simpl in *. rewrite Hseen. eauto. }
  rewrite memoized_miss by done.
  destruct (finds_each_family (_nav_helper OptionFinder) d fams 0 Hchildren _ Hinv)
    as ([visited1 σ1] & Hrun & [Hrec1 Hfrom1] & Hext & Hvis).
  unfold node_body. unfold bind at 1. simpl. unfold bind at 1. rewrite Hrun. simpl.
  exists (<[Some (nt_id d) := tt]> visited1, σ1). split; [done|].
  split; [split|split; [|]]; simpl in *.
  - intros u Hu Huvis.
    destruct (decide (node_key (Some u) = Some (nt_id d))) as [Heq|Hne].
    + assert (u = NonterminalNode d fams) as -> by (by apply root_ids).
      intros d' Hd'. rewrite nodes_nonterminal in Hd'.
      apply elem_of_cons in Hd' as [?|Hd']; [done|].
      apply list_elem_of_In, in_flat_map in Hd' as ([n|] & Hn & Hd'); [|done].
      apply list_elem_of_In in Hn, Hd'. simpl in Hd'.
      apply (Hrec1 n); [|by apply Hvis|done].
      eapply nodes_trans; [exact Hw|]. eapply nodes_child; [done|apply nodes_self].
    + rewrite lookup_insert_ne in Huvis by done. by apply Hrec1.
  - done.
  - destruct Hext as (Hk & Hf & Ht). split; [|done].
    intros k Hkv. simpl in *. destruct (decide (k = Some (nt_id d))) as [->|Hne].
    + rewrite lookup_insert_eq. eauto.
    + rewrite lookup_insert_ne by done. by apply Hk.
  - intros n ->%list_elem_of_singleton%(inj Some). simpl.
    rewrite lookup_insert_eq. eauto.
Qed.

(** The first walk from any node of the forest. *)
Lemma finds_nav_node w :
  w ∈ nodes root → finds root (nav_node OptionFinder w) [Some w].
Proof.
  induction w as [d|d fams IH] using Node_induction; intros Hw.
  - by apply finds_token.
  - apply finds_nonterminal; [done|]. intros [n|] Hc.
    + apply IH; [done|]. eapply nodes_trans; [exact Hw|].
      eapply nodes_child; [done|apply nodes_self].
    + apply finds_epsilon.
Qed.
End finder.

(** ** The candidates of a position *)

Lemma finder_inv_initial root : finder_inv root (∅, (∅, ∅)).
Proof.
  split; [|split]; simpl.
  - intros u _ [x Hx]. by rewrite lookup_empty in Hx.
  - intros i. unfold finals_at. rewrite lookup_empty. apply NoDup_nil_2.
  - intros i t. unfold finals_at. rewrite lookup_empty. simpl.
    intros Ht. by apply elem_of_nil in Ht.
Qed.

(** The first pass returns, with the candidates of the whole forest. *)
Lemma find_options_spec w :
  wf_ids w →
  ∃ finals tokens,
    _find_options w (∅, ∅) = Ok (tt, (finals, tokens))
    ∧ recorded (finals, tokens) w
    ∧ from_forest w (finals, tokens).
Proof.
  intros Hids.
  destruct (finds_nav_node w Hids w (nodes_self w) _ (finder_inv_initial w))
    as ([visited [finals tokens]] & Hrun & [Hrec Hfrom] & _ & Hvis).
  exists finals, tokens. split; [|split; [|done]].
  - unfold _find_options, navigate, _nav_helper. rewrite Hrun. done.
  - apply Hrec; [apply nodes_self|]. apply Hvis. left.
Qed.

Lemma find_options_keys w :
  wf_ids w →
  ∃ finals tokens,
    _find_options w (∅, ∅) = Ok (tt, (finals, tokens))
    ∧ (∀ i, NoDup (finals_at finals i))
    ∧ (∀ i t, t ∈ finals_at finals i ↔
              ∃ d, TokenNode d ∈ nodes w ∧ tk_start d = i ∧ terminal d = t)
    ∧ ∀ Preferences VERBS_0 SCORES (scores : Scores),
        _calc_terminal_scores Preferences VERBS_0 SCORES w = Ok scores →
        ∀ i, (start w ≤ i < end_ w)%nat →
          ∃ sc, scores !! i = Some sc ∧ dict_keys sc = finals_at finals i.
Proof.
  intros Hids.
  destruct (find_options_spec w Hids) as (finals & tokens & Hrun & Hrec & Hsets & Hfrom).
  exists finals, tokens. split; [done|]. split; [done|]. split.
  - intros i t. split; [apply Hfrom|].
    intros (d & Hd & <- & <-). by apply Hrec.
  - intros Preferences VERBS_0 SCORES scores Hcalc i Hi.
    unfold _calc_terminal_scores in Hcalc. rewrite Hrun in Hcalc.
    unfold score_positions in Hcalc.
    destruct (for_each _ _ ∅) as [[[] scores']|e] eqn:Hloop; [|done].
    injection Hcalc as ->.
    pose proof (score_positions_keys Preferences VERBS_0 SCORES finals tokens (start w)
                  Hsets _ _ _ _ _ Hloop i) as Hkeys.
    rewrite decide_True in Hkeys by lia.
    unfold keys_of in Hkeys. rewrite lookup_fmap in Hkeys.
    destruct (scores !! i) as [sc0|]; [|done]. simpl in Hkeys.
    exists sc0. split; [done|]. congruence.
Qed.

(** C9: the first pass returns; at every position its candidate set holds
    each terminal once, and holds exactly the terminals of the token nodes
    of the forest at that position, however many nodes lead to them; and
    when the scores are computed, the terminals with a score at a position
    of the span are the candidates, one entry each. *)
Theorem C9_candidates_once w :
  wf_ids w →
  ∃ finals tokens,
    _find_options w (∅, ∅) = Ok (tt, (finals, tokens))
    ∧ (∀ i, NoDup (finals_at finals i))
    ∧ (∀ i t, t ∈ finals_at finals i ↔
              ∃ d, TokenNode d ∈ nodes w ∧ tk_start d = i ∧ terminal d = t)
    ∧ ∀ Preferences VERBS_0 SCORES (scores : Scores),
        _calc_terminal_scores Preferences VERBS_0 SCORES w = Ok scores →
        ∀ i, (start w ≤ i < end_ w)%nat →
          ∃ sc, scores !! i = Some sc ∧ dict_keys sc = finals_at finals i.
Proof. intros Hids. by apply find_options_keys. Qed.

Lemma shared_forest_ids : wf_ids Sample.shared_forest.
Proof.
  intros u v Hu Hv Hkey. apply list_elem_of_In in Hu, Hv. simpl in Hu, Hv.
  destruct Hu as [<-|[<-|[<-|[<-|[]]]]], Hv as [<-|[<-|[<-|[<-|[]]]]];
    first [reflexivity | discriminate Hkey].
Defined.

Lemma C9_candidates_once_witness :
  ∃ finals tokens,
    _find_options Sample.shared_forest (∅, ∅) = Ok (tt, (finals, tokens))
    ∧ (∀ i, NoDup (finals_at finals i))
    ∧ (∀ i t, t ∈ finals_at finals i ↔
              ∃ d, TokenNode d ∈ nodes Sample.shared_forest
                   ∧ tk_start d = i ∧ terminal d = t)
    ∧ ∀ Preferences VERBS_0 SCORES (scores : Scores),
        _calc_terminal_scores Preferences VERBS_0 SCORES Sample.shared_forest = Ok scores →
        ∀ i, (start Sample.shared_forest ≤ i < end_ Sample.shared_forest)%nat →
          ∃ sc, scores !! i = Some sc ∧ dict_keys sc = finals_at finals i.
Proof. exact (C9_candidates_once Sample.shared_forest shared_forest_ids). Defined.

(** ** The scores the reducing walk looks up *)

Lemma spans_nested_nodes w :
  spans_nested w →
  ∀ u, u ∈ nodes w → (start w ≤ start u)%nat ∧ (end_ u ≤ end_ w)%nat ∧ spans_nested u.
Proof.
  induction w as [d|d fams IH] using Node_induction; intros Hspans u Hu.
  - apply list_elem_of_singleton in Hu as ->. done.
  - rewrite nodes_nonterminal in Hu. apply elem_of_cons in Hu as [->|Hu]; [done|].
    apply list_elem_of_In, in_flat_map in Hu as ([n|] & Hn & Hu); [|done].
    apply list_elem_of_In in Hn, Hu. simpl in Hu.
    inversion Hspans as [|d' fams' Hchildren]; subst.
    destruct (Hchildren n Hn) as (Hs & He & Hnested).
    destruct (IH n Hn Hnested u Hu) as (Hs' & He' & Hu').
    simpl. split; [lia|]. split; [lia|done].
Qed.

(** C10: when the scores come from the scoring pass on the same forest,
    whose spans are nested, every token node lies within the span of the
    forest and has a score at its position for its terminal; the reducing
    walk, which looks up just these, raises no [KeyError]. *)
Theorem C10_token_scores_present Preferences VERBS_0 SCORES w (scores : Scores) :
  wf_ids w → spans_nested w →
  _calc_terminal_scores Preferences VERBS_0 SCORES w = Ok scores →
  (∀ d, TokenNode d ∈ nodes w →
     (start w ≤ tk_start d < end_ w)%nat
     ∧ is_Some (score_at scores (tk_start d) (terminal d)))
  ∧ ∀ nt_scores, _reduce nt_scores scores w ≠ Raise KeyError.
Proof.
  intros Hids Hspans Hcalc.
  destruct (find_options_keys w Hids) as (finals & tokens & Hrun & Hsets & Hmem & Hkeys).
  assert (Htokens : ∀ d, TokenNode d ∈ nodes w →
            (start w ≤ tk_start d < end_ w)%nat
            ∧ is_Some (score_at scores (tk_start d) (terminal d))).
  { intros d Hd.
    destruct (spans_nested_nodes w Hspans _ Hd) as (Hs & He & Hd').
    inversion Hd' as [d' Hlt|]; subst. simpl in *.
    assert (Hin : (start w ≤ tk_start d < end_ w)%nat) by lia.
    split; [done|].
    destruct (Hkeys _ _ _ _ Hcalc _ Hin) as (sc0 & Hsc & Hk).
    unfold score_at. rewrite Hsc. simpl. apply dict_get_is_Some.
    rewrite Hk. apply Hmem. by exists d. }
  split; [done|]. intros nt_scores.
  unfold _reduce, navigate, _nav_helper.
  pose proof (no_KeyError_nav_node nt_scores scores w (λ d Hd, proj2 (Htokens d Hd)) (∅, []))
    as Hsafe.
  destruct (nav_node (ParseForestReducer nt_scores scores) w (∅, []))
    as [[v [visited log]]|e]; [done|congruence].
Qed.

Lemma shared_forest_spans : spans_nested Sample.shared_forest.
Proof.
  constructor. intros n Hn. apply list_elem_of_In in Hn. simpl in Hn.
  destruct Hn as [Hn|[Hn|[Hn|[Hn|[]]]]]; try discriminate Hn;
    injection Hn as <-; (split; [simpl; lia|split; [simpl; lia|]]);
    constructor; simpl; lia.
Defined.

Lemma C10_token_scores_present_witness :
  let scores : Scores := {[ 0%nat := [(Sample.ao, 3); (Sample.no_hk, -2)] ]} in
  (∀ d, TokenNode d ∈ nodes Sample.shared_forest →
     (start Sample.shared_forest ≤ tk_start d < end_ Sample.shared_forest)%nat
     ∧ is_Some (score_at scores (tk_start d) (terminal d)))
  ∧ ∀ nt_scores, _reduce nt_scores scores Sample.shared_forest ≠ Raise KeyError.
Proof.
  apply (C10_token_scores_present Sample.ekki_prefs ∅ ∅ Sample.shared_forest).
  - exact shared_forest_ids.
  - exact shared_forest_spans.
  - vm_compute. reflexivity.
Defined.

(** ** The reducing walk on a forest with no ambiguity *)

Lemma omap_cons_match {A B} (f : A → option B) x l :
  omap f (x :: l) = match f x with Some y => y :: omap f l | None => omap f l end.
Proof. done. Qed.

Section root_score_facts.
Variable nt_scores : gmap string Z.
Variable scores : Scores.

Lemma shares_sum (l : list Node) :
  Zsum (token_score scores <$>
  omap (λ u, match u with TokenNode d => Some d | NonterminalNode _ _ => None end) l)
  + Zsum (declared_adjustment nt_scores <$>
  omap (λ u, match u with
  | NonterminalNode d _ => if is_completed d then Some d else None
  | TokenNode _ => None
  end) l)
  = Zsum (node_share nt_scores scores <$> l).
Proof.
  induction l as [|u l IH]; [done|].
  rewrite fmap_cons, !omap_cons_match. unfold Zsum in *.
  destruct u as [d|d fams]; [|destruct (is_completed d) eqn:Hc];
    rewrite ?fmap_cons; cbn [foldr node_share]; rewrite <- IH, ?Hc; lia.
Qed.

Lemma spec_root_score_shares w :
  spec_root_score nt_scores scores w = Zsum (node_share nt_scores scores <$> nodes w).
Proof. apply shares_sum. Qed.

Lemma spec_root_score_token d :
  spec_root_score nt_scores scores (TokenNode d) = token_score scores d.
Proof. rewrite spec_root_score_shares. unfold Zsum. simpl. lia. Qed.

Lemma children_shares (cs : list (option Node)) :
  Zsum (node_share nt_scores scores <$> flat_map (under nodes) cs)
  = Zsum (child_score nt_scores scores <$> cs).
Proof.
  induction cs as [|c cs IH]; [done|].
  rewrite fmap_cons. cbn [flat_map]. rewrite fmap_app, Zsum_app, IH.
  change (Zsum (?x :: ?l)) with (x + Zsum l).
  destruct c as [n|]; simpl; [by rewrite spec_root_score_shares|done].
Qed.

Lemma spec_root_score_nonterminal d fams :
  spec_root_score nt_scores scores (NonterminalNode d fams) =
  (if is_completed d then declared_adjustment nt_scores d else 0)
  + Zsum (child_score nt_scores scores <$> children_of fams).
Proof.
  rewrite spec_root_score_shares, nodes_nonterminal, fmap_cons.
  change (Zsum (?x :: ?l)) with (x + Zsum l). simpl.
  by rewrite children_shares.
Qed.
End root_score_facts.

Lemma dict_singleton {K V} `{EqDecision K} (d : list (K * V)) k v :
  dict_keys d = [k] → dict_get d k = Some v → d = [(k, v)].
Proof.
  destruct d as [|[k' v'] [|? ?]]; try done. unfold dict_keys. simpl.
  intros [= ->]. rewrite decide_True by done. by intros [= ->].
Qed.

Section unambiguous_walk.
Variable nt_scores : gmap string Z.
Variable scores : Scores.
Variable root : Node.
Hypothesis root_ids : wf_ids root.
Hypothesis root_unambiguous : unambiguous root.
Hypothesis root_scored :
  ∀ d, TokenNode d ∈ nodes root → is_Some (score_at scores (tk_start d) (terminal d)).
Let PFR := ParseForestReducer nt_scores scores.

Lemma sums_epsilon : sums nt_scores scores root (nav_epsilon PFR) None.
Proof.
  intros [visited σ] Hinv. pose proof Hinv as [Hmemo Heps].
  unfold nav_epsilon. simpl in Hmemo, Heps.
  destruct (visited !! None) as [v|] eqn:Hseen.
  - rewrite (memoized_hit _ _ _ v) by done. rewrite (Heps v) by done.
    exists (visited, σ). done.
  - rewrite memoized_miss by done. simpl.
    exists (<[None := 0]> visited, σ). split; [done|]. split; [|done].
    split; simpl.
    + intros u v Hu Hv. rewrite lookup_insert_ne in Hv by (by destruct u). eauto.
    + intros v. rewrite lookup_insert_eq. by intros [= <-].
Qed.

Lemma sums_visit_all visit cs :
  (∀ c, c ∈ cs → sums nt_scores scores root (visit c) c) →
  ∀ st, reducer_inv nt_scores scores root st →
  ∃ st', visit_all visit cs st = Ok (child_score nt_scores scores <$> cs, st')
  ∧ reducer_inv nt_scores scores root st' ∧ st'.2 = st.2.
Proof.
  induction cs as [|c cs IH]; intros Hvisit st Hinv; simpl.
  - exists st. done.
  - destruct (Hvisit c (list_elem_of_here _ _) st Hinv) as (st1 & Hrun1 & Hinv1 & Hlog1).
    destruct (IH (λ c' Hc', Hvisit c' (list_elem_of_further _ _ _ Hc')) st1 Hinv1)
      as (st2 & Hrun2 & Hinv2 & Hlog2).
    exists st2. split; [|split; [done|congruence]].
    unfold bind at 1. rewrite Hrun1. unfold bind at 1. rewrite Hrun2. done.
Qed.

Lemma sums_token d :
  TokenNode d ∈ nodes root →
  sums nt_scores scores root (nav_node PFR (TokenNode d)) (Some (TokenNode d)).
Proof.
  intros Hw [visited σ] Hinv. pose proof Hinv as [Hmemo Heps].
  rewrite nav_node_eq. simpl in Hmemo, Heps |- *.
  destruct (visited !! Some (tk_id d)) as [v|] eqn:Hseen.
  - rewrite (memoized_hit _ _ _ v) by done.
    rewrite (Hmemo (TokenNode d) v) by done. exists (visited, σ). done.
  - rewrite memoized_miss by done. simpl.
    destruct (root_scored d Hw) as [z Hz]. unfold score_at in Hz. rewrite Hz. simpl.
    assert (Hscore : spec_root_score nt_scores scores (TokenNode d) = z).
    { rewrite spec_root_score_token. unfold token_score, score_at. by rewrite Hz. }
    rewrite Hscore.
    exists (<[Some (tk_id d) := z]> visited, σ). split; [done|]. split; [|done].
    split; simpl.
    + intros u v Hu Hv.
      destruct (decide (node_key (Some u) = Some (tk_id d))) as [Heq|Hne].
      * assert (u = TokenNode d) as -> by (by apply root_ids).
        rewrite lookup_insert_eq in Hv. congruence.
      * rewrite lookup_insert_ne in Hv by done. eauto.
    + intros v. rewrite lookup_insert_ne by done. apply Heps.
Qed.

(** The priority pool of a node with one family does not call for a
    choice, and the scores of the family are the one entry. *)
Lemma single_family_results d prod rs :
  rs ≠ [] →
  let r := foldl (λ r s, add_child_score r 0 s)
  (add_child_production (new_ReductionInfo d) 0 prod) rs in
  use_prio r = false ∧ sc r = [(0%nat, Zsum rs)]
  ∧ nt r = if is_completed d then Some (nonterminal d) else None.
Proof.
  intros Hrs r.
  destruct (foldl_add_child_score (add_child_production (new_ReductionInfo d) 0 prod) 0 rs)
    as (Hnt & _ & Huse & _ & Hget & Hkeys).
  fold r in Hnt, Huse, Hget, Hkeys.
  assert (Hr1 : use_prio (add_child_production (new_ReductionInfo d) 0 prod) = false
    ∧ sc (add_child_production (new_ReductionInfo d) 0 prod) = []
    ∧ nt (add_child_production (new_ReductionInfo d) 0 prod)
    = if is_completed d then Some (nonterminal d) else None).
  { unfold add_child_production, new_ReductionInfo. simpl. by destruct (is_completed d). }
  destruct Hr1 as (Huse1 & Hsc1 & Hnt1).
  rewrite Huse1 in Huse. rewrite Hsc1 in Hget, Hkeys. rewrite Hnt1 in Hnt.
  split; [done|]. split; [|done].
  apply dict_singleton.
  - rewrite Hkeys, decide_False; [done|]. intros [?|Hin]; [done|].
    by apply elem_of_nil in Hin.
  - rewrite Hget, decide_True by done. simpl. done.
Qed.

Lemma sums_nonterminal d fams :
  NonterminalNode d fams ∈ nodes root →
  (∀ c, c ∈ children_of fams → sums nt_scores scores root (_nav_helper PFR c) c) →
  sums nt_scores scores root (nav_node PFR (NonterminalNode d fams))
  (Some (NonterminalNode d fams)).
Proof.
  intros Hw Hchildren [visited σ] Hinv. pose proof Hinv as [Hmemo Heps].
  rewrite nav_node_eq. simpl in Hmemo, Heps |- *.
  destruct (visited !! Some (nt_id d)) as [v|] eqn:Hseen.
  { rewrite (memoized_hit _ _ _ v) by done.
    rewrite (Hmemo (NonterminalNode d fams) v) by done. exists (visited, σ). done. }
  rewrite memoized_miss by done.
  destruct (root_unambiguous d fams Hw) as (prod & children & -> & Hne).
  assert (Hcs : ∀ c, c ∈ children → sums nt_scores scores root (_nav_helper PFR c) c).
  { intros c Hc. apply Hchildren. unfold children_of. simpl. by rewrite app_nil_r. }
  destruct (sums_visit_all (_nav_helper PFR) children Hcs _ Hinv)
    as ([visited1 σ1] & Hvisit & Hinv1 & Hlog).
  simpl in Hlog. subst σ1.
  set (rs := child_score nt_scores scores <$> children) in *.
  assert (Hrs : rs ≠ []) by (by destruct children).
  destruct (single_family_results d prod rs Hrs) as (Huse & Hsc & Hnt).
  set (r := foldl _ _ rs) in *.
  assert (Hloop : each_family PFR (_nav_helper PFR) d 0 [(prod, children)]
    (new_ReductionInfo d) (visited, σ) = Ok (r, (visited1, σ))).
  { simpl. unfold bind at 1. simpl. unfold bind at 1.
    assert (Hchild : each_child PFR (_nav_helper PFR) 0 children
      (add_child_production (new_ReductionInfo d) 0 prod) (visited, σ)
      = Ok (r, (visited1, σ))).
    { apply each_child_reducer. exists rs. done. }
    rewrite Hchild. done. }
  assert (Hscore : spec_root_score nt_scores scores (NonterminalNode d [(prod, children)])
    = Zsum rs + if is_completed d then declared_adjustment nt_scores d else 0).
  { rewrite spec_root_score_nonterminal. unfold children_of. simpl.
    rewrite app_nil_r. fold rs. lia. }
  assert (Hprocess : process_results nt_scores r d σ
    = Ok (spec_root_score nt_scores scores
    (NonterminalNode d [(prod, children)]), σ)).
  { unfold process_results, bind at 1. rewrite Huse. simpl.
    unfold bind at 1. rewrite Hsc. simpl. rewrite Hnt, Hscore.
    unfold declared_adjustment, ret.
    destruct (is_completed d); [done|]. by rewrite Z.add_0_r. }
  unfold node_body. unfold bind at 1. simpl. unfold bind at 1.
  fold PFR. simpl in Hloop. rewrite Hloop. simpl. rewrite Hprocess.
  eexists. split; [done|]. split; [|done].
  destruct Hinv1 as [Hmemo1 Heps1]. split; simpl in *.
  - intros u v Hu Hv.
    destruct (decide (node_key (Some u) = Some (nt_id d))) as [Heq|Hneq].
    + assert (u = NonterminalNode d [(prod, children)]) as -> by (by apply root_ids).
      rewrite lookup_insert_eq in Hv. congruence.
    + rewrite lookup_insert_ne in Hv by done. eauto.
  - intros v. rewrite lookup_insert_ne by done. apply Heps1.
Qed.

(** The reducing walk from any node of the forest. *)
Lemma sums_nav_node w :
  w ∈ nodes root → sums nt_scores scores root (nav_node PFR w) (Some w).
Proof.
  induction w as [d|d fams IH] using Node_induction; intros Hw.
  - by apply sums_token.
  - apply sums_nonterminal; [done|]. intros [n|] Hc.
    + apply IH; [done|]. eapply nodes_trans; [exact Hw|].
      eapply nodes_child; [done|apply nodes_self].
    + apply sums_epsilon.
Qed.
End unambiguous_walk.


(** C2: in a forest where every nonterminal node has exactly one family,
    of one child at least, and every token node has a score, the reducing
    walk returns, makes no call of [reduce_to] at all, and yields as the
    score of the root the sum of the scores of all token leaves and of
    the adjustments the grammar declares for the completed nonterminal
    nodes. *)
Theorem C2_no_ambiguity nt_scores (scores : Scores) w :
  wf_ids w → unambiguous w →
  (∀ d, TokenNode d ∈ nodes w → is_Some (score_at scores (tk_start d) (terminal d))) →
  _reduce nt_scores scores w = Ok (spec_root_score nt_scores scores w, []).
Proof.
  intros Hids Hone Hscored.
  assert (Hinit : reducer_inv nt_scores scores w (∅, [])).
  { split; simpl; intros *; rewrite ?lookup_empty; done. }
  destruct (sums_nav_node nt_scores scores w Hids Hone Hscored w (nodes_self w) _ Hinit)
    as ([visited log] & Hrun & _ & Hlog).
  simpl in Hlog. subst log.
  unfold _reduce, navigate, _nav_helper. rewrite Hrun. done.
Qed.

Lemma plain_forest_ids : wf_ids Sample.plain_forest.
Proof.
  intros u v Hu Hv Hkey. apply list_elem_of_In in Hu, Hv. simpl in Hu, Hv.
  destruct Hu as [<-|[<-|[<-|[<-|[]]]]], Hv as [<-|[<-|[<-|[<-|[]]]]];
    first [reflexivity | discriminate Hkey].
Defined.

Lemma plain_forest_unambiguous : unambiguous Sample.plain_forest.
Proof.
  intros d fams Hin. apply list_elem_of_In in Hin. simpl in Hin.
  destruct Hin as [Hin|[Hin|[Hin|[Hin|[]]]]]; try discriminate Hin;
    injection Hin as <- <-; eexists _, _; (split; [reflexivity|discriminate]).
Defined.

Lemma plain_forest_scored d :
  TokenNode d ∈ nodes Sample.plain_forest →
  is_Some (score_at Sample.plain_scores (tk_start d) (terminal d)).
Proof.
  intros Hin. apply list_elem_of_In in Hin. simpl in Hin.
  destruct Hin as [Hin|[Hin|[Hin|[Hin|[]]]]]; try discriminate Hin;
    injection Hin as <-; vm_compute; eexists; reflexivity.
Defined.

Lemma C2_no_ambiguity_witness :
  _reduce Sample.plain_adjustments Sample.plain_scores Sample.plain_forest
  = Ok (spec_root_score Sample.plain_adjustments Sample.plain_scores Sample.plain_forest, []).
Proof.
  exact (C2_no_ambiguity Sample.plain_adjustments Sample.plain_scores Sample.plain_forest
           plain_forest_ids plain_forest_unambiguous plain_forest_scored).
Defined.

(** On the sample the score of the root is 1 + 3 for the tokens and
    3 - 1 for the two completed nodes. *)
Example plain_forest_score :
  _reduce Sample.plain_adjustments Sample.plain_scores Sample.plain_forest = Ok (6, []).
Proof. vm_compute. reflexivity. Qed.

(** ** The choice of a family at a node *)

Lemma dict_set_fresh {K V} `{EqDecision K} (d : list (K * V)) k v :
  k ∉ dict_keys d → dict_set d k v = d ++ [(k, v)].
Proof.
  induction d as [|[k' v'] d IH]; simpl; [done|].
  intros Hk. apply not_elem_of_cons in Hk as [Hne Hk].
  rewrite decide_False by done. by rewrite IH.
Qed.

Lemma dict_set_twice {K V} `{EqDecision K} (d : list (K * V)) k v v' :
  dict_set (dict_set d k v) k v' = dict_set d k v'.
Proof.
  induction d as [|[k' v0] d IH]; simpl.
  - by rewrite decide_True.
  - destruct (decide (k' = k)) as [->|Hne]; simpl.
    + by rewrite decide_True.
    + rewrite decide_False by done. by rewrite IH.
Qed.

(** The scores of the children of a family add up in its entry. *)
Lemma sc_foldl_add_child_score r ix rs :
  rs ≠ [] →
  sc (foldl (λ r s, add_child_score r ix s) r rs) =
  dict_set (sc r) ix (default 0 (dict_get (sc r) ix) + Zsum rs).
Proof.
  revert r. induction rs as [|s rs IH]; intros r Hne; [done|].
  simpl. destruct rs as [|s' rs].
  - simpl. do 2 f_equal. lia.
  - rewrite IH by done. cbn [add_child_score sc].
    rewrite dict_get_set, decide_True by done. cbn [default].
    rewrite dict_set_twice. f_equal.
    change (Zsum (s :: s' :: rs)) with (s + Zsum (s' :: rs)). unfold id. lia.
Qed.

Lemma family_calls_fields r ix prod rs :
  nt (family_calls r ix prod rs) = nt r
  ∧ highest_prio (family_calls r ix prod rs) = highest_prio (add_child_production r ix prod)
  ∧ use_prio (family_calls r ix prod rs) = use_prio (add_child_production r ix prod)
  ∧ highest_ix (family_calls r ix prod rs) = highest_ix (add_child_production r ix prod).
Proof.
  unfold family_calls.
  destruct (foldl_add_child_score (add_child_production r ix prod) ix rs)
    as (-> & -> & -> & -> & _).
  by destruct (add_child_production_fields r ix prod) as [-> _].
Qed.

Lemma family_calls_sc r ix prod rs :
  ix ∉ dict_keys (sc r) →
  sc (family_calls r ix prod rs) =
  sc r ++ match rs with [] => [] | _ :: _ => [(ix, Zsum rs)] end.
Proof.
  intros Hfresh. unfold family_calls.
  destruct (add_child_production_fields r ix prod) as [_ Hsc].
  destruct rs as [|s rs].
  - simpl. by rewrite Hsc, app_nil_r.
  - rewrite sc_foldl_add_child_score by done. rewrite Hsc.
    apply dict_get_None in Hfresh as Hnone. rewrite Hnone. cbn [default].
    rewrite Z.add_0_l. by rewrite dict_set_fresh.
Qed.

Lemma family_totals_keys ix fams k :
  k ∈ dict_keys (family_totals ix fams) → (ix ≤ k < ix + length fams)%nat.
Proof.
  revert ix. induction fams as [|[prod rs] fams IH]; intros ix; simpl.
  - by intros ?%elem_of_nil.
  - destruct rs as [|s rs].
    + intros Hk%IH. lia.
    + unfold dict_keys. rewrite fmap_cons. intros [->|Hk%IH]%elem_of_cons; simpl; lia.
Qed.

(** After the families, the entries are their totals, in their order. *)
Lemma families_calls_sc fams : ∀ r ix,
  (∀ k, k ∈ dict_keys (sc r) → (k < ix)%nat) →
  sc (families_calls r ix fams) = sc r ++ family_totals ix fams.
Proof.
  induction fams as [|[prod rs] fams IH]; intros r ix Hkeys; simpl.
  - by rewrite app_nil_r.
  - assert (Hfresh : ix ∉ dict_keys (sc r)) by (intros Hin%Hkeys; lia).
    rewrite IH.
    + rewrite family_calls_sc by done. rewrite <- app_assoc. by destruct rs.
    + intros k. rewrite family_calls_sc by done.
      unfold dict_keys. rewrite fmap_app, elem_of_app. intros [Hk%Hkeys|Hk]; [lia|].
      destruct rs; simpl in Hk; [by apply elem_of_nil in Hk|].
      apply list_elem_of_singleton in Hk. lia.
Qed.

Lemma families_calls_nt fams : ∀ r ix, nt (families_calls r ix fams) = nt r.
Proof.
  induction fams as [|[prod rs] fams IH]; intros r ix; simpl; [done|].
  rewrite IH. by destruct (family_calls_fields r ix prod rs) as [-> _].
Qed.

(** Priorities do not apply to a node that is not completed. *)
Lemma families_calls_no_pool fams : ∀ r ix,
  nt r = None →
  use_prio (families_calls r ix fams) = use_prio r
  ∧ highest_ix (families_calls r ix fams) = highest_ix r.
Proof.
  induction fams as [|[prod rs] fams IH]; intros r ix Hnt; simpl; [done|].
  destruct (family_calls_fields r ix prod rs) as (Hnt' & _ & Hup & Hix).
  destruct (IH (family_calls r ix prod rs) (Datatypes.S ix)) as [-> ->];
    [congruence|].
  rewrite Hup, Hix. unfold add_child_production. by rewrite Hnt.
Qed.

Lemma pool_of_fields ps r r' :
  highest_prio r' = highest_prio r → use_prio r' = use_prio r →
  highest_ix r' = highest_ix r → pool_of ps r → pool_of ps r'.
Proof. unfold pool_of. by intros -> -> ->. Qed.

(** The pool of a completed node after its families. *)
Lemma families_calls_pool fams : ∀ ps r,
  is_Some (nt r) → pool_of ps r →
  pool_of (ps ++ ((λ fam, priority fam.1) <$> fams)) (families_calls r (length ps) fams).
Proof.
  induction fams as [|[prod rs] fams IH]; intros ps r Hnt Hpool; simpl.
  - by rewrite app_nil_r.
  - destruct (family_calls_fields r (length ps) prod rs) as (Hnt' & Hhp & Hup & Hix).
    replace (Datatypes.S (length ps)) with (length (ps ++ [priority prod]))
      by (rewrite length_app; simpl; lia).
    rewrite cons_middle, (assoc_L (++)).
    apply IH; [by rewrite Hnt'|].
    eapply pool_of_fields; [done..|]. by apply pool_of_add_child_production.
Qed.

(** The head of the list sorted by decreasing score: the first of the
    entries of the greatest score. *)
Lemma sorted_desc_head (l : list (nat * Z)) :
  l ≠ [] →
  ∃ l1 x l2 rest,
    l = l1 ++ x :: l2 ∧ sorted_desc l = x :: rest
    ∧ (∀ y, y ∈ l1 → y.2 < x.2) ∧ (∀ y, y ∈ l2 → y.2 ≤ x.2).
Proof.
  induction l as [|a l IH]; [done|]. intros _.
  destruct l as [|b l].
  - exists [], a, [], []. repeat split; try done; by intros y ?%elem_of_nil.
  - destruct IH as (l1 & x & l2 & rest & Hl & Hs & H1 & H2); [done|].
    change (sorted_desc (a :: b :: l)) with (insert_desc a (sorted_desc (b :: l))).
    rewrite Hs. simpl. destruct (a.2 <? x.2) eqn:Hlt.
    + apply Z.ltb_lt in Hlt. exists (a :: l1), x, l2, (insert_desc a rest).
      rewrite Hl. repeat split; [|done].
      intros y [->|Hy]%elem_of_cons; [done|by apply H1].
    + apply Z.ltb_ge in Hlt. exists [], a, (b :: l), (x :: rest).
      repeat split; [by intros y ?%elem_of_nil|].
      intros y Hy. rewrite Hl in Hy.
      apply elem_of_app in Hy as [Hy%H1|[->|Hy%H2]%elem_of_cons]; lia.
Qed.

Lemma by_index_family_totals fams : ∀ ix, by_index (family_totals ix fams).
Proof.
  induction fams as [|[prod rs] fams IH]; intros ix; simpl.
  - done.
  - destruct rs as [|s rs]; [apply IH|].
    split; [|apply IH]. apply Forall_forall. intros [k z] Hk. simpl.
    assert (k ∈ dict_keys (family_totals (Datatypes.S ix) fams)) as Hin.
    { apply list_elem_of_fmap. by exists (k, z). }
    apply family_totals_keys in Hin. lia.
Qed.

Lemma by_index_filter (P : nat * Z → bool) l : by_index l → by_index (List.filter P l).
Proof.
  induction l as [|a l IH]; simpl; [done|]. intros [Ha Hl].
  destruct (P a); [|by apply IH]. split; [|by apply IH].
  rewrite Forall_forall in Ha |- *. intros y Hy%list_elem_of_In%filter_In.
  apply Ha, list_elem_of_In, Hy.
Qed.

Lemma by_index_later l1 x l2 y :
  by_index (l1 ++ x :: l2) → y ∈ l2 → (x.1 < y.1)%nat.
Proof.
  induction l1 as [|a l1 IH]; simpl.
  - intros [Hx _] Hy. rewrite Forall_forall in Hx. by apply Hx.
  - intros [_ Hs]. by apply IH.
Qed.

(** When every family has a child, every family has its total. *)
Lemma family_totals_lookup fams : ∀ ix k,
  Forall (λ fam, fam.2 ≠ []) fams →
  family_totals ix fams !! k = (λ fam, ((ix + k)%nat, Zsum fam.2)) <$> fams !! k.
Proof.
  induction fams as [|[prod rs] fams IH]; intros ix k Hne; simpl; [done|].
  apply Forall_cons in Hne as [Hrs Hne]. simpl in Hrs.
  destruct rs as [|s rs]; [done|]. destruct k as [|k]; simpl.
  - by rewrite Nat.add_0_r.
  - rewrite IH by done. by replace (Datatypes.S ix + k)%nat with (ix + Datatypes.S k)%nat by lia.
Qed.

Lemma family_totals_elem fams ix z :
  (ix, z) ∈ family_totals 0 fams →
  ∃ prod rs, fams !! ix = Some (prod, rs) ∧ rs ≠ [] ∧ z = Zsum rs.
Proof.
  assert (∀ n : nat, ((n + ix)%nat, z) ∈ family_totals n fams →
    ∃ prod rs, fams !! ix = Some (prod, rs) ∧ rs ≠ [] ∧ z = Zsum rs) as Hgen.
  { revert ix. induction fams as [|[prod rs] fams IH]; intros ix n; simpl.
    - by intros ?%elem_of_nil.
    - assert (Hrest : ((n + ix)%nat, z) ∈ family_totals (Datatypes.S n) fams →
        ∃ prod' rs', ((prod, rs) :: fams) !! ix = Some (prod', rs') ∧ rs' ≠ []
                     ∧ z = Zsum rs').
      { intros Hin. assert ((n + ix)%nat ∈ dict_keys (family_totals (Datatypes.S n) fams)) as Hk.
        { apply list_elem_of_fmap. by exists ((n + ix)%nat, z). }
        apply family_totals_keys in Hk. destruct ix as [|ix]; [lia|].
        replace (n + Datatypes.S ix)%nat with (Datatypes.S n + ix)%nat in Hin by lia.
        by apply IH in Hin. }
      destruct rs as [|s rs]; [by apply Hrest|].
      intros [Heq|Hin]%elem_of_cons; [|by apply Hrest].
      injection Heq as Hix ->. assert (ix = 0%nat) as -> by lia.
      exists prod, (s :: rs). done. }
  apply (Hgen 0%nat).
Qed.

Lemma family_totals_elem_2 fams ix prod rs :
  fams !! ix = Some (prod, rs) → rs ≠ [] → (ix, Zsum rs) ∈ family_totals 0 fams.
Proof.
  assert (∀ n : nat, fams !! ix = Some (prod, rs) → rs ≠ [] →
    ((n + ix)%nat, Zsum rs) ∈ family_totals n fams) as Hgen.
  { revert ix. induction fams as [|[prod' rs'] fams IH]; intros ix n Hfam Hrs; [done|].
    destruct ix as [|ix]; simpl in *.
    - injection Hfam as -> ->. destruct rs as [|s rs]; [done|].
      rewrite Nat.add_0_r. left.
    - replace (n + Datatypes.S ix)%nat with (Datatypes.S n + ix)%nat by lia.
      destruct rs' as [|s' rs']; [by apply IH|]. right. by apply IH. }
  apply (Hgen 0%nat).
Qed.

Lemma family_totals_length fams ix :
  Forall (λ fam, fam.2 ≠ []) fams → length (family_totals ix fams) = length fams.
Proof.
  revert ix. induction fams as [|[prod rs] fams IH]; intros ix Hne; simpl; [done|].
  apply Forall_cons in Hne as [Hrs Hne]. simpl in Hrs.
  destruct rs as [|s rs]; [done|]. simpl. by rewrite IH.
Qed.

(** Lines 336-341: the entries the choice is made among are the totals of
    the families that are considered and had a child, in their order. *)
Lemma considered_entries d (fams : list (Production * list Z)) (log : Reductions) :
  let r := families_calls (new_ReductionInfo d) 0 fams in
  ∃ csc,
    (if use_prio r then highest_only r else ret (sc r)) log = Ok (csc, log)
    ∧ by_index csc
    ∧ (∀ ix z, (ix, z) ∈ csc ↔
         ∃ prod rs, fams !! ix = Some (prod, rs) ∧ rs ≠ [] ∧ z = Zsum rs
                    ∧ considered d fams (prod, rs))
    ∧ (use_prio r = false → csc = family_totals 0 fams)
    ∧ (use_prio r = true → (2 ≤ length fams)%nat).
Proof.
  intros r.
  assert (Hsc : sc r = family_totals 0 fams).
  { unfold r. rewrite families_calls_sc; [done|]. by intros k ?%elem_of_nil. }
  assert (Htot : ∀ ix z, (ix, z) ∈ family_totals 0 fams ↔
            ∃ prod rs, fams !! ix = Some (prod, rs) ∧ rs ≠ [] ∧ z = Zsum rs).
  { intros ix z. split; [apply family_totals_elem|].
    intros (prod & rs & Hfam & Hrs & ->). by eapply family_totals_elem_2. }
  destruct (is_completed d) eqn:Hcompleted; cycle 1.
  - (* not completed: no pool *)
    destruct (families_calls_no_pool fams (new_ReductionInfo d) 0) as [Hup _].
    { simpl. by rewrite Hcompleted. }
    fold r in Hup. simpl in Hup. rewrite Hup. exists (sc r).
    split; [done|]. rewrite Hsc. split; [apply by_index_family_totals|].
    split; [|done]. intros ix z. rewrite Htot. unfold considered. rewrite Hcompleted.
    naive_solver.
  - pose proof (families_calls_pool fams [] (new_ReductionInfo d)) as Hpool.
    simpl in Hpool. rewrite Hcompleted in Hpool. fold r in Hpool.
    specialize (Hpool ltac:(eauto) ltac:(done)). unfold pool_of in Hpool.
    destruct (highest_prio r) as [m|] eqn:Hhp.
    + destruct Hpool as (Hm & Hle & (hs & Hhs & Hix) & Huse).
      rewrite Forall_fmap in Hle.
      assert (Hmin : ∀ ix prod rs, fams !! ix = Some (prod, rs) →
                (priority prod = m ↔ considered d fams (prod, rs))).
      { intros ix prod rs Hfam. unfold considered. simpl. split.
        - intros -> _. eapply Forall_impl; [exact Hle|]. intros f. simpl. lia.
        - intros Hc. specialize (Hc Hcompleted). rewrite Forall_forall in Hc, Hle.
          apply list_elem_of_fmap in Hm as (f & -> & Hf).
          apply Hc in Hf as H1. simpl in H1.
          apply list_elem_of_lookup_2 in Hfam. apply Hle in Hfam. simpl in Hfam. lia. }
      destruct (use_prio r) eqn:Hup.
      * exists (List.filter (λ '(ix, _), bool_decide (ix ∈ hs)) (sc r)).
        split; [unfold highest_only; by rewrite Hhs|].
        split; [rewrite Hsc; apply by_index_filter, by_index_family_totals|].
        split; [|split; [done|]].
        -- intros ix z. rewrite list_elem_of_In, filter_In, <- list_elem_of_In.
           rewrite Hsc, Htot, bool_decide_eq_true, Hix, list_lookup_fmap. split.
           ++ intros [(prod & rs & Hfam & Hrs & ->) Hprio]. exists prod, rs.
              rewrite Hfam in Hprio. simpl in Hprio. injection Hprio as Hprio.
              repeat split; try done. by eapply Hmin.
           ++ intros (prod & rs & Hfam & Hrs & -> & Hc). split; [by eauto|].
              rewrite Hfam. simpl. f_equal. by eapply Hmin.
        -- intros _. apply proj1 in Huse. destruct (Huse eq_refl) as (p & Hp & Hne).
           apply list_elem_of_fmap in Hm as (f1 & -> & Hf1).
           apply list_elem_of_fmap in Hp as (f2 & -> & Hf2).
           destruct fams as [|a [|b fams']]; simpl; [by apply elem_of_nil in Hf1| |lia].
           apply list_elem_of_singleton in Hf1, Hf2. congruence.
      * exists (sc r). split; [done|]. rewrite Hsc.
        split; [apply by_index_family_totals|]. split; [|done].
        intros ix z. rewrite Htot. split.
        -- intros (prod & rs & Hfam & Hrs & ->). exists prod, rs.
           repeat split; try done. eapply Hmin; [done|].
           destruct (decide (priority prod = m)) as [|Hne]; [done|].
           assert (false = true); [|done]. apply Huse.
           exists (priority prod). split; [|done].
           apply list_elem_of_fmap. exists (prod, rs). split; [done|].
           by eapply list_elem_of_lookup_2.
        -- naive_solver.
    + destruct Hpool as [Hnil Hup]. apply fmap_nil_inv in Hnil.
      rewrite Hup. exists (sc r). split; [done|]. rewrite Hsc, Hnil. simpl.
      split; [done|]. split; [|done]. intros ix z. split.
      * by intros ?%elem_of_nil.
      * by intros (? & ? & ? & _).
Qed.

(** The choice among the families that went through the result object. *)
Lemma best_considered_family nt_scores d (fams : list (Production * list Z))
    (log : Reductions) :
  fams ≠ [] →
  Forall (λ fam, fam.2 ≠ []) fams →
  ∃ ix prod rs,
    fams !! ix = Some (prod, rs)
    ∧ considered d fams (prod, rs)
    ∧ (∀ ix' fam', fams !! ix' = Some fam' → considered d fams fam' →
         Zsum fam'.2 ≤ Zsum rs ∧ (Zsum fam'.2 = Zsum rs → (ix ≤ ix')%nat))
    ∧ process_results nt_scores (families_calls (new_ReductionInfo d) 0 fams) d log =
        Ok (Zsum rs + node_adjustment nt_scores d,
            log ++ if (2 <=? length fams)%nat then [(nt_id d, ix)] else []).
Proof.
  intros Hfams Hne. set (r := families_calls (new_ReductionInfo d) 0 fams).
  destruct (considered_entries d fams log) as (csc & Hcsc & Hsorted & Hin & Hall & Htwo).
  fold r in Hcsc, Hall, Htwo.
  assert (Hnonempty : csc ≠ []).
  { (* a family of the least priority number is considered *)
    assert (∃ ix prod rs, fams !! ix = Some (prod, rs) ∧ considered d fams (prod, rs))
      as (ix & prod & rs & Hfam & Hc).
    { clear -Hfams. unfold considered.
      induction fams as [|[p1 r1] fams IH]; [done|].
      destruct fams as [|f2 fams].
      - exists 0%nat, p1, r1. split; [done|]. intros _. by apply Forall_singleton.
      - destruct IH as (ix & prod & rs & Hfam & Hc); [done|].
        destruct (is_completed d); cycle 1.
        { exists 0%nat, p1, r1. split; [done|]. done. }
        specialize (Hc eq_refl). destruct (decide (priority p1 ≤ priority prod)) as [Hle|Hgt].
        + exists 0%nat, p1, r1. split; [done|]. intros _.
          apply Forall_cons. split; [done|].
          eapply Forall_impl; [exact Hc|]. intros f. simpl in *. lia.
        + exists (Datatypes.S ix), prod, rs. split; [done|]. intros _.
          apply Forall_cons. split; [simpl in *; lia|done]. }
    assert ((ix, Zsum rs) ∈ csc) as Hmem.
    { apply Hin. exists prod, rs. repeat split; try done.
      rewrite Forall_forall in Hne. apply list_elem_of_lookup_2, Hne in Hfam. done. }
    intros ->. by apply elem_of_nil in Hmem. }
  destruct (sorted_desc_head csc Hnonempty) as (l1 & [ix z] & l2 & rest & Hl & Hs & H1 & H2).
  assert (Hx : (ix, z) ∈ csc) by (rewrite Hl; set_solver).
  apply Hin in Hx as (prod & rs & Hfam & Hrs & -> & Hc).
  exists ix, prod, rs. split; [done|]. split; [done|]. split.
  - intros ix' [prod' rs'] Hfam' Hc'. simpl.
    assert ((ix', Zsum rs') ∈ csc) as Hmem.
    { apply Hin. exists prod', rs'. repeat split; try done.
      rewrite Forall_forall in Hne. apply list_elem_of_lookup_2, Hne in Hfam'. done. }
    rewrite Hl in Hmem, Hsorted.
    apply elem_of_app in Hmem as [Hmem|[Hmem|Hmem]%elem_of_cons].
    + apply H1 in Hmem. simpl in Hmem. lia.
    + injection Hmem as -> Heq. split; [lia|done].
    + apply H2 in Hmem as Hle. apply (by_index_later _ _ _ _ Hsorted) in Hmem.
      simpl in *. split; [done|]. lia.
  - assert (Hnt : nt r = if is_completed d then Some (nonterminal d) else None).
    { unfold r. by rewrite families_calls_nt. }
    unfold process_results. unfold bind at 1. rewrite Hcsc.
    destruct (use_prio r) eqn:Hup.
    + rewrite andb_false_r. unfold bind at 1. rewrite Hs.
      unfold bind at 1, reduce_to, modify, ret. rewrite Hnt.
      specialize (Htwo eq_refl). apply Nat.leb_le in Htwo. rewrite Htwo.
      unfold node_adjustment. destruct (is_completed d); [done|]. by rewrite Z.add_0_r.
    + rewrite andb_true_r. specialize (Hall eq_refl).
      assert (Hlen : length csc = length fams).
      { rewrite Hall. by apply family_totals_length. }
      destruct (length csc =? 1)%nat eqn:Hone.
      * apply Nat.eqb_eq in Hone. rewrite <- Hlen, Hone. simpl.
        destruct csc as [|x [|y csc]]; try done.
        destruct l1 as [|a l1]; [|destruct l1; done].
        simpl in Hl. injection Hl as -> _.
        unfold bind at 1, ret. rewrite Hnt, app_nil_r.
        unfold node_adjustment. destruct (is_completed d); [done|]. by rewrite Z.add_0_r.
      * apply Nat.eqb_neq in Hone.
        assert (2 <=? length fams = true)%nat as ->.
        { apply Nat.leb_le. destruct csc; [done|]. simpl in *. lia. }
        unfold bind at 1. rewrite Hs.
        unfold bind at 1, reduce_to, modify, ret. rewrite Hnt.
        unfold node_adjustment. destruct (is_completed d); [done|]. by rewrite Z.add_0_r.
Qed.

(** X1: take a node with a family at least, each family with a child at
    least, and let the families go through the result object in their
    order.  [_process_results] raises nothing and returns the greatest
    total among the considered families, with the score adjustment of the
    node; the considered families are all of them for a node that is not
    completed and those of the least priority number for a completed one.
    The family of that total is the first such in the order of the
    families, and the node is reduced to it when it has two families or
    more; a node with one family is left alone. *)
Theorem X1_best_considered_family nt_scores d (fams : list (Production * list Z))
    (log : Reductions) :
  fams ≠ [] →
  Forall (λ fam, fam.2 ≠ []) fams →
  ∃ ix prod rs,
    fams !! ix = Some (prod, rs)
    ∧ considered d fams (prod, rs)
    ∧ (∀ ix' fam', fams !! ix' = Some fam' → considered d fams fam' →
         Zsum fam'.2 ≤ Zsum rs ∧ (Zsum fam'.2 = Zsum rs → (ix ≤ ix')%nat))
    ∧ process_results nt_scores (families_calls (new_ReductionInfo d) 0 fams) d log =
        Ok (Zsum rs + node_adjustment nt_scores d,
            log ++ if (2 <=? length fams)%nat then [(nt_id d, ix)] else []).
Proof. apply best_considered_family. Qed.

Lemma X1_best_considered_family_witness :
  ∃ ix prod rs,
    Sample2.three_families !! ix = Some (prod, rs)
    ∧ considered Sample.prio_info
        Sample2.three_families (prod, rs)
    ∧ (∀ ix' fam',
         Sample2.three_families !! ix' = Some fam' →
         considered Sample.prio_info
           Sample2.three_families fam' →
         Zsum fam'.2 ≤ Zsum rs ∧ (Zsum fam'.2 = Zsum rs → (ix ≤ ix')%nat))
    ∧ process_results {[ "S" := 3 ]}
        (families_calls (new_ReductionInfo Sample.prio_info) 0
           Sample2.three_families) Sample.prio_info [] =
        Ok (Zsum rs + node_adjustment {[ "S" := 3 ]} Sample.prio_info,
            [] ++ if (2 <=? length Sample2.three_families)%nat
                  then [(nt_id Sample.prio_info, ix)] else []).
Proof.
  apply (X1_best_considered_family {[ "S" := 3 ]} Sample.prio_info
           Sample2.three_families []).
  - discriminate.
  - repeat constructor; discriminate.
Defined.

(** On the sample the family 0 has the greatest total, 12, and the worse
    priority; the families 1 and 2 have the total 7 both: the node is
    reduced to the family 1 and has the score 7 + 3. *)
Example best_family_sample :
  process_results {[ "S" := 3 ]}
    (families_calls (new_ReductionInfo Sample.prio_info) 0
       Sample2.three_families) Sample.prio_info [] =
  Ok (10, [(200%nat, 1%nat)]).
Proof. vm_compute. reflexivity. Qed.

(** X2: when no considered family of a node had a child, so a node with
    no family at all, or a completed node whose families of the least
    priority number are all empty while the priorities differ, the choice
    has nothing to take: [s[0]] of line 350 raises [IndexError], whatever
    the totals of the other families are. *)
Theorem X2_nothing_to_choose nt_scores d (fams : list (Production * list Z))
    (log : Reductions) :
  (∀ ix prod rs, fams !! ix = Some (prod, rs) → considered d fams (prod, rs) → rs = []) →
  process_results nt_scores (families_calls (new_ReductionInfo d) 0 fams) d log =
    Raise IndexError.
Proof.
  intros Hnone. set (r := families_calls (new_ReductionInfo d) 0 fams).
  destruct (considered_entries d fams log) as (csc & Hcsc & _ & Hin & _).
  fold r in Hcsc.
  assert (csc = []) as ->.
  { destruct csc as [|[ix z] csc]; [done|].
    destruct (proj1 (Hin ix z)) as (prod & rs & Hfam & Hrs & _ & Hc); [left|].
    by apply (Hnone _ _ _ Hfam) in Hc. }
  unfold process_results. unfold bind at 1. rewrite Hcsc. reflexivity.
Qed.

Lemma X2_nothing_to_choose_witness :
  process_results ∅
    (families_calls (new_ReductionInfo Sample.prio_info) 0
       Sample2.empty_first) Sample.prio_info [] =
    Raise IndexError.
Proof.
  apply (X2_nothing_to_choose ∅ Sample.prio_info
           Sample2.empty_first []).
  intros ix prod rs Hfam Hc. specialize (Hc eq_refl).
  destruct ix as [|[|ix]]; simpl in Hfam; [by injection Hfam as <- <-| |done].
  injection Hfam as <- <-. apply Forall_cons in Hc as [Hc _]. simpl in Hc. lia.
Defined.

(** ** The scoring pass raises nothing *)

Lemma succeeds_ret K : succeeds K (ret tt).
Proof. intros σ HK. by exists σ. Qed.

Lemma succeeds_bind K (m1 m2 : M Scores unit) :
  succeeds K m1 → succeeds K m2 → succeeds K (exec m1 in m2).
Proof.
  intros H1 H2 σ HK. destruct (H1 σ HK) as (σ1 & Hrun1 & HK1).
  destruct (H2 σ1 HK1) as (σ2 & Hrun2 & HK2).
  exists σ2. split; [|done]. unfold bind. by rewrite Hrun1.
Qed.

Lemma succeeds_for_each {A} K (l : list A) (body : A → M Scores unit) :
  (∀ x, x ∈ l → succeeds K (body x)) → succeeds K (for_each l body).
Proof.
  induction l as [|x l IH]; intros Hbody; simpl.
  - apply succeeds_ret.
  - apply succeeds_bind; [apply Hbody; left|].
    apply IH. intros y Hy. apply Hbody. by right.
Qed.

Lemma succeeds_or_raise {A} K (o : option A) e (f : A → M Scores unit) a :
  o = Some a → succeeds K (f a) → succeeds K (let* x := or_raise o e in f x).
Proof. intros -> Hf σ HK. apply (Hf σ HK). Qed.

(** A terminal that is a key at [i] has a score to add to. *)
Lemma succeeds_add_score K i t d :
  t ∈ default [] (K !! i) → succeeds K (add_score i t d).
Proof.
  intros Ht σ HK.
  assert (∃ sc0, σ !! i = Some sc0 ∧ t ∈ dict_keys sc0) as (sc0 & Hsc & Hin).
  { rewrite <- HK in Ht. unfold keys_of in Ht. rewrite lookup_fmap in Ht.
    destruct (σ !! i) as [sc0|]; simpl in Ht; [eauto|by apply elem_of_nil in Ht]. }
  apply dict_get_is_Some in Hin as [z Hz].
  exists (<[i := dict_set sc0 t (z + d)]> σ). split.
  - unfold add_score, bind, get_state, or_raise, ret, modify. by rewrite Hsc, Hz.
  - destruct (adds_add_score K i t d σ (<[i := dict_set sc0 t (z + d)]> σ) tt HK) as [HK' _];
      [|done].
    unfold add_score, bind, get_state, or_raise, ret, modify. by rewrite Hsc, Hz.
Qed.

(** ** The preferences raise nothing *)

Lemma collects_ret s : collects s (ret tt).
Proof. intros aw ab Hw Hb. by exists aw, ab. Qed.

Lemma collects_bind s (m1 m2 : M AdjState unit) :
  collects s m1 → collects s m2 → collects s (exec m1 in m2).
Proof.
  intros H1 H2 aw ab Hw Hb. destruct (H1 aw ab Hw Hb) as (aw1 & ab1 & Hrun1 & Hw1 & Hb1).
  destruct (H2 aw1 ab1 Hw1 Hb1) as (aw2 & ab2 & Hrun2 & Hw2 & Hb2).
  exists aw2, ab2. split; [|done]. unfold bind. by rewrite Hrun1.
Qed.

Lemma collects_for_each {A} s (l : list A) (body : A → M AdjState unit) :
  (∀ x, x ∈ l → collects s (body x)) → collects s (for_each l body).
Proof.
  induction l as [|x l IH]; intros Hbody; simpl.
  - apply collects_ret.
  - apply collects_bind; [apply Hbody; left|].
    apply IH. intros y Hy. apply Hbody. by right.
Qed.

Lemma dict_keys_set_subseteq {K V} `{EqDecision K} (d : list (K * V)) k v (s : list K) :
  dict_keys d ⊆ s → k ∈ s → dict_keys (dict_set d k v) ⊆ s.
Proof.
  intros Hd Hk. destruct (decide (k ∈ dict_keys d)) as [Hin|Hnin].
  - by rewrite dict_keys_set_in.
  - rewrite dict_keys_set_notin by done. set_solver.
Qed.

Lemma starts_with_quote_is_Some (n : string) :
  n ≠ EmptyString → is_Some (starts_with_quote n).
Proof. destruct n; [done|]. intros _. unfold starts_with_quote. simpl. eauto. Qed.

Lemma collects_note_pair s wt bt factor :
  wt ∈ s → bt ∈ s → name bt ≠ EmptyString → collects s (note_pair wt bt factor).
Proof.
  intros Hwt Hbt Hname aw ab Hw Hb.
  destruct (starts_with_quote_is_Some _ Hname) as [literal Hlit].
  unfold note_pair, bind, or_raise, ret, modify. rewrite Hlit.
  eexists _, _. split; [done|]. split; by apply dict_keys_set_subseteq.
Qed.

Lemma collects_collect_prefs s prefs :
  (∀ t, t ∈ s → name t ≠ EmptyString) → collects s (collect_prefs s prefs).
Proof.
  intros Hnames. unfold collect_prefs.
  apply collects_for_each. intros [[worse better] factor] _.
  apply collects_for_each. intros wt Hwt.
  case_bool_decide; [|apply collects_ret].
  apply collects_for_each. intros bt Hbt.
  destruct (negb _ && _); [|apply collects_ret].
  apply collects_note_pair; auto.
Qed.

Lemma succeeds_apply_prefs K i s prefs :
  K !! i = Some s → (∀ t, t ∈ s → name t ≠ EmptyString) →
  succeeds K (apply_prefs i s prefs).
Proof.
  intros HKi Hnames σ HK.
  destruct (collects_collect_prefs s prefs Hnames [] []) as (aw & ab & Hc & Hw & Hb);
    [by intros ? ?%elem_of_nil..|].
  assert (Hstep : succeeds K
    (exec for_each aw (λ '(wt, a), add_score i wt a)
     in for_each ab (λ '(bt, a), add_score i bt a))).
  { apply succeeds_bind; apply succeeds_for_each; intros [t a] Ht;
      apply succeeds_add_score; rewrite HKi; simpl.
    - apply Hw, list_elem_of_fmap. by exists (t, a).
    - apply Hb, list_elem_of_fmap. by exists (t, a). }
  destruct (Hstep σ HK) as (σ' & Hrun & HK'). exists σ'. split; [|done].
  unfold apply_prefs. unfold bind at 1. rewrite Hc. exact Hrun.
Qed.

Lemma succeeds_check_preferences Preferences K i s tok :
  K !! i = Some s → (∀ t, t ∈ s → name t ≠ EmptyString) →
  succeeds K (check_preferences Preferences i s tok).
Proof.
  intros HKi Hnames. unfold check_preferences.
  destruct (same_first s); [apply succeeds_ret|].
  destruct (Preferences (lower tok)) as [[|p ps]|]; try apply succeeds_ret.
  by apply succeeds_apply_prefs.
Qed.

(** ** The heuristics raise nothing *)

Lemma prefix_all (P : ascii → bool) n : ∀ h,
  String.prefix n h = true → all_chars P h = true → all_chars P n = true.
Proof.
  induction n as [|c n IH]; intros h Hpre Hall; [done|].
  destruct h as [|a h]; [done|]. simpl in *.
  destruct (ascii_dec c a) as [->|]; [|done].
  apply andb_true_iff in Hall as [-> Hall]. simpl. by eapply IH.
Qed.

Lemma str_in_all (P : ascii → bool) n h :
  str_in n h = true → all_chars P h = true → all_chars P n = true.
Proof.
  induction h as [|a h IH]; simpl.
  - rewrite orb_false_r. intros Hpre _. by destruct n.
  - intros [Hpre|Hin]%orb_true_iff Hall.
    + by eapply (prefix_all P n (String a h)).
    + apply andb_true_iff in Hall as [_ Hall]. by apply IH.
Qed.

Lemma parse_digits_all s : ∀ acc,
  all_chars (λ c, bool_decide (is_Some (digit_value c))) s = true →
  is_Some (parse_digits acc s).
Proof.
  induction s as [|c s IH]; intros acc; simpl; [by eauto|].
  intros [[d Hd]%bool_decide_eq_true Hall]%andb_true_iff.
  rewrite Hd. simpl. by apply IH.
Qed.

(** The strings that pass the test [v0 in "012"] and are not empty read
    as numbers. *)
Lemma py_int_of_digits v0 :
  str_in v0 "012" = true → v0 ≠ EmptyString → is_Some (py_int v0).
Proof.
  intros Hin Hne. destruct v0 as [|c v0]; [done|].
  unfold py_int. apply parse_digits_all.
  apply (str_in_all _ _ "012" Hin). vm_compute. reflexivity.
Qed.

Section heuristics_succeed.
Variable VERBS_0 : gset string.
Variable SCORES : gmap string Z.
Variable K finals : gmap nat (list Terminal).
Variable w_start i : nat.
Variable s : list Terminal.
Variable tok : Token.
Hypothesis keys_here : K !! i = Some s.
Hypothesis keys_before : nhm_before finals i = true → is_Some (K !! (i - 1)%nat).

Lemma succeeds_own t d : t ∈ s → succeeds K (add_score i t d).
Proof. intros Ht. apply succeeds_add_score. by rewrite keys_here. Qed.

Lemma succeeds_verb_arguments t :
  t ∈ s → (∃ v0, variant t 0 = Some v0 ∧ v0 ≠ EmptyString) →
  succeeds K (verb_arguments VERBS_0 SCORES i tok t).
Proof.
  intros Ht (v0 & Hv0 & Hne). unfold verb_arguments.
  eapply succeeds_or_raise; [done|].
  destruct (str_in v0 "012") eqn:Hin; [|apply succeeds_ret].
  destruct (py_int_of_digits v0 Hin Hne) as [n Hn].
  eapply succeeds_or_raise; [done|]. by apply succeeds_own.
Qed.

Lemma succeeds_verb_form t : t ∈ s → succeeds K (verb_form i t).
Proof.
  intros Ht. unfold verb_form.
  repeat case_match; first [by apply succeeds_own | apply succeeds_ret].
Qed.

Lemma succeeds_verb_subject t : t ∈ s → succeeds K (verb_subject i t).
Proof.
  intros Ht. unfold verb_subject.
  repeat case_match; first [by apply succeeds_own | apply succeeds_ret].
Qed.

Lemma succeeds_prop_up_nhm : is_Some (K !! (i - 1)%nat) → succeeds K (prop_up_nhm i).
Proof.
  intros [prev Hprev] σ HK.
  assert (∃ sc0, σ !! (i - 1)%nat = Some sc0 ∧ dict_keys sc0 = prev) as (sc0 & Hsc & Hkeys).
  { rewrite <- HK in Hprev. unfold keys_of in Hprev. rewrite lookup_fmap in Hprev.
    destruct (σ !! (i - 1)%nat) as [sc0|]; simpl in Hprev; [|done].
    injection Hprev as <-. eauto. }
  assert (Hstep : succeeds K
    match List.find is_nhm (dict_keys sc0) with
    | Some pt => add_score (i - 1) pt 2
    | None => ret tt
    end).
  { destruct (List.find is_nhm (dict_keys sc0)) as [pt|] eqn:Hfind; [|apply succeeds_ret].
    apply succeeds_add_score. rewrite Hprev. simpl. rewrite <- Hkeys.
    apply find_some in Hfind as [Hin _]. by apply list_elem_of_In. }
  destruct (Hstep σ HK) as (σ' & Hrun & HK'). exists σ'. split; [|done].
  unfold prop_up_nhm, bind at 1, get_state. unfold bind at 1, or_raise, ret.
  rewrite Hsc. exact Hrun.
Qed.

Lemma succeeds_verb_infinitive t : t ∈ s → succeeds K (verb_infinitive finals i s t).
Proof.
  intros Ht. unfold verb_infinitive. fold (nhm_before finals i).
  destruct (is_nh t); [|apply succeeds_ret].
  apply succeeds_bind.
  - destruct (nhm_before finals i) eqn:Hb; [|apply succeeds_ret].
    apply succeeds_bind; [by apply succeeds_own|].
    apply succeeds_prop_up_nhm. by apply keys_before.
  - destruct (existsb is_noun_ef_ft s); [by apply succeeds_own|apply succeeds_ret].
Qed.

Lemma succeeds_heuristics t :
  t ∈ s → readable t →
  succeeds K (heuristics VERBS_0 SCORES finals w_start i s tok t).
Proof.
  intros Ht [Hname Hverb]. unfold heuristics.
  destruct (String.eqb (first t) "ao" || String.eqb (first t) "eo");
    [by apply succeeds_own|].
  destruct (String.eqb (first t) "no").
  { repeat case_match; first [by apply succeeds_own | apply succeeds_ret]. }
  destruct (String.eqb (first t) "fs").
  { repeat case_match; by apply succeeds_own. }
  destruct (String.eqb (first t) "so") eqn:Hso.
  { apply String.eqb_eq in Hso.
    apply succeeds_bind; [by apply succeeds_verb_arguments; auto|].
    apply succeeds_bind; [by apply succeeds_verb_form|].
    apply succeeds_bind; [by apply succeeds_verb_subject|].
    by apply succeeds_verb_infinitive. }
  destruct (String.eqb (first t) "tala" || String.eqb (first t) "töl").
  { apply succeeds_bind.
    - destruct (String.eqb (first t) "tala"); [by apply succeeds_own|apply succeeds_ret].
    - apply succeeds_for_each. intros pt Hpt.
      destruct (is_ef_number pt); [by apply succeeds_own|apply succeeds_ret]. }
  destruct (String.eqb (first t) "sérnafn").
  { destruct (t2 tok); [by apply succeeds_own|].
    apply succeeds_bind; [by apply succeeds_own|].
    destruct (i =? w_start)%nat; [by apply succeeds_own|apply succeeds_ret]. }
  destruct (starts_with_quote_is_Some _ Hname) as [literal Hlit].
  eapply succeeds_or_raise; [done|].
  destruct literal; [by apply succeeds_own|apply succeeds_ret].
Qed.
End heuristics_succeed.

Section positions_succeed.
Variable Preferences : string → option (list Pref).
Variable VERBS_0 : gset string.
Variable SCORES : gmap string Z.
Variable finals : gmap nat (list Terminal).
Variable tokens : gmap nat Token.
Variable w_start : nat.

(** The conditions under which the position [i] is scored. *)
Let scorable (i : nat) : Prop :=
  NoDup (finals_at finals i)
  ∧ ((1 < length (finals_at finals i))%nat → is_Some (tokens !! i))
  ∧ ∀ t, t ∈ finals_at finals i → readable t.

Lemma score_position_returns i (σ : Scores) :
  scorable i →
  (nhm_before finals i = true → is_Some (keys_of σ !! (i - 1)%nat)) →
  ∃ σ', score_position Preferences VERBS_0 SCORES finals tokens w_start i σ = Ok (tt, σ')
        ∧ keys_of σ' = <[i := finals_at finals i]> (keys_of σ).
Proof.
  intros (Hset & Htok & Hread) Hprev. set (s := finals_at finals i) in *.
  pose proof (keys_of_init σ i s Hset) as Hinit.
  unfold score_position. fold s. unfold bind at 1, modify.
  destruct (length s <=? 1)%nat eqn:Hlen; [by eauto|].
  apply Nat.leb_gt in Hlen. destruct (Htok Hlen) as [tok Htok'].
  unfold bind at 1, or_raise, ret. rewrite Htok'.
  assert (Hhere : <[i := s]> (keys_of σ) !! i = Some s) by apply lookup_insert_eq.
  assert (Hstep : succeeds (<[i := s]> (keys_of σ))
    (exec check_preferences Preferences i s tok in
     for_each s (heuristics VERBS_0 SCORES finals w_start i s tok))).
  { apply succeeds_bind.
    - apply succeeds_check_preferences; [done|]. intros t Ht. by apply Hread.
    - apply succeeds_for_each. intros t Ht.
      apply succeeds_heuristics; [done| |done|by apply Hread].
      intros Hb. pose proof Hb as Hb'. unfold nhm_before in Hb'.
      apply andb_true_iff in Hb' as [Hi%Nat.ltb_lt _].
      rewrite lookup_insert_ne by lia. by apply Hprev. }
  apply (Hstep _ Hinit).
Qed.

Lemma score_positions_return n : ∀ a (σ : Scores),
  (∀ j, (a ≤ j < a + n)%nat → scorable j) →
  (nhm_before finals a = true → is_Some (keys_of σ !! (a - 1)%nat)) →
  ∃ σ', for_each (seq a n)
          (score_position Preferences VERBS_0 SCORES finals tokens w_start) σ = Ok (tt, σ').
Proof.
  induction n as [|n IH]; intros a σ Hall Hprev; simpl.
  - by exists σ.
  - destruct (score_position_returns a σ) as (σ1 & Hrun1 & HK1); [apply Hall; lia|done|].
    destruct (IH (Datatypes.S a) σ1) as (σ' & Hrun); [intros j Hj; apply Hall; lia| |].
    { intros _. simpl. rewrite Nat.sub_0_r, HK1, lookup_insert_eq. eauto. }
    exists σ'. unfold bind. by rewrite Hrun1.
Qed.
End positions_succeed.

(** The loop over the positions of a forest returns. *)
Lemma score_positions_returns Preferences VERBS_0 SCORES finals tokens (w : Node) :
  (∀ j, NoDup (finals_at finals j)) →
  (∀ j, (j < start w)%nat → finals_at finals j = []) →
  (∀ j, (start w ≤ j < end_ w)%nat → (1 < length (finals_at finals j))%nat →
     is_Some (tokens !! j)) →
  (∀ j t, (start w ≤ j < end_ w)%nat → t ∈ finals_at finals j → readable t) →
  ∃ σ, score_positions Preferences VERBS_0 SCORES finals tokens w ∅ = Ok (tt, σ).
Proof.
  intros Hsets Hbefore Htokens Hread. unfold score_positions.
  apply score_positions_return.
  - intros j Hj. split; [done|]. split; [apply Htokens|intros t; apply Hread]; lia.
  - unfold nhm_before. destruct (start w) as [|k]; [done|]. simpl.
    rewrite Nat.sub_0_r, Hbefore by lia. done.
Qed.

(** X4: the scoring loop raises nothing when the option finder recorded
    sets of terminals, none before the start of the forest, with a token
    at each position of the span that has more than one candidate, and
    when the candidates are readable: no name is empty and every verb
    terminal has a first variant, which is not empty. *)
Theorem X4_scoring_raises_nothing Preferences VERBS_0 SCORES finals tokens (w : Node) :
  (∀ j, NoDup (finals_at finals j)) →
  (∀ j, (j < start w)%nat → finals_at finals j = []) →
  (∀ j, (start w ≤ j < end_ w)%nat → (1 < length (finals_at finals j))%nat →
     is_Some (tokens !! j)) →
  (∀ j t, (start w ≤ j < end_ w)%nat → t ∈ finals_at finals j → readable t) →
  ∃ σ, score_positions Preferences VERBS_0 SCORES finals tokens w ∅ = Ok (tt, σ).
Proof. apply score_positions_returns. Qed.

(** The candidates of the sample with the infinitive marker are sets. *)
Lemma inf_finals_sets j : NoDup (finals_at Sample.inf_finals j).
Proof.
  unfold finals_at, Sample.inf_finals.
  destruct (decide (j = 0%nat)) as [->|H0].
  { vm_compute. repeat constructor; set_solver. }
  destruct (decide (j = 1%nat)) as [->|H1].
  { vm_compute. repeat constructor; set_solver. }
  rewrite lookup_insert_ne, lookup_singleton_ne by done. apply NoDup_nil_2.
Qed.

Lemma X4_scoring_raises_nothing_witness :
  ∃ σ, score_positions Sample.no_prefs ∅ Sample.verb_scores
         Sample.inf_finals Sample.inf_tokens
         Sample2.two_positions ∅ = Ok (tt, σ).
Proof.
  apply (X4_scoring_raises_nothing Sample.no_prefs ∅ Sample.verb_scores
           Sample.inf_finals Sample.inf_tokens
           Sample2.two_positions).
  - apply inf_finals_sets.
  - simpl. intros j Hj. lia.
  - simpl. intros j Hj _.
    destruct j as [|[|j]]; [by vm_compute; eauto..|lia].
  - simpl. intros j t Hj Ht.
    destruct j as [|[|j]]; [| |lia]; vm_compute in Ht;
      repeat (apply elem_of_cons in Ht as [->|Ht]);
      try (by apply elem_of_nil in Ht);
      (split; [done|]); intros Hso; try done;
      (eexists; split; [reflexivity|done]).
Defined.

(** ** The scores after the loop *)

Lemma fmap_add_0 (o : option Z) : (λ z, z + 0) <$> o = o.
Proof. destruct o; simpl; [f_equal; lia|done]. Qed.

Section loop_effect.
Variable Preferences : string → option (list Pref).
Variable VERBS_0 : gset string.
Variable SCORES : gmap string Z.
Variable finals : gmap nat (list Terminal).
Variable tokens : gmap nat Token.
Variable w_start : nat.
Hypothesis finals_sets : ∀ j, NoDup (finals_at finals j).

Let own_score := position_score Preferences VERBS_0 SCORES finals tokens w_start.
Let bonus := bonus_from finals.

(** The loop body at [i] sets the scores at [i], adds to the first [nhm]
    key at the position before, and leaves the rest. *)
Lemma score_position_effect i (σ σ' : Scores) u0 :
  score_position Preferences VERBS_0 SCORES finals tokens w_start i σ = Ok (u0, σ') →
  ∀ j u, score_at σ' j u =
    if decide (j = i) then
      if decide (u ∈ finals_at finals i) then Some (own_score i u) else None
    else if decide (j + 1 = i)%nat then
      (λ z, z + bonus (default [] (keys_of σ !! j)) i u) <$> score_at σ j u
    else score_at σ j u.
Proof.
  intros Hrun j u. unfold own_score, bonus, position_score, bonus_from.
  set (s := finals_at finals i).
  destruct (score_position_spec Preferences VERBS_0 SCORES finals tokens w_start i
              (finals_sets i) σ σ' u0 Hrun) as (_ & Hone & Hmore).
  fold s in Hone, Hmore.
  destruct (decide (length s ≤ 1)%nat) as [Hle|Hgt].
  - rewrite (Hone Hle), score_at_init.
    assert ((length s <=? 1)%nat = true) as -> by by apply Nat.leb_le.
    assert ((1 <? length s)%nat = false) as -> by (apply Nat.ltb_ge; lia).
    simpl. destruct (decide (j = i)); [done|].
    destruct (decide (j + 1 = i)%nat); [by rewrite fmap_add_0|done].
  - assert (Hlen : (1 < length s)%nat) by lia.
    destruct (Hmore Hlen) as (tok & Htok & Hat). rewrite Hat, score_at_init, Htok.
    assert ((length s <=? 1)%nat = false) as -> by (apply Nat.leb_gt; lia).
    assert ((1 <? length s)%nat = true) as -> by by apply Nat.ltb_lt.
    simpl. destruct (decide (j = i)) as [->|Hj].
    + destruct (decide (u ∈ s)) as [Hu|Hu]; [|done]. simpl.
      rewrite heuristics_total_here by (done || apply finals_sets). f_equal. lia.
    + destruct (decide (j + 1 = i)%nat) as [Hb|Hb].
      * assert (j = (i - 1)%nat) as -> by lia.
        rewrite heuristics_total_before by (apply finals_sets || lia).
        unfold nhm_bonus. rewrite lookup_insert_ne by lia.
        destruct (score_at σ _ u); simpl; [|done]. f_equal.
        destruct (nhm_before finals i); [|lia].
        destruct (List.find is_nhm _) as [pt|]; [|lia].
        unfold at_place. destruct (decide (u = pt)) as [->|Hne].
        -- rewrite decide_True by done. lia.
        -- rewrite decide_False by naive_solver. lia.
      * rewrite heuristics_total_elsewhere by (apply finals_sets || lia).
        destruct (score_at σ j u); simpl; [f_equal; lia|done].
Qed.

(** The loop over [n] positions from [a] on. *)
Lemma score_positions_effect n : ∀ a (σ σ' : Scores) u0,
  for_each (seq a n) (score_position Preferences VERBS_0 SCORES finals tokens w_start) σ
    = Ok (u0, σ') →
  ∀ j u, score_at σ' j u =
    if decide (a ≤ j < a + n)%nat then
      if decide (u ∈ finals_at finals j) then
        Some (own_score j u
              + if decide (j + 1 < a + n)%nat
                then bonus (finals_at finals j) (j + 1) u else 0)
      else None
    else if decide (0 < n ∧ j + 1 = a)%nat then
      (λ z, z + bonus (default [] (keys_of σ !! j)) a u) <$> score_at σ j u
    else score_at σ j u.
Proof.
  induction n as [|n IH]; intros a σ σ' u0 Hrun j u; simpl in Hrun.
  - apply ret_Ok in Hrun as [_ ->].
    rewrite decide_False by lia. rewrite decide_False by lia. done.
  - apply bind_Ok in Hrun as (u1 & σ1 & Hpos & Hrun).
    pose proof (score_position_effect _ _ _ _ Hpos) as Hstep.
    destruct (score_position_spec Preferences VERBS_0 SCORES finals tokens w_start a
                (finals_sets a) σ σ1 u1 Hpos) as (HK1 & _).
    rewrite (IH _ _ _ _ Hrun j u), (Hstep j u), HK1.
    replace (a + Datatypes.S n)%nat with (Datatypes.S a + n)%nat by lia.
    destruct (decide (j = a)) as [->|Hja].
    + rewrite lookup_insert_eq. replace (a + 1)%nat with (Datatypes.S a) by lia. simpl.
      repeat case_decide; try lia; try done. f_equal. lia.
    + rewrite lookup_insert_ne by done.
      repeat case_decide; try lia; done.
Qed.

(** A loop that returned has run its body at each position. *)
Lemma score_positions_steps n : ∀ a (σ σ' : Scores) u0 j,
  for_each (seq a n) (score_position Preferences VERBS_0 SCORES finals tokens w_start) σ
    = Ok (u0, σ') →
  (a ≤ j < a + n)%nat →
  ∃ σ1 σ2 u1,
    score_position Preferences VERBS_0 SCORES finals tokens w_start j σ1 = Ok (u1, σ2).
Proof.
  induction n as [|n IH]; intros a σ σ' u0 j Hrun Hj; [lia|]. simpl in Hrun.
  apply bind_Ok in Hrun as (u1 & σ1 & Hpos & Hrun).
  destruct (decide (j = a)) as [->|Hne]; [by eauto|].
  apply (IH _ _ _ _ j Hrun). lia.
Qed.
End loop_effect.

(** The bonus of the position after, on the candidates of this one. *)
Lemma bonus_from_marker finals w_end j u :
  (if decide (j + 1 < w_end)%nat then bonus_from finals (finals_at finals j) (j + 1) u else 0)
  = marker_bonus finals w_end j u.
Proof.
  unfold bonus_from, marker_bonus, nhm_before.
  replace (j + 1 - 1)%nat with j by lia.
  assert ((0 <? j + 1)%nat = true) as -> by (apply Nat.ltb_lt; lia). simpl.
  destruct (decide (j + 1 < w_end)%nat) as [Hlt|Hge].
  - assert ((j + 1 <? w_end)%nat = true) as -> by by apply Nat.ltb_lt.
    simpl. destruct (1 <? length (finals_at finals (j + 1)))%nat; [|done]. simpl.
    destruct (List.find is_nhm (finals_at finals j)) as [pt|] eqn:Hfind.
    + assert (existsb is_nhm (finals_at finals j) = true) as ->.
      { apply find_some in Hfind. apply existsb_exists. eauto. }
      destruct (decide (u = pt)) as [->|Hne].
      * rewrite bool_decide_eq_true_2 by done. lia.
      * rewrite bool_decide_eq_false_2 by congruence. lia.
    + rewrite bool_decide_eq_false_2 by done.
      by destruct (existsb is_nhm (finals_at finals j)).
  - assert ((j + 1 <? w_end)%nat = false) as -> by (apply Nat.ltb_ge; lia). done.
Qed.

(** X3: the scores the loop ends with, in closed form.  There is a score
    for the candidates found at the positions of the span of the forest,
    and for nothing else.  A candidate that is alone at its position has
    the marker bonus only: 2 for each verb terminal in the infinitive at
    the next position, when that position is in the span and has more than
    one candidate and this candidate is the first [nhm] terminal here.
    At a position with more candidates, the score is what the
    preferences give, what the heuristics for the terminal give, -1 for
    each number terminal among the candidates when the terminal is a noun
    or a number in the genitive, and the marker bonus.  So a score depends
    on the candidates and the token of its position and on the candidates
    of the two positions next to it, and on no other position. *)
Theorem X3_final_scores Preferences VERBS_0 SCORES finals tokens (w : Node)
    (σ : Scores) (j : nat) (u : Terminal) :
  let s := finals_at finals j in
  (∀ i, NoDup (finals_at finals i)) →
  score_positions Preferences VERBS_0 SCORES finals tokens w ∅ = Ok (tt, σ) →
  (¬ ((start w ≤ j < end_ w)%nat ∧ u ∈ s) → score_at σ j u = None)
  ∧ ((start w ≤ j < end_ w)%nat → u ∈ s → (length s ≤ 1)%nat →
       score_at σ j u = Some (marker_bonus finals (end_ w) j u))
  ∧ ((start w ≤ j < end_ w)%nat → u ∈ s → (1 < length s)%nat →
       ∃ tok, tokens !! j = Some tok
         ∧ score_at σ j u =
             Some (pref_adjust Preferences s tok u
                   + own_adjust VERBS_0 SCORES finals (start w) j s tok u
                   + (if is_ef_number u
                      then - Z.of_nat (length (List.filter is_number s)) else 0)
                   + marker_bonus finals (end_ w) j u)).
Proof.
  intros s Hsets Hrun. unfold score_positions in Hrun.
  pose proof (score_positions_effect Preferences VERBS_0 SCORES finals tokens (start w)
                Hsets _ _ _ _ _ Hrun j u) as Hat.
  fold s in Hat.
  assert (score_at (∅ : Scores) j u = None) as Hnone
    by (unfold score_at; by rewrite lookup_empty).
  rewrite Hnone in Hat. simpl in Hat.
  split; [|split].
  - intros Hout. rewrite Hat.
    repeat case_decide; try done; exfalso; apply Hout; (split; [lia|done]).
  - intros Hj Hu Hlen.
    replace (start w + (end_ w - start w))%nat with (end_ w) in Hat by lia.
    rewrite Hat, decide_True, decide_True by (done || lia).
    rewrite bonus_from_marker. unfold position_score. fold s.
    assert ((length s <=? 1)%nat = true) as -> by by apply Nat.leb_le. done.
  - intros Hj Hu Hlen.
    destruct (score_positions_steps Preferences VERBS_0 SCORES finals tokens (start w)
                _ _ _ _ _ j Hrun) as (σ1 & σ2 & u1 & Hstep); [lia|].
    destruct (score_position_spec Preferences VERBS_0 SCORES finals tokens (start w) j
                (Hsets j) σ1 σ2 u1 Hstep) as (_ & _ & Hmore).
    destruct (Hmore Hlen) as (tok & Htok & _). exists tok. split; [done|].
    replace (start w + (end_ w - start w))%nat with (end_ w) in Hat by lia.
    rewrite Hat, decide_True, decide_True by (done || lia).
    rewrite bonus_from_marker. unfold position_score. fold s. rewrite Htok.
    assert ((length s <=? 1)%nat = false) as -> by (apply Nat.leb_gt; lia). done.
Qed.

Lemma X3_final_scores_witness :
  let finals := Sample.inf_finals in
  let w := Sample2.two_positions in
  let σ : Scores := {[ 0%nat := [(Sample.nhm, 2); (Sample.fs_thf, 2)];
                       1%nat := [(Sample.so_nh, 11); (Sample.no_ef_ft, 0)] ]} in
  let s := finals_at finals 0 in
  (¬ ((start w ≤ 0 < end_ w)%nat ∧ Sample.nhm ∈ s) → score_at σ 0 Sample.nhm = None)
  ∧ ((start w ≤ 0 < end_ w)%nat → Sample.nhm ∈ s → (length s ≤ 1)%nat →
       score_at σ 0 Sample.nhm = Some (marker_bonus finals (end_ w) 0 Sample.nhm))
  ∧ ((start w ≤ 0 < end_ w)%nat → Sample.nhm ∈ s → (1 < length s)%nat →
       ∃ tok, Sample.inf_tokens !! 0%nat = Some tok
         ∧ score_at σ 0 Sample.nhm =
             Some (pref_adjust Sample.no_prefs s tok Sample.nhm
                   + own_adjust ∅ Sample.verb_scores finals (start w) 0 s tok Sample.nhm
                   + (if is_ef_number Sample.nhm
                      then - Z.of_nat (length (List.filter is_number s)) else 0)
                   + marker_bonus finals (end_ w) 0 Sample.nhm)).
Proof.
  apply (X3_final_scores Sample.no_prefs ∅ Sample.verb_scores Sample.inf_finals
           Sample.inf_tokens Sample2.two_positions
           {[ 0%nat := [(Sample.nhm, 2); (Sample.fs_thf, 2)];
              1%nat := [(Sample.so_nh, 11); (Sample.no_ef_ft, 0)] ]}
           0 Sample.nhm).
  - apply inf_finals_sets.
  - vm_compute. reflexivity.
Defined.

(** On the sample the marker [nhm], which has no score of its own, ends
    with the bonus 2 of the verb in the infinitive after it. *)
Example marker_sample :
  marker_bonus Sample.inf_finals 2 0 Sample.nhm = 2
  ∧ marker_bonus Sample.inf_finals 2 0 Sample.fs_thf = 0.
Proof. split; vm_compute; reflexivity. Qed.

(** ** The scoring pass on a forest *)

(** The scoring pass returns. *)
Lemma calc_terminal_scores_returns Preferences VERBS_0 SCORES (w : Node) :
  wf_ids w → spans_nested w →
  (∀ d, TokenNode d ∈ nodes w → readable (terminal d)) →
  ∃ scores, _calc_terminal_scores Preferences VERBS_0 SCORES w = Ok scores.
Proof.
  intros Hids Hspans Hread.
  destruct (find_options_spec w Hids) as (finals & tokens & Hrun & Hrec & Hsets & Hfrom).
  simpl in Hsets, Hfrom.
  destruct (score_positions_returns Preferences VERBS_0 SCORES finals tokens w)
    as (σ & Hloop); [done| | | |].
  - intros j Hj. destruct (finals_at finals j) as [|t l] eqn:Hs; [done|].
    destruct (Hfrom j t) as (d & Hd & Hstart & _); [rewrite Hs; left|].
    destruct (spans_nested_nodes w Hspans _ Hd) as (Hle & _). simpl in Hle. lia.
  - intros j _ Hlen. destruct (finals_at finals j) as [|t l] eqn:Hs; [simpl in Hlen; lia|].
    destruct (Hfrom j t) as (d & Hd & <- & _); [rewrite Hs; left|].
    by apply Hrec.
  - intros j t _ Ht. destruct (Hfrom j t Ht) as (d & Hd & _ & <-). by apply Hread.
  - exists σ. unfold _calc_terminal_scores. by rewrite Hrun, Hloop.
Qed.

(** X5: on a forest whose nodes have consistent identities and nested
    spans and whose token nodes have readable terminals (a name that is
    not empty and, for a verb terminal, a first variant that is not
    empty), [_calc_terminal_scores] raises nothing: the option finder
    returns, every position with more than one candidate has its token,
    and every score the heuristics add to is there. *)
Theorem X5_scorer_returns Preferences VERBS_0 SCORES (w : Node) :
  wf_ids w → spans_nested w →
  (∀ d, TokenNode d ∈ nodes w → readable (terminal d)) →
  ∃ scores, _calc_terminal_scores Preferences VERBS_0 SCORES w = Ok scores.
Proof. apply calc_terminal_scores_returns. Qed.

Lemma X5_scorer_returns_witness :
  ∃ scores, _calc_terminal_scores Sample.ekki_prefs ∅ ∅ Sample.shared_forest = Ok scores.
Proof.
  apply (X5_scorer_returns Sample.ekki_prefs ∅ ∅ Sample.shared_forest).
  - exact shared_forest_ids.
  - exact shared_forest_spans.
  - intros d Hd. apply list_elem_of_In in Hd. simpl in Hd.
    destruct Hd as [Hd|[Hd|[Hd|[Hd|[]]]]]; try discriminate Hd;
      injection Hd as <-; (split; [done|]); intros Hso; discriminate Hso.
Defined.

(** ** The heuristics by category *)

(** X6: at a position with more than one candidate terminal, a
    preposition terminal ends with what the preference step gave it and,
    from the heuristics, -5 when it has the variant [nf]; else +1 when the
    token is the word við and the terminal has the variant [þgf]; else -6
    when the token is the word sem and the terminal has the variant [þf];
    else +2.  The tests are made in this order: a preposition with [nf]
    gets -5 whatever the word is. *)
Theorem X6_prepositions Preferences VERBS_0 SCORES finals tokens w_start i
    (σ σ' : Scores) t :
  let s := finals_at finals i in
  NoDup s → (1 < length s)%nat → t ∈ s →
  first t = "fs" →
  score_position Preferences VERBS_0 SCORES finals tokens w_start i σ = Ok (tt, σ') →
  ∃ tok, tokens !! i = Some tok
    ∧ score_at σ' i t =
        Some (pref_adjust Preferences s tok t
              + if has_variant t "nf" then -5
                else if String.eqb (lower tok) "við" && has_variant t "þgf" then 1
                else if String.eqb (lower tok) "sem" && has_variant t "þf" then -6
                else 2).
Proof.
  intros s Hs Hlen Ht Hfirst Hrun.
  destruct (score_position_here Preferences VERBS_0 SCORES finals tokens w_start i
              Hs σ σ' tt t Hlen Ht Hrun) as (tok & Htok & Hsc).
  exists tok. split; [done|]. rewrite Hsc. fold s. f_equal.
  unfold own_adjust, is_ef_number. rewrite Hfirst.
  cbn [String.eqb Ascii.eqb Bool.eqb orb andb]. lia.
Qed.

Lemma X6_prepositions_witness :
  ∃ tok, Sample.inf_tokens !! 0%nat = Some tok
    ∧ score_at {[ 0%nat := [(Sample.nhm, 0); (Sample.fs_thf, 2)] ]} 0 Sample.fs_thf =
        Some (pref_adjust Sample.no_prefs (finals_at Sample.inf_finals 0) tok Sample.fs_thf
              + if has_variant Sample.fs_thf "nf" then -5
                else if String.eqb (lower tok) "við" && has_variant Sample.fs_thf "þgf"
                then 1
                else if String.eqb (lower tok) "sem" && has_variant Sample.fs_thf "þf"
                then -6
                else 2).
Proof.
  apply (X6_prepositions Sample.no_prefs ∅ Sample.verb_scores Sample.inf_finals
           Sample.inf_tokens 0 0 ∅).
  - vm_compute. repeat constructor; set_solver.
  - vm_compute. lia.
  - vm_compute. right; left.
  - reflexivity.
  - vm_compute. reflexivity.
Defined.

(** X7: at a position with more than one candidate terminal, an adverb
    terminal, of the category [ao] or [eo], ends with what the preference
    step gave it and -1; a terminal of none of the categories the
    heuristics know ([ao], [eo], [no], [fs], [so], [tala], [töl],
    [sérnafn]) ends with what the preference step gave it, and +1 when it
    is a literal terminal, its name beginning with a quote. *)
Theorem X7_adverbs_and_literals Preferences VERBS_0 SCORES finals tokens w_start i
    (σ σ' : Scores) t :
  let s := finals_at finals i in
  NoDup s → (1 < length s)%nat → t ∈ s →
  score_position Preferences VERBS_0 SCORES finals tokens w_start i σ = Ok (tt, σ') →
  ∃ tok, tokens !! i = Some tok
    ∧ (first t = "ao" ∨ first t = "eo" →
         score_at σ' i t = Some (pref_adjust Preferences s tok t - 1))
    ∧ (first t ∉ ["ao"; "eo"; "no"; "fs"; "so"; "tala"; "töl"; "sérnafn"] →
         score_at σ' i t =
           Some (pref_adjust Preferences s tok t + if is_literal t then 1 else 0)).
Proof.
  intros s Hs Hlen Ht Hrun.
  destruct (score_position_here Preferences VERBS_0 SCORES finals tokens w_start i
              Hs σ σ' tt t Hlen Ht Hrun) as (tok & Htok & Hsc).
  exists tok. split; [done|]. fold s in Hsc. split.
  - intros Hfirst. rewrite Hsc. f_equal. unfold own_adjust, is_ef_number.
    destruct Hfirst as [-> | ->]; cbn [String.eqb Ascii.eqb Bool.eqb orb andb]; lia.
  - intros Hother. rewrite Hsc. f_equal. unfold own_adjust, is_ef_number.
    repeat (apply not_elem_of_cons in Hother as [?%String.eqb_neq Hother]).
    repeat match goal with H : String.eqb _ _ = false |- _ => rewrite H; clear H end.
    cbn [orb andb]. lia.
Qed.

Lemma X7_adverbs_and_literals_witness :
  let σ' : Scores := {[ 0%nat := [(Sample.ao, 3); (Sample.no_hk, -2)] ]} in
  let s := finals_at Sample.ekki_finals 0 in
  ∃ tok, Sample.ekki_tokens !! 0%nat = Some tok
    ∧ (first Sample.ao = "ao" ∨ first Sample.ao = "eo" →
         score_at σ' 0 Sample.ao = Some (pref_adjust Sample.ekki_prefs s tok Sample.ao - 1))
    ∧ (first Sample.ao ∉ ["ao"; "eo"; "no"; "fs"; "so"; "tala"; "töl"; "sérnafn"] →
         score_at σ' 0 Sample.ao =
           Some (pref_adjust Sample.ekki_prefs s tok Sample.ao
                 + if is_literal Sample.ao then 1 else 0)).
Proof.
  apply (X7_adverbs_and_literals Sample.ekki_prefs ∅ ∅ Sample.ekki_finals
           Sample.ekki_tokens 0 0 ∅).
  - vm_compute. repeat constructor; set_solver.
  - vm_compute. lia.
  - vm_compute. left.
  - vm_compute. reflexivity.
Defined.

(** X8: at a position with more than one candidate terminal, a verb
    terminal that is not in the infinitive and whose first variant is the
    number [n] of its arguments, 0, 1 or 2, ends with what the preference
    step gave it and, from the heuristics: [2 * n], or -5 in place of it
    when [n] is 0 and no verb meaning of the token has its stem among the
    verbs without arguments or is in the middle voice (so also when the
    token has no verb meaning at all); the score of the first verb meaning
    that has one for the cases of the terminal; +6 for [sagnb], else for
    [lh] -2 with the variant [vb] and +3 without, else +3 for [mm], else
    +2 for [vh]; and for a subject -3 with the variant [none], else +1. *)
Theorem X8_verbs Preferences VERBS_0 SCORES finals tokens w_start i
    (σ σ' : Scores) t v0 n :
  let s := finals_at finals i in
  NoDup s → (1 < length s)%nat → t ∈ s →
  first t = "so" → is_nh t = false →
  variant t 0 = Some v0 → v0 ∈ ["0"; "1"; "2"] → py_int v0 = Some n →
  score_position Preferences VERBS_0 SCORES finals tokens w_start i σ = Ok (tt, σ') →
  ∃ tok, tokens !! i = Some tok
    ∧ score_at σ' i t =
        Some (pref_adjust Preferences s tok t
              + (if (n =? 0) && no_zero_arg_meaning VERBS_0 tok then -5 else 2 * n)
              + verb_case_score SCORES t (t2 tok)
              + (if is_sagnb t then 6
                 else if is_lh t then (if has_variant t "vb" then -2 else 3)
                 else if is_mm t then 3
                 else if is_vh t then 2
                 else 0)
              + (if is_subj t then (if has_variant t "none" then -3 else 1) else 0)).
Proof.
  intros s Hs Hlen Ht Hfirst Hnh Hv0 Hdigit Hn Hrun.
  destruct (score_position_here Preferences VERBS_0 SCORES finals tokens w_start i
              Hs σ σ' tt t Hlen Ht Hrun) as (tok & Htok & Hsc).
  exists tok. split; [done|]. rewrite Hsc. fold s. f_equal.
  unfold own_adjust, is_ef_number, verb_infinitive_adj, verb_arguments_adj,
    verb_form_adj, verb_subject_adj.
  rewrite Hfirst, Hnh, Hv0, Hn.
  cbn [String.eqb Ascii.eqb Bool.eqb orb andb].
  assert (str_in v0 "012" = true) as ->.
  { repeat (apply elem_of_cons in Hdigit as [->|Hdigit]); try reflexivity.
    by apply elem_of_nil in Hdigit. }
  lia.
Qed.

Lemma X8_verbs_witness :
  let σ' : Scores := {[ 0%nat := [(Sample.so_1, 3); (Sample.no_et, 1)] ]} in
  let s := finals_at Sample2.verb_finals 0 in
  let t := Sample.so_1 in
  ∃ tok, Sample2.verb_tokens !! 0%nat = Some tok
    ∧ score_at σ' 0 t =
        Some (pref_adjust Sample.no_prefs s tok t
              + (if (1 =? 0) && no_zero_arg_meaning ∅ tok then -5 else 2 * 1)
              + verb_case_score Sample.verb_scores t (t2 tok)
              + (if is_sagnb t then 6
                 else if is_lh t then (if has_variant t "vb" then -2 else 3)
                 else if is_mm t then 3
                 else if is_vh t then 2
                 else 0)
              + (if is_subj t then (if has_variant t "none" then -3 else 1) else 0)).
Proof.
  apply (X8_verbs Sample.no_prefs ∅ Sample.verb_scores Sample2.verb_finals
           Sample2.verb_tokens 0 0 ∅ _ Sample.so_1 "1" 1).
  - vm_compute. repeat constructor; set_solver.
  - vm_compute. lia.
  - vm_compute. left.
  - reflexivity.
  - reflexivity.
  - reflexivity.
  - right; left.
  - reflexivity.
  - vm_compute. reflexivity.
Defined.

(** ** The reducing walk on any forest *)

Lemma kept_unique d fams ix ix' : kept d fams ix → kept d fams ix' → ix = ix'.
Proof.
  intros (prod & rs & Hfam & Hc & Hbest) (prod' & rs' & Hfam' & Hc' & Hbest').
  destruct (Hbest _ _ Hfam' Hc') as [Hle Htie].
  destruct (Hbest' _ _ Hfam Hc) as [Hle' Htie']. simpl in *.
  assert (Zsum rs = Zsum rs') as Heq by lia.
  specialize (Htie (eq_sym Heq)). specialize (Htie' Heq). lia.
Qed.

Lemma foldr_max_bounds z zs :
  foldr Z.max z zs ∈ z :: zs ∧ ∀ y, y ∈ z :: zs → y ≤ foldr Z.max z zs.
Proof.
  induction zs as [|x zs [IHin IHle]]; simpl.
  - split; [left|]. intros y ->%list_elem_of_singleton. lia.
  - split.
    + destruct (Z.max_spec x (foldr Z.max z zs)) as [[_ ->]|[_ ->]].
      * apply elem_of_cons in IHin as [->|Hin]; [left|right; by right].
      * right; left.
    + intros y [->|[->|Hy]%elem_of_cons]%elem_of_cons.
      * specialize (IHle z (list_elem_of_here _ _)). lia.
      * lia.
      * specialize (IHle y (list_elem_of_further _ _ _ Hy)). lia.
Qed.

(** The total of the family that is kept is the greatest total. *)
Lemma best_total_kept d fams ix prod rs :
  fams !! ix = Some (prod, rs) → kept d fams ix → best_total d fams = Zsum rs.
Proof.
  intros Hfam (prod' & rs' & Hfam' & Hc & Hbest).
  rewrite Hfam in Hfam'. injection Hfam' as <- <-.
  unfold best_total.
  assert (Hmem : Zsum rs ∈ (λ fam : Production * list Z, Zsum fam.2)
                             <$> filter (considered d fams) fams).
  { apply list_elem_of_fmap. exists (prod, rs). split; [done|].
    apply list_elem_of_filter. split; [done|]. by eapply list_elem_of_lookup_2. }
  assert (Hall : ∀ y, y ∈ (λ fam : Production * list Z, Zsum fam.2)
                             <$> filter (considered d fams) fams → y ≤ Zsum rs).
  { intros y (fam' & -> & [Hc' Hin]%list_elem_of_filter)%list_elem_of_fmap.
    apply list_elem_of_lookup in Hin as [ix' Hix']. by apply (Hbest _ _ Hix' Hc'). }
  destruct (_ <$> _) as [|z zs]; [by apply elem_of_nil in Hmem|].
  destruct (foldr_max_bounds z zs) as [Hin Hle].
  specialize (Hle _ Hmem). specialize (Hall _ Hin). lia.
Qed.

Lemma best_score_nonterminal nt_scores scores d fams :
  best_score nt_scores scores (NonterminalNode d fams) =
    best_total d (results_of nt_scores scores fams) + node_adjustment nt_scores d.
Proof. reflexivity. Qed.

(** A node is not under one of its children. *)
Lemma flat_map_length_elem {A B} (f : A → list B) (l : list A) x :
  x ∈ l → (length (f x) ≤ length (flat_map f l))%nat.
Proof.
  induction l as [|y l IH]; [by intros ?%elem_of_nil|].
  simpl. rewrite length_app. intros [->|Hx%IH]%elem_of_cons; lia.
Qed.

Lemma nodes_length w : ∀ u, u ∈ nodes w → (length (nodes u) ≤ length (nodes w))%nat.
Proof.
  induction w as [d|d fams IH] using Node_induction; intros u Hu.
  - by apply list_elem_of_singleton in Hu as ->.
  - rewrite nodes_nonterminal in Hu. apply elem_of_cons in Hu as [->|Hu]; [done|].
    apply list_elem_of_In, in_flat_map in Hu as ([n|] & Hn & Hu); [|done].
    apply list_elem_of_In in Hn, Hu. simpl in Hu.
    specialize (IH n Hn u Hu). rewrite nodes_nonterminal. simpl.
    pose proof (flat_map_length_elem (under nodes) (children_of fams) (Some n) Hn) as Hlen.
    simpl in Hlen. lia.
Qed.

Lemma not_under_itself d fams u :
  u ∈ flat_map (under nodes) (children_of fams) → u ≠ NonterminalNode d fams.
Proof.
  intros Hu ->.
  apply list_elem_of_In, in_flat_map in Hu as ([n|] & Hn & Hu); [|done].
  apply list_elem_of_In in Hn, Hu. simpl in Hu.
  apply nodes_length in Hu. rewrite nodes_nonterminal in Hu. simpl in Hu.
  pose proof (flat_map_length_elem (under nodes) (children_of fams) (Some n) Hn) as Hlen.
  simpl in Hlen. lia.
Qed.

Section best_walk.
Variable nt_scores : gmap string Z.
Variable scores : Scores.
Variable root : Node.
Hypothesis root_ids : wf_ids root.
Hypothesis root_families : families_nonempty root.
Hypothesis root_scored :
  ∀ d, TokenNode d ∈ nodes root → is_Some (score_at scores (tk_start d) (terminal d)).
Let PFR := ParseForestReducer nt_scores scores.
Let walks {A} := @walks A nt_scores scores root.
Let inv := best_inv nt_scores scores root.

Lemma walks_ret {A} (a : A) : walks (ret a) a [].
Proof.
  intros st Hinv. exists st. split; [done|]. split; [done|].
  split; [done|]. split; [by left|]. split; [|done].
  by intros c ?%elem_of_nil.
Qed.

Lemma walks_bind {A B} (m : M NavState A) (f : A → M NavState B) a b cs1 cs2 :
  walks m a cs1 → walks (f a) b cs2 → walks (let* x := m in f x) b (cs1 ++ cs2).
Proof.
  intros H1 H2 st Hinv.
  destruct (H1 st Hinv) as (st1 & Hrun1 & Hinv1 & Hgrow1 & Hnew1 & Hvis1 & Hlog1).
  destruct (H2 st1 Hinv1) as (st2 & Hrun2 & Hinv2 & Hgrow2 & Hnew2 & Hvis2 & Hlog2).
  exists st2. split; [unfold bind; by rewrite Hrun1|]. split; [done|].
  split; [by auto|]. split; [|split; [|by auto]].
  - intros k Hk. destruct (Hnew2 k Hk) as [Hk1|[->|(c & Hc & Hin)]]; [|by auto|].
    + destruct (Hnew1 k Hk1) as [Hk0|[->|(c & Hc & Hin)]]; [by left|by auto|].
      right; right. exists c. split; [|done]. apply elem_of_app. by left.
    + right; right. exists c. split; [|done]. apply elem_of_app. by right.
  - intros c [Hc|Hc]%elem_of_app; [apply Hgrow2|]; auto.
Qed.

Lemma walks_map {A B} (m : M NavState A) (g : A → B) a cs :
  walks m a cs → walks (let* x := m in ret (g x)) (g a) cs.
Proof.
  intros Hm st Hinv. destruct (Hm st Hinv) as (st' & Hrun & Hrest).
  exists st'. split; [|done]. unfold bind. by rewrite Hrun.
Qed.

Lemma walks_ext {A} (m m' : M NavState A) a cs :
  (∀ st, m st = m' st) → walks m a cs → walks m' a cs.
Proof.
  intros Heq Hm st Hinv. destruct (Hm st Hinv) as (st' & Hrun & Hrest).
  exists st'. rewrite <- Heq. by split.
Qed.

Lemma walks_visit_all visit cs :
  (∀ c, c ∈ cs → walks (visit c) (child_best nt_scores scores c) [c]) →
  walks (visit_all visit cs) (child_best nt_scores scores <$> cs) cs.
Proof.
  induction cs as [|c cs IH]; intros Hvisit; simpl.
  - apply walks_ret.
  - apply (walks_bind (visit c) _ (child_best nt_scores scores c) _ [c] cs);
      [apply Hvisit; left|].
    apply (walks_map (visit_all visit cs) (cons (child_best nt_scores scores c))).
    apply IH. intros c' Hc'. apply Hvisit. by right.
Qed.

(** The children of a family add the scores of their best trees. *)
Lemma walks_each_child visit ix cs results :
  (∀ c, c ∈ cs → walks (visit c) (child_best nt_scores scores c) [c]) →
  walks (each_child PFR visit ix cs results)
        (foldl (λ r s, add_child_score r ix s) results (child_best nt_scores scores <$> cs))
        cs.
Proof.
  intros Hvisit st Hinv.
  destruct (walks_visit_all visit cs Hvisit st Hinv) as (st' & Hrun & Hrest).
  exists st'. split; [|done].
  apply each_child_reducer. eauto.
Qed.

(** The families of a node go through the result object in their order. *)
Lemma walks_each_family visit d fams : ∀ ix results,
  (∀ c, c ∈ children_of fams → walks (visit c) (child_best nt_scores scores c) [c]) →
  walks (each_family PFR visit d ix fams results)
        (families_calls results ix (results_of nt_scores scores fams))
        (children_of fams).
Proof.
  induction fams as [|[prod children] fams IH]; intros ix results Hvisit.
  - apply walks_ret.
  - change (children_of ((prod, children) :: fams))
      with (children ++ children_of fams) in *.
    cbn [each_family results_of List.map families_calls fst snd].
    eapply walks_ext.
    2:{ apply (walks_bind
                 (each_child PFR visit ix children (add_child_production results ix prod))
                 (λ results, each_family PFR visit d (Datatypes.S ix) fams results)
                 (family_calls results ix prod (child_best nt_scores scores <$> children))
                 (families_calls
                    (family_calls results ix prod (child_best nt_scores scores <$> children))
                    (Datatypes.S ix) (results_of nt_scores scores fams))
                 children (children_of fams)).
        - apply walks_each_child. intros c Hc. apply Hvisit, elem_of_app. by left.
        - apply IH. intros c Hc. apply Hvisit, elem_of_app. by right. }
    intros [visited σ]. reflexivity.
Qed.

Lemma walks_hit {A} (m : M NavState A) a c (st : NavState) :
  m st = Ok (a, st) → inv st → is_Some (st.1 !! node_key c) →
  ∃ st', m st = Ok (a, st')
    ∧ inv st'
    ∧ (∀ k, is_Some (st.1 !! k) → is_Some (st'.1 !! k))
    ∧ (∀ k, is_Some (st'.1 !! k) →
         is_Some (st.1 !! k) ∨ k = None ∨ ∃ c', c' ∈ [c] ∧ k ∈ keys_under c')
    ∧ (∀ c', c' ∈ [c] → is_Some (st'.1 !! node_key c'))
    ∧ (∀ x, x ∈ st.2 → x ∈ st'.2).
Proof.
  intros Hrun Hinv Hvis. exists st. split; [done|]. split; [done|].
  split; [done|]. split; [by left|]. split; [|done].
  by intros c' ->%list_elem_of_singleton.
Qed.

Lemma walks_epsilon : walks (nav_epsilon PFR) 0 [None].
Proof.
  intros [visited log] Hinv. pose proof Hinv as (Hmemo & Heps & Hclosed & Hnodup & Hlog).
  unfold nav_epsilon. cbn [fst snd] in *.
  destruct (visited !! None) as [v|] eqn:Hseen.
  { apply walks_hit; [|done|simpl; by rewrite Hseen].
    rewrite (memoized_hit _ _ _ v) by done. by rewrite (Heps v). }
  rewrite memoized_miss by done. simpl.
  exists (<[None := 0]> visited, log). split; [done|]. cbn [fst snd].
  split; [|split; [|split; [|split; [|done]]]].
  - split; [|split; [|split; [|split]]]; cbn [fst snd]; [| | |done|].
    + intros u v Hu Hv. rewrite lookup_insert_ne in Hv by (by destruct u). eauto.
    + intros v. rewrite lookup_insert_eq. by intros [= <-].
    + intros u u' Hu Hvis Hu'.
      rewrite lookup_insert_ne in Hvis by (by destruct u).
      rewrite lookup_insert_ne by (by destruct u'). eauto.
    + intros id ix. rewrite Hlog. by setoid_rewrite lookup_insert_ne.
  - intros k Hk. destruct (decide (k = None)) as [->|Hne].
    + by rewrite lookup_insert_eq.
    + by rewrite lookup_insert_ne.
  - intros k Hk. destruct (decide (k = None)) as [->|Hne].
    + by auto.
    + left. by rewrite lookup_insert_ne in Hk.
  - intros c ->%list_elem_of_singleton. simpl. by rewrite lookup_insert_eq.
Qed.

Lemma walks_token d :
  TokenNode d ∈ nodes root →
  walks (nav_node PFR (TokenNode d)) (best_score nt_scores scores (TokenNode d))
        [Some (TokenNode d)].
Proof.
  intros Hw [visited log] Hinv.
  pose proof Hinv as (Hmemo & Heps & Hclosed & Hnodup & Hlog).
  rewrite nav_node_eq. cbn [fst snd] in *.
  destruct (visited !! Some (tk_id d)) as [v|] eqn:Hseen.
  { apply walks_hit; [|done|simpl; by rewrite Hseen].
    rewrite (memoized_hit _ _ _ v) by done.
    by rewrite (Hmemo (TokenNode d) v). }
  rewrite memoized_miss by done. simpl.
  destruct (root_scored d Hw) as [z Hz]. rewrite Hz. simpl.
  unfold score_at in Hz. rewrite Hz. simpl.
  exists (<[Some (tk_id d) := z]> visited, log). split; [done|]. cbn [fst snd].
  assert (Hsame : ∀ u, u ∈ nodes root → node_key (Some u) = Some (tk_id d) →
            u = TokenNode d) by (intros u Hu Hk; by apply root_ids).
  split; [|split; [|split; [|split; [|done]]]].
  - split; [|split; [|split; [|split]]]; cbn [fst snd]; [| | |done|].
    + intros u v Hu Hv.
      destruct (decide (node_key (Some u) = Some (tk_id d))) as [Heq|Hne].
      * rewrite (Hsame u Hu Heq) in Hv |- *. simpl in *.
        rewrite lookup_insert_eq in Hv. unfold score_at. rewrite Hz. simpl. congruence.
      * rewrite lookup_insert_ne in Hv by done. eauto.
    + intros v. rewrite lookup_insert_ne by done. apply Heps.
    + intros u u' Hu Hvis Hu'.
      destruct (decide (node_key (Some u) = Some (tk_id d))) as [Heq|Hne].
      * rewrite (Hsame u Hu Heq) in Hu'. apply list_elem_of_singleton in Hu' as ->.
        simpl. by rewrite lookup_insert_eq.
      * rewrite lookup_insert_ne in Hvis by done.
        specialize (Hclosed u u' Hu Hvis Hu').
        destruct (decide (node_key (Some u') = Some (tk_id d))) as [->|Hne'];
          [by rewrite lookup_insert_eq|by rewrite lookup_insert_ne].
    + intros id ix. rewrite Hlog. split.
      * intros (d' & fams & Hn & Hid & Hvis & Hrest). exists d', fams.
        repeat split; try done; try apply Hrest.
        destruct (decide (Some id = Some (tk_id d))) as [->|Hne];
          [by rewrite lookup_insert_eq|by rewrite lookup_insert_ne].
      * intros (d' & fams & Hn & Hid & Hvis & Hrest). exists d', fams.
        repeat split; try done; try apply Hrest.
        destruct (decide (Some id = Some (tk_id d))) as [Heq|Hne].
        -- subst id. by specialize (Hsame _ Hn Heq).
        -- by rewrite lookup_insert_ne in Hvis.
  - intros k Hk. destruct (decide (k = Some (tk_id d))) as [->|Hne].
    + by rewrite lookup_insert_eq.
    + by rewrite lookup_insert_ne.
  - intros k Hk. destruct (decide (k = Some (tk_id d))) as [->|Hne].
    + right; right. exists (Some (TokenNode d)). split; left.
    + left. by rewrite lookup_insert_ne in Hk.
  - intros c ->%list_elem_of_singleton. simpl. by rewrite lookup_insert_eq.
Qed.

Lemma results_of_nonempty fams :
  fams ≠ [] → Forall (λ fam, fam.2 ≠ []) fams →
  results_of nt_scores scores fams ≠ []
  ∧ Forall (λ fam, fam.2 ≠ []) (results_of nt_scores scores fams).
Proof.
  intros Hfams Hne. split; [by destruct fams|].
  unfold results_of. apply Forall_forall. intros fr Hfr%list_elem_of_In%in_map_iff.
  destruct Hfr as ([prod children] & <- & Hin%list_elem_of_In). simpl.
  rewrite Forall_forall in Hne. specialize (Hne _ Hin). simpl in Hne. by destruct children.
Qed.

(** The walk at a nonterminal node whose children walk as told. *)
Lemma walks_nonterminal d fams :
  NonterminalNode d fams ∈ nodes root →
  (∀ c, c ∈ children_of fams →
     walks (_nav_helper PFR c) (child_best nt_scores scores c) [c]) →
  walks (nav_node PFR (NonterminalNode d fams))
        (best_score nt_scores scores (NonterminalNode d fams))
        [Some (NonterminalNode d fams)].
Proof.
  intros Hw Hchildren [visited log] Hinv.
  pose proof Hinv as (Hmemo & Heps & Hclosed & Hnodup & Hlog).
  set (w := NonterminalNode d fams) in *.
  rewrite nav_node_eq. cbn [fst snd] in *.
  assert (Hkey : node_key (Some w) = Some (nt_id d)) by done. rewrite Hkey.
  destruct (visited !! Some (nt_id d)) as [v|] eqn:Hseen.
  { apply (walks_hit _ _ (Some w)); [|done|cbn [fst]; by rewrite Hkey, Hseen].
    rewrite (memoized_hit _ _ _ v) by done.
    by rewrite (Hmemo w v). }
  rewrite memoized_miss by done.
  destruct (walks_each_family (_nav_helper PFR) d fams 0 (new_ReductionInfo d)
              Hchildren _ Hinv)
    as ([visited1 log1] & Hloop & Hinv1 & Hgrow & Hnew & Hvis & Hlogs).
  pose proof Hinv1 as (Hmemo1 & Heps1 & Hclosed1 & Hnodup1 & Hlog1).
  cbn [fst snd] in *.
  destruct (root_families d fams Hw) as [Hfams Hne].
  set (frs := results_of nt_scores scores fams) in *.
  destruct (results_of_nonempty fams Hfams Hne) as [Hfrs Hfrs_ne]. fold frs in Hfrs, Hfrs_ne.
  destruct (best_considered_family nt_scores d frs log1 Hfrs Hfrs_ne)
    as (ix & prod & rs & Hfam & Hc & Hbest & Hproc).
  assert (Hkept : kept d frs ix) by (exists prod, rs; done).
  assert (Hlen : length frs = length fams) by apply length_map.
  rewrite Hlen in Hproc.
  set (score := Zsum rs + node_adjustment nt_scores d) in *.
  set (extra := if (2 <=? length fams)%nat then [(nt_id d, ix)] else []) in *.
  assert (Hscore : best_score nt_scores scores w = score).
  { unfold w. rewrite best_score_nonterminal. fold frs. unfold score.
    by rewrite (best_total_kept d frs ix prod rs). }
  assert (Hbody : node_body PFR w (visited, log) = Ok (score, (visited1, log1 ++ extra))).
  { unfold node_body, w. unfold bind at 1. cbn [lift_hook _visit_nonterminal PFR
      ParseForestReducer ret]. unfold bind at 1. fold PFR. rewrite Hloop.
    cbn [lift_hook _process_results PFR ParseForestReducer]. by rewrite Hproc. }
  rewrite Hbody, Hscore. cbn [fst snd].
  exists (<[Some (nt_id d) := score]> visited1, log1 ++ extra). split; [done|].
  cbn [fst snd].
  assert (Hsame : ∀ u, u ∈ nodes root → node_key (Some u) = Some (nt_id d) → u = w)
    by (intros u Hu Hk; by apply root_ids).
  assert (Hunder : ∀ n u, Some n ∈ children_of fams → u ∈ nodes n →
            u ∈ nodes root ∧ u ≠ w).
  { intros n u Hn Hu. split.
    - eapply nodes_trans; [exact Hw|]. by eapply nodes_child.
    - apply (not_under_itself d fams).
      apply list_elem_of_In, in_flat_map. exists (Some n).
      split; by apply list_elem_of_In. }
  assert (Hfresh : visited1 !! Some (nt_id d) = None).
  { destruct (visited1 !! Some (nt_id d)) as [v|] eqn:Hv; [|done]. exfalso.
    destruct (Hnew (Some (nt_id d))) as [Hold|[?|(c & Hchild & Hk)]];
      [by rewrite Hv|by rewrite Hseen in Hold; destruct Hold|done|].
    destruct c as [n|]; cycle 1.
    { apply list_elem_of_singleton in Hk. done. }
    assert (∃ u, u ∈ nodes n ∧ node_key (Some u) = Some (nt_id d)) as (u & Hu & Hku).
    { unfold keys_under in Hk. apply elem_of_cons in Hk as [Hk|Hk].
      - exists n. split; [apply nodes_self|done].
      - apply list_elem_of_fmap in Hk as (u & Hku & Hu). by exists u. }
    destruct (Hunder n u Hchild Hu) as [Hroot Hneq]. by apply Hneq, Hsame. }
  assert (Hstore : ∀ k, is_Some (visited1 !! k) →
            is_Some (<[Some (nt_id d) := score]> visited1 !! k)).
  { intros k Hk. destruct (decide (k = Some (nt_id d))) as [->|Hne'];
      [by rewrite lookup_insert_eq|by rewrite lookup_insert_ne]. }
  split; [|split; [|split; [|split]]].
  - split; [|split; [|split; [|split]]]; cbn [fst snd].
    + intros u v Hu Hv.
      destruct (decide (node_key (Some u) = Some (nt_id d))) as [Heq|Hneq].
      * rewrite (Hsame u Hu Heq). rewrite Heq, lookup_insert_eq in Hv. congruence.
      * rewrite lookup_insert_ne in Hv by done. eauto.
    + intros v. rewrite lookup_insert_ne by done. apply Heps1.
    + intros u u' Hu Hvisited Hu'.
      destruct (decide (node_key (Some u) = Some (nt_id d))) as [Heq|Hneq].
      * rewrite (Hsame u Hu Heq) in Hu'. unfold w in Hu'.
        rewrite nodes_nonterminal in Hu'. apply elem_of_cons in Hu' as [->|Hu'].
        { fold w. rewrite Hkey. by rewrite lookup_insert_eq. }
        apply list_elem_of_In, in_flat_map in Hu' as ([n|] & Hn & Hu'); [|done].
        apply list_elem_of_In in Hn, Hu'. cbn [under] in Hu'.
        apply Hstore. apply (Hclosed1 n u'); [|by apply (Hvis (Some n))|done].
        apply (Hunder n n Hn (nodes_self n)).
      * rewrite lookup_insert_ne in Hvisited by done. apply Hstore. eauto.
    + rewrite fmap_app. apply NoDup_app. split; [done|]. split.
      * intros id Hid Hex. unfold extra in Hex.
        destruct (2 <=? length fams)%nat; [|by apply elem_of_nil in Hex].
        apply list_elem_of_singleton in Hex. cbn [fst] in Hex. subst id.
        apply list_elem_of_fmap in Hid as ([id ix0] & Hid & Hin). cbn [fst] in Hid. subst id.
        apply Hlog1 in Hin as (d' & fams' & _ & _ & Hvisited & _).
        rewrite Hfresh in Hvisited. by destruct Hvisited.
      * unfold extra. destruct (2 <=? length fams)%nat; [|apply NoDup_nil_2].
        apply NoDup_singleton.
    + intros id ix'. rewrite elem_of_app. split.
      * intros [Hin|Hin].
        -- apply Hlog1 in Hin as (d' & fams' & Hn & Hid & Hvisited & Hrest).
           exists d', fams'. repeat split; try done; try apply Hrest. by apply Hstore.
        -- unfold extra in Hin.
           destruct (2 <=? length fams)%nat eqn:Htwo; [|by apply elem_of_nil in Hin].
           apply list_elem_of_singleton in Hin. injection Hin as -> ->.
           exists d, fams. repeat split; try done.
           ++ by rewrite lookup_insert_eq.
           ++ by apply Nat.leb_le.
      * intros (d' & fams' & Hn & Hid & Hvisited & Htwo & Hkept').
        destruct (decide (id = nt_id d)) as [->|Hneq].
        -- right. assert (NonterminalNode d' fams' = w) as Heq.
           { apply Hsame; [done|]. cbn [node_key]. by rewrite Hid. }
           injection Heq as -> ->. fold frs in Hkept'.
           rewrite (kept_unique d frs ix' ix Hkept' Hkept).
           unfold extra. apply Nat.leb_le in Htwo. rewrite Htwo. left.
        -- left. apply Hlog1. exists d', fams'. repeat split; try done.
           rewrite lookup_insert_ne in Hvisited by congruence. done.
  - intros k Hk. by apply Hstore, Hgrow.
  - intros k Hk. destruct (decide (k = Some (nt_id d))) as [->|Hneq].
    { right; right. exists (Some w). split; [left|]. left. }
    rewrite lookup_insert_ne in Hk by done.
    destruct (Hnew k Hk) as [Hold|[->|(c & Hchild & Hin)]]; [by left|by auto|].
    destruct c as [n|]; cycle 1.
    { apply list_elem_of_singleton in Hin. by auto. }
    right; right. exists (Some w). split; [left|]. right.
    assert (∃ u, u ∈ nodes n ∧ node_key (Some u) = k) as (u & Hu & Hku).
    { unfold keys_under in Hin. apply elem_of_cons in Hin as [Hin|Hin].
      - exists n. split; [apply nodes_self|done].
      - apply list_elem_of_fmap in Hin as (u & Hku & Hu). by exists u. }
    apply list_elem_of_fmap. exists u. split; [done|]. cbn [under].
    unfold w. by eapply nodes_child.
  - intros c ->%list_elem_of_singleton. rewrite Hkey. by rewrite lookup_insert_eq.
  - intros x Hx. apply elem_of_app. left. by apply Hlogs.
Qed.

(** The reducing walk from any node of the forest. *)
Lemma walks_nav_node w :
  w ∈ nodes root →
  walks (nav_node PFR w) (best_score nt_scores scores w) [Some w].
Proof.
  induction w as [d|d fams IH] using Node_induction; intros Hw.
  - by apply walks_token.
  - apply walks_nonterminal; [done|]. intros [n|] Hc.
    + apply IH; [done|]. eapply nodes_trans; [exact Hw|].
      eapply nodes_child; [done|apply nodes_self].
    + apply walks_epsilon.
Qed.
End best_walk.

Lemma best_inv_initial nt_scores scores root : best_inv nt_scores scores root (∅, []).
Proof.
  split; [|split; [|split; [|split]]]; cbn [fst snd].
  - intros u v _. by rewrite lookup_empty.
  - intros v. by rewrite lookup_empty.
  - intros u u' _ [v Hv]. by rewrite lookup_empty in Hv.
  - apply NoDup_nil_2.
  - intros id ix. split; [by intros ?%elem_of_nil|].
    intros (d & fams & _ & _ & [v Hv] & _). by rewrite lookup_empty in Hv.
Qed.

(** The reducing walk from the root. *)
Lemma reduce_best_tree nt_scores (scores : Scores) w :
  wf_ids w → families_nonempty w →
  (∀ d, TokenNode d ∈ nodes w → is_Some (score_at scores (tk_start d) (terminal d))) →
  ∃ log,
    _reduce nt_scores scores w = Ok (best_score nt_scores scores w, log)
    ∧ NoDup log.*1
    ∧ ∀ id ix, (id, ix) ∈ log ↔
        ∃ d fams, NonterminalNode d fams ∈ nodes w ∧ nt_id d = id
          ∧ (2 ≤ length fams)%nat
          ∧ kept d (results_of nt_scores scores fams) ix.
Proof.
  intros Hids Hfams Hscored.
  destruct (walks_nav_node nt_scores scores w Hids Hfams Hscored w (nodes_self w)
              _ (best_inv_initial nt_scores scores w))
    as ([visited log] & Hrun & Hinv & _ & _ & Hvis & _).
  destruct Hinv as (_ & _ & Hclosed & Hnodup & Hlog). cbn [fst snd] in *.
  exists log. split; [|split; [done|]].
  - unfold _reduce, navigate, _nav_helper. by rewrite Hrun.
  - intros id ix. rewrite Hlog. split.
    + intros (d & fams & Hn & Hid & _ & Hrest). by exists d, fams.
    + intros (d & fams & Hn & Hid & Hrest). exists d, fams.
      split; [done|]. split; [done|]. split; [|done].
      rewrite <- Hid. apply (Hclosed w (NonterminalNode d fams)); [apply nodes_self| |done].
      apply Hvis. left.
Qed.

(** X9: on a forest whose nodes have consistent identities, where every
    nonterminal node has a family and every family a child, and every
    token node has a score, the reducing walk returns the score of the
    best tree: for a token its score, for a nonterminal node the greatest
    total, over the considered families, of the scores of the best trees
    under the children, with the adjustment of the node.  The walk calls
    [reduce_to] once for each node of two families or more, shared or
    not, with the first considered family of the greatest total, and for
    no other node. *)
Theorem X9_best_tree nt_scores (scores : Scores) w :
  wf_ids w → families_nonempty w →
  (∀ d, TokenNode d ∈ nodes w → is_Some (score_at scores (tk_start d) (terminal d))) →
  ∃ log,
    _reduce nt_scores scores w = Ok (best_score nt_scores scores w, log)
    ∧ NoDup log.*1
    ∧ ∀ id ix, (id, ix) ∈ log ↔
        ∃ d fams, NonterminalNode d fams ∈ nodes w ∧ nt_id d = id
          ∧ (2 ≤ length fams)%nat
          ∧ kept d (results_of nt_scores scores fams) ix.
Proof. apply reduce_best_tree. Qed.

Lemma shared_forest_families : families_nonempty Sample.shared_forest.
Proof.
  intros d fams Hin. apply list_elem_of_In in Hin. simpl in Hin.
  destruct Hin as [Hin|[Hin|[Hin|[Hin|[]]]]]; try discriminate Hin.
  injection Hin as <- <-. split; [discriminate|].
  repeat constructor; discriminate.
Qed.

Lemma shared_forest_scored d :
  TokenNode d ∈ nodes Sample.shared_forest →
  is_Some (score_at {[ 0%nat := [(Sample.ao, 3); (Sample.no_hk, -2)] ]}
             (tk_start d) (terminal d)).
Proof.
  intros Hin. apply list_elem_of_In in Hin. simpl in Hin.
  destruct Hin as [Hin|[Hin|[Hin|[Hin|[]]]]]; try discriminate Hin;
    injection Hin as <-; vm_compute; eexists; reflexivity.
Qed.

Lemma X9_best_tree_witness :
  let scores : Scores := {[ 0%nat := [(Sample.ao, 3); (Sample.no_hk, -2)] ]} in
  ∃ log,
    _reduce ∅ scores Sample.shared_forest = Ok (best_score ∅ scores Sample.shared_forest, log)
    ∧ NoDup log.*1
    ∧ ∀ id ix, (id, ix) ∈ log ↔
        ∃ d fams, NonterminalNode d fams ∈ nodes Sample.shared_forest ∧ nt_id d = id
          ∧ (2 ≤ length fams)%nat
          ∧ kept d (results_of ∅ scores fams) ix.
Proof.
  exact (X9_best_tree ∅ {[ 0%nat := [(Sample.ao, 3); (Sample.no_hk, -2)] ]}
           Sample.shared_forest shared_forest_ids shared_forest_families
           shared_forest_scored).
Defined.

(** On the sample the families 0 and 2 have the total 3 and the family 1
    has -2: the root is reduced to the family 0, once, though the token
    node of the adverb is under two families. *)
Example shared_forest_reduced :
  _reduce ∅ {[ 0%nat := [(Sample.ao, 3); (Sample.no_hk, -2)] ]} Sample.shared_forest
  = Ok (3, [(300%nat, 0%nat)]).
Proof. vm_compute. reflexivity. Qed.

(** ** The three passes together *)

(** The scores of the scoring pass cover the token nodes of the forest. *)
Lemma token_scores_present Preferences VERBS_0 SCORES w (scores : Scores) :
  wf_ids w → spans_nested w →
  _calc_terminal_scores Preferences VERBS_0 SCORES w = Ok scores →
  ∀ d, TokenNode d ∈ nodes w → is_Some (score_at scores (tk_start d) (terminal d)).
Proof.
  intros Hids Hspans Hcalc d Hd.
  destruct (find_options_keys w Hids) as (finals & tokens & Hrun & Hsets & Hmem & Hkeys).
  destruct (spans_nested_nodes w Hspans _ Hd) as (Hs & He & Hd').
  inversion Hd' as [d' Hlt|]; subst. simpl in *.
  assert (Hin : (start w ≤ tk_start d < end_ w)%nat) by lia.
  destruct (Hkeys _ _ _ _ Hcalc _ Hin) as (sc0 & Hsc & Hk).
  unfold score_at. rewrite Hsc. simpl. apply dict_get_is_Some.
  rewrite Hk. apply Hmem. by exists d.
Qed.

(** X10: on a forest whose nodes have consistent identities and nested
    spans, where every nonterminal node has a family and every family a
    child, and whose token nodes have readable terminals, [go_with_score]
    raises nothing: it hands back the forest with the reductions made on
    it, one for each node of two families or more, and the score of the
    best tree under the scores of the scoring pass; [go] hands back the
    same forest. *)
Theorem X10_reducer_returns Preferences VERBS_0 SCORES nt_scores w :
  wf_ids w → spans_nested w → families_nonempty w →
  (∀ d, TokenNode d ∈ nodes w → readable (terminal d)) →
  ∃ scores log,
    _calc_terminal_scores Preferences VERBS_0 SCORES w = Ok scores
    ∧ go_with_score Preferences VERBS_0 SCORES nt_scores (Some w) =
        Ok (Some (w, log), best_score nt_scores scores w)
    ∧ go Preferences VERBS_0 SCORES nt_scores (Some w) = Ok (Some (w, log))
    ∧ NoDup log.*1
    ∧ ∀ id ix, (id, ix) ∈ log ↔
        ∃ d fams, NonterminalNode d fams ∈ nodes w ∧ nt_id d = id
          ∧ (2 ≤ length fams)%nat
          ∧ kept d (results_of nt_scores scores fams) ix.
Proof.
  intros Hids Hspans Hfams Hread.
  destruct (calc_terminal_scores_returns Preferences VERBS_0 SCORES w Hids Hspans Hread)
    as [scores Hcalc].
  pose proof (token_scores_present _ _ _ _ _ Hids Hspans Hcalc) as Hscored.
  destruct (reduce_best_tree nt_scores scores w Hids Hfams Hscored)
    as (log & Hreduce & Hnodup & Hlog).
  exists scores, log. split; [done|].
  unfold go, go_of, go_with_score, go_with_score_of. rewrite Hcalc, Hreduce. done.
Qed.

Lemma X10_reducer_returns_witness :
  ∃ scores log,
    _calc_terminal_scores Sample.ekki_prefs ∅ ∅ Sample.shared_forest = Ok scores
    ∧ go_with_score Sample.ekki_prefs ∅ ∅ ∅ (Some Sample.shared_forest) =
        Ok (Some (Sample.shared_forest, log), best_score ∅ scores Sample.shared_forest)
    ∧ go Sample.ekki_prefs ∅ ∅ ∅ (Some Sample.shared_forest) =
        Ok (Some (Sample.shared_forest, log))
    ∧ NoDup log.*1
    ∧ ∀ id ix, (id, ix) ∈ log ↔
        ∃ d fams, NonterminalNode d fams ∈ nodes Sample.shared_forest ∧ nt_id d = id
          ∧ (2 ≤ length fams)%nat
          ∧ kept d (results_of ∅ scores fams) ix.
Proof.
  apply (X10_reducer_returns Sample.ekki_prefs ∅ ∅ ∅ Sample.shared_forest).
  - exact shared_forest_ids.
  - exact shared_forest_spans.
  - exact shared_forest_families.
  - intros d Hd. apply list_elem_of_In in Hd. simpl in Hd.
    destruct Hd as [Hd|[Hd|[Hd|[Hd|[]]]]]; try discriminate Hd;
      injection Hd as <-; (split; [done|]); intros Hso; discriminate Hso.
Defined.

(** * The BÍN database *)

Import BinDb.
Local Open Scope db_scope.

Lemma db_bind_Done {A B} (m : DB A) (f : A → DB B) σ b σ' :
  db_bind m f σ = Done (b, σ') ↔ ∃ a σ1, m σ = Done (a, σ1) ∧ f a σ1 = Done (b, σ').
Proof.
  unfold db_bind. destruct (m σ) as [[a σ1]|e]; split.
  - intros Hrun. by exists a, σ1.
  - by intros (a' & σ1' & [= -> ->] & Hrun).
  - done.
  - by intros (? & ? & ? & _).
Qed.

(** ** The cache of [meanings] *)

Section meanings_cache.
Variable db : string → db_answer.
Variable Meanings_DICT : string → option (list BIN_Meaning).
Let meanings := meanings db Meanings_DICT.

(** After a call the word is the entry of the cache used last. *)
Lemma meanings_stores w (σ σ1 : DbState) (m : value) :
  meanings w σ = Done (m, σ1) → ∃ rest, cache σ1 = (w, m) :: rest.
Proof.
  unfold meanings, BinDb.meanings. intros Hrun.
  destruct (dict_get (cache σ) w) as [m0|].
  - injection Hrun as <- <-. by eexists.
  - destruct (meanings_body db Meanings_DICT w σ) as [[m0 σ0]|e]; [|done].
    injection Hrun as <- <-. by eexists.
Qed.

(** A word in the cache is not looked up in the database. *)
Lemma meanings_hit w (σ : DbState) (m : value) :
  dict_get (cache σ) w = Some m →
  ∃ σ', meanings w σ = Done (m, σ')
    ∧ connected σ' = connected σ ∧ heap σ' = heap σ ∧ next σ' = next σ
    ∧ queries σ' = queries σ
    ∧ cache σ' = (w, m) :: List.filter (λ e, negb (String.eqb e.1 w)) (cache σ).
Proof.
  intros Hhit. unfold meanings, BinDb.meanings. rewrite Hhit. by eexists.
Qed.
End meanings_cache.

(** The call after a call for the same word. *)
Lemma meanings_again db Meanings_DICT w (σ σ1 : DbState) (m : value) :
  meanings db Meanings_DICT w σ = Done (m, σ1) →
  ∃ σ2, meanings db Meanings_DICT w σ1 = Done (m, σ2)
    ∧ queries σ2 = queries σ1 ∧ heap σ2 = heap σ1 ∧ next σ2 = next σ1.
Proof.
  intros Hrun. destruct (meanings_stores db Meanings_DICT w σ σ1 m Hrun) as [rest Hcache].
  destruct (meanings_hit db Meanings_DICT w σ1 m) as (σ2 & Hrun2 & _ & Hheap & Hnext & Hq & _).
  { rewrite Hcache. simpl. by rewrite decide_True. }
  by exists σ2.
Qed.

(** X11: a call of [meanings] for a word right after a call for the same
    word yields the same value, the same list object or [None], and reads
    nothing from the database: no query is made and no object is
    created. *)
Theorem X11_meanings_cached db Meanings_DICT w (σ σ1 : DbState) (m : value) :
  meanings db Meanings_DICT w σ = Done (m, σ1) →
  ∃ σ2, meanings db Meanings_DICT w σ1 = Done (m, σ2)
    ∧ queries σ2 = queries σ1 ∧ heap σ2 = heap σ1 ∧ next σ2 = next σ1.
Proof. apply meanings_again. Qed.

Lemma X11_meanings_cached_witness :
  let σ1 := mkDbState true {[ 0%nat := [DbSample.hann_pfn; DbSample.hann_thf] ]} 1
              [("hann", Some 0%nat)] ["hann"] in
  ∃ σ2, meanings DbSample.db DbSample.no_meanings "hann" σ1 = Done (Some 0%nat, σ2)
    ∧ queries σ2 = queries σ1 ∧ heap σ2 = heap σ1 ∧ next σ2 = next σ1.
Proof.
  apply (X11_meanings_cached DbSample.db DbSample.no_meanings "hann" DbSample.fresh).
  vm_compute. reflexivity.
Defined.

(** X12: a query that the database refuses with a [DataError] or a
    [ProgrammingError] is remembered as a word without meanings: the call
    yields [None] after one query, and the next call for the word yields
    [None] with no query at all. *)
Theorem X12_failed_query_cached db Meanings_DICT w (σ : DbState) :
  connected σ = true → dict_get (cache σ) w = None → db w = BadQuery →
  ∃ σ1 σ2,
    meanings db Meanings_DICT w σ = Done (None, σ1)
    ∧ queries σ1 = queries σ ++ [w]
    ∧ meanings db Meanings_DICT w σ1 = Done (None, σ2)
    ∧ queries σ2 = queries σ1.
Proof.
  intros Hconn Hmiss Hbad.
  assert (∃ σ1, meanings db Meanings_DICT w σ = Done (None, σ1)
                ∧ queries σ1 = queries σ ++ [w]) as (σ1 & Hrun & Hq).
  { unfold meanings, meanings_body. rewrite Hmiss, Hconn, Hbad. simpl. by eexists. }
  destruct (meanings_again db Meanings_DICT w σ σ1 None Hrun) as (σ2 & Hrun2 & Hq2 & _).
  by exists σ1, σ2.
Qed.

Lemma X12_failed_query_cached_witness :
  ∃ σ1 σ2,
    meanings DbSample.db DbSample.no_meanings "%" DbSample.fresh = Done (None, σ1)
    ∧ queries σ1 = queries DbSample.fresh ++ ["%"]
    ∧ meanings DbSample.db DbSample.no_meanings "%" σ1 = Done (None, σ2)
    ∧ queries σ2 = queries σ1.
Proof.
  apply (X12_failed_query_cached DbSample.db DbSample.no_meanings "%" DbSample.fresh);
    reflexivity.
Defined.

(** ** What the steps keep *)

(** A step that keeps a property of the store. *)
Definition keeps {A} (P : DbState → Prop) (m : DB A) : Prop :=
  ∀ σ a σ', P σ → m σ = Done (a, σ') → P σ'.

Lemma keeps_ret {A} P (a : A) : keeps P (db_ret a).
Proof. by intros σ a' σ' HP [= _ <-]. Qed.

Lemma keeps_fail {A} P e : keeps P (db_fail (A:=A) e).
Proof. by intros σ a σ' HP. Qed.

Lemma keeps_bind {A B} P (m : DB A) (f : A → DB B) :
  keeps P m → (∀ a, keeps P (f a)) → keeps P (db_bind m f).
Proof.
  intros Hm Hf σ b σ' HP (a & σ1 & Hrun1 & Hrun2)%db_bind_Done.
  eapply Hf; [|done]. by eapply Hm.
Qed.

Section cache_kept.
Variable str_lower : string → string.
Variable db : string → db_answer.
Variable Meanings_DICT : string → option (list BIN_Meaning).
Variable Abbreviations_DICT : string → option BIN_Meaning.
Variable ENDINGS : list (string * string).
Variable slice_compound_word : string → list string.

(** A step that leaves the cache alone. *)
Lemma keeps_cache_ok {A} (m : DB A) :
  (∀ σ a σ', m σ = Done (a, σ') → cache σ' = cache σ) → keeps cache_ok m.
Proof. intros Hm σ a σ' HP Hrun. unfold cache_ok. by rewrite (Hm _ _ _ Hrun). Qed.

Lemma keeps_alloc l : keeps cache_ok (alloc l).
Proof. apply keeps_cache_ok. by intros σ a σ' [= _ <-]. Qed.

Lemma keeps_extend r l : keeps cache_ok (extend r l).
Proof. apply keeps_cache_ok. by intros σ a σ' [= _ <-]. Qed.

Lemma keeps_read r : keeps cache_ok (read r).
Proof. apply keeps_cache_ok. by intros σ a σ' [= _ <-]. Qed.

Lemma keeps_is_truthy m : keeps cache_ok (is_truthy m).
Proof. apply keeps_cache_ok. by intros σ a σ' [= _ <-]. Qed.

Lemma keeps_first_char w : keeps cache_ok (first_char w).
Proof. destruct w; [apply keeps_fail|apply keeps_ret]. Qed.

Lemma keeps_starts_with_bracket w : keeps cache_ok (starts_with_bracket w).
Proof. apply keeps_bind; [apply keeps_first_char|intros c; apply keeps_ret]. Qed.

Lemma meanings_body_cache w σ m σ' :
  meanings_body db Meanings_DICT w σ = Done (m, σ') → cache σ' = cache σ.
Proof.
  unfold meanings_body. destruct (connected σ); [|done]. simpl.
  destruct (db w) as [g| | |]; try (by intros [= _ <-]); try done.
  unfold db_bind, alloc. simpl. destruct (Meanings_DICT w); by intros [= _ <-].
Qed.

Lemma dict_keys_filter_ne (c : list (string * value)) w :
  NoDup (dict_keys c) →
  NoDup (dict_keys (List.filter (λ e, negb (String.eqb e.1 w)) c))
  ∧ w ∉ dict_keys (List.filter (λ e, negb (String.eqb e.1 w)) c)
  ∧ (w ∈ dict_keys c →
     (length (List.filter (λ e, negb (String.eqb e.1 w)) c) < length c)%nat).
Proof.
  induction c as [|[k v] c IH]; simpl.
  - intros _. split; [apply NoDup_nil_2|]. split; [by intros ?%elem_of_nil|].
    by intros ?%elem_of_nil.
  - intros [Hk Hc]%NoDup_cons.
    destruct (IH Hc) as (Hnd & Hnot & Hlen).
    pose proof (filter_length_le (λ e : string * value, negb (String.eqb e.1 w)) c)
      as Hle.
    destruct (String.eqb k w) eqn:Heq; simpl.
    + split; [done|]. split; [done|]. intros _. lia.
    + apply String.eqb_neq in Heq. split; [|split].
      * apply NoDup_cons. split; [|done].
        intros (e & -> & He%list_elem_of_In%filter_In)%list_elem_of_fmap.
        apply Hk, list_elem_of_fmap. exists e. split; [done|].
        apply list_elem_of_In, He.
      * intros [?|?]%elem_of_cons; [congruence|done].
      * intros [?|Hin]%elem_of_cons; [congruence|]. specialize (Hlen Hin). lia.
Qed.

Lemma keeps_meanings w : keeps cache_ok (meanings db Meanings_DICT w).
Proof.
  intros σ m σ' [Hnd Hlen] Hrun. unfold meanings in Hrun.
  destruct (dict_get (cache σ) w) as [m0|] eqn:Hget.
  - injection Hrun as <- <-. unfold cache_ok. simpl.
    destruct (dict_keys_filter_ne (cache σ) w Hnd) as (Hnd' & Hnot & Hless).
    split.
    + by apply NoDup_cons.
    + assert (w ∈ dict_keys (cache σ)) as Hin by (apply dict_get_is_Some; eauto).
      specialize (Hless Hin). lia.
  - destruct (meanings_body db Meanings_DICT w σ) as [[m0 σ0]|e] eqn:Hbody; [|done].
    injection Hrun as <- <-. apply meanings_body_cache in Hbody.
    unfold cache_ok. cbn [cache]. rewrite Hbody.
    change ((w, m0) :: take 511 (cache σ)) with (take CACHE_SIZE ((w, m0) :: cache σ)).
    split.
    + apply dict_get_None in Hget.
      assert (NoDup (dict_keys ((w, m0) :: cache σ))) as Hall.
      { by apply NoDup_cons. }
      unfold dict_keys in *. rewrite fmap_take.
      eapply sublist_NoDup; [exact Hall|apply sublist_take].
    + rewrite length_take. lia.
Qed.

Lemma keeps_lookup_abbreviation w :
  keeps cache_ok (lookup_abbreviation Abbreviations_DICT w).
Proof.
  unfold lookup_abbreviation. apply keeps_bind; [apply keeps_starts_with_bracket|].
  intros bracket. destruct (Abbreviations_DICT _); [|apply keeps_ret].
  apply keeps_bind; [apply keeps_alloc|intros r; apply keeps_ret].
Qed.

Lemma keeps_try_endings lower_w es : ∀ m,
  keeps cache_ok (try_endings lower_w m es).
Proof.
  induction es as [|[aend beyging] es IH]; intros m; simpl; [apply keeps_ret|].
  apply keeps_bind; [|intros m'; apply IH].
  destruct (_ && _); [|apply keeps_ret].
  apply keeps_bind.
  - destruct m; [apply keeps_ret|apply keeps_alloc].
  - intros r. apply keeps_bind; [apply keeps_extend|intros ?; apply keeps_ret].
Qed.

Lemma keeps_lookup_word w at_sentence_start :
  keeps cache_ok
    (lookup_word str_lower db Meanings_DICT Abbreviations_DICT ENDINGS
       slice_compound_word w at_sentence_start).
Proof.
  unfold lookup_word.
  apply keeps_bind; [apply keeps_meanings|intros m].
  apply keeps_bind; [apply keeps_is_truthy|intros t].
  destruct (_ || _); [|apply keeps_ret].
  apply keeps_bind; [|intros m1].
  { unfold try_lowercase. destruct (negb _); [|apply keeps_ret].
    apply keeps_bind; [apply keeps_is_truthy|intros t1].
    destruct (negb t1); [apply keeps_meanings|].
    apply keeps_bind; [apply keeps_meanings|intros more].
    destruct m as [r|], more as [r'|]; try apply keeps_fail.
    apply keeps_bind; [apply keeps_read|intros ms].
    apply keeps_bind; [apply keeps_extend|intros ?; apply keeps_ret]. }
  apply keeps_bind; [|intros wm].
  { unfold try_abbreviation.
    apply keeps_bind; [apply keeps_is_truthy|intros t1].
    apply keeps_bind; [|intros go].
    { destruct (negb t1); [|apply keeps_ret].
      destruct (negb _); [apply keeps_ret|apply keeps_starts_with_bracket]. }
    destruct go; [|apply keeps_ret].
    apply keeps_bind; [apply keeps_lookup_abbreviation|intros m2].
    apply keeps_bind; [apply keeps_is_truthy|intros t2].
    apply keeps_bind; [|intros m3].
    { destruct (negb t2); [|apply keeps_ret].
      apply keeps_bind; [apply keeps_starts_with_bracket|intros bracket].
      destruct bracket; [apply keeps_lookup_abbreviation|apply keeps_ret]. }
    apply keeps_bind; [apply keeps_is_truthy|intros t3].
    apply keeps_bind; [|intros w'; apply keeps_ret].
    destruct t3; [|apply keeps_ret].
    apply keeps_bind; [apply keeps_starts_with_bracket|intros ?; apply keeps_ret]. }
  apply keeps_bind; [|intros m2].
  { unfold try_adjective. apply keeps_bind; [apply keeps_is_truthy|intros t1].
    destruct (_ && _); [apply keeps_try_endings|apply keeps_ret]. }
  apply keeps_bind; [|intros m3].
  { unfold try_compound. apply keeps_bind; [apply keeps_is_truthy|intros t1].
    destruct (negb t1); [|apply keeps_ret].
    destruct (slice_compound_word _) as [|part parts]; [apply keeps_ret|].
    apply keeps_bind; [apply keeps_meanings|intros m3].
    destruct m3; [|apply keeps_fail].
    apply keeps_bind; [apply keeps_read|intros ms].
    apply keeps_bind; [apply keeps_alloc|intros ?; apply keeps_ret]. }
  apply keeps_bind; [|intros m4; apply keeps_ret].
  unfold try_negation. apply keeps_bind; [apply keeps_is_truthy|intros t1].
  destruct (_ && _); [|apply keeps_ret].
  destruct (str_tail _) as [|c suffix]; [apply keeps_ret|].
  apply keeps_bind; [apply keeps_meanings|intros om].
  apply keeps_bind; [apply keeps_is_truthy|intros t2].
  destruct om; [|apply keeps_ret]. destruct t2; [|apply keeps_ret].
  apply keeps_bind; [apply keeps_read|intros ms].
  apply keeps_bind; [apply keeps_alloc|intros ?; apply keeps_ret].
Qed.
End cache_kept.

(** X13: the cache of [meanings] is bounded: when it holds each word once
    and [CACHE_SIZE] entries at most, it still does after any call of
    [meanings] or of [lookup_word] that returns. *)
Theorem X13_cache_bounded str_lower db Meanings_DICT Abbreviations_DICT ENDINGS
    slice_compound_word (σ : DbState) :
  cache_ok σ →
  (∀ w m σ', meanings db Meanings_DICT w σ = Done (m, σ') → cache_ok σ')
  ∧ (∀ w b r σ',
       lookup_word str_lower db Meanings_DICT Abbreviations_DICT ENDINGS
         slice_compound_word w b σ = Done (r, σ') →
       cache_ok σ').
Proof.
  intros Hok. split.
  - intros w m σ' Hrun. by eapply keeps_meanings.
  - intros w b r σ' Hrun. by eapply keeps_lookup_word.
Qed.

Lemma X13_cache_bounded_witness :
  (∀ w m σ', meanings DbSample.db DbSample.no_meanings w DbSample.fresh = Done (m, σ') →
     cache_ok σ')
  ∧ (∀ w b r σ',
       lookup_word DbSample.lower DbSample.db DbSample.no_meanings
         DbSample.no_abbreviations [] DbSample.no_compounds w b DbSample.fresh
         = Done (r, σ') →
       cache_ok σ').
Proof.
  apply (X13_cache_bounded DbSample.lower DbSample.db DbSample.no_meanings
           DbSample.no_abbreviations [] DbSample.no_compounds DbSample.fresh).
  split; [apply NoDup_nil_2|simpl; lia].
Defined.

(** ** The errors of [lookup_word] *)

Section lookup_word_facts.
Variable str_lower : string → string.
Variable db : string → db_answer.
Variable Meanings_DICT : string → option (list BIN_Meaning).
Variable Abbreviations_DICT : string → option BIN_Meaning.
Variable ENDINGS : list (string * string).
Variable slice_compound_word : string → list string.
Let meanings := meanings db Meanings_DICT.
Let lookup_word :=
  lookup_word str_lower db Meanings_DICT Abbreviations_DICT ENDINGS slice_compound_word.

(** The steps after the first do nothing once there are meanings. *)
Lemma try_abbreviation_skip w lower_w m σ :
  truthy σ m = true →
  try_abbreviation Abbreviations_DICT w lower_w m σ = Done ((w, m), σ).
Proof. intros Ht. unfold try_abbreviation, db_bind, is_truthy. by rewrite Ht. Qed.

Lemma try_adjective_skip lower_w m σ :
  truthy σ m = true → try_adjective ENDINGS lower_w m σ = Done (m, σ).
Proof. intros Ht. unfold try_adjective, db_bind, is_truthy. by rewrite Ht. Qed.

Lemma try_compound_skip lower_w m σ :
  truthy σ m = true →
  try_compound db Meanings_DICT slice_compound_word lower_w m σ = Done (m, σ).
Proof. intros Ht. unfold try_compound, db_bind, is_truthy. by rewrite Ht. Qed.

Lemma try_negation_skip lower_w m σ :
  truthy σ m = true → try_negation db Meanings_DICT lower_w m σ = Done (m, σ).
Proof. intros Ht. unfold try_negation, db_bind, is_truthy. by rewrite Ht. Qed.

End lookup_word_facts.

(** X14: [lookup_word] raises [IndexError] on the empty word, at the test
    [w[0] == '['] of line 152, whenever the empty word has no meanings in
    the database (the lowercase form of the empty word being empty). *)
Theorem X14_empty_word str_lower db Meanings_DICT Abbreviations_DICT ENDINGS
    slice_compound_word at_sentence_start (σ σ1 : DbState) (m : value) :
  str_lower EmptyString = EmptyString →
  meanings db Meanings_DICT EmptyString σ = Done (m, σ1) →
  truthy σ1 m = false →
  lookup_word str_lower db Meanings_DICT Abbreviations_DICT ENDINGS slice_compound_word
    EmptyString at_sentence_start σ = Fails (PyError IndexError).
Proof.
  intros Hlower Hrun Ht. unfold lookup_word.
  unfold db_bind at 1. rewrite Hrun.
  unfold db_bind at 1, is_truthy. rewrite Ht, orb_true_r, Hlower.
  unfold db_bind at 1, try_lowercase. simpl.
  unfold db_bind at 1, try_abbreviation. unfold db_bind at 1, is_truthy. rewrite Ht.
  reflexivity.
Qed.

Lemma X14_empty_word_witness :
  lookup_word DbSample.lower DbSample.db DbSample.no_meanings DbSample.no_abbreviations
    [] DbSample.no_compounds EmptyString false DbSample.fresh
  = Fails (PyError IndexError).
Proof.
  apply (X14_empty_word DbSample.lower DbSample.db DbSample.no_meanings
           DbSample.no_abbreviations [] DbSample.no_compounds false DbSample.fresh
           (mkDbState true {[ 0%nat := [] ]} 1 [(EmptyString, Some 0%nat)] [EmptyString])
           (Some 0%nat)).
  - reflexivity.
  - vm_compute. reflexivity.
  - vm_compute. reflexivity.
Defined.

(** X15: at the start of a sentence, for a word that has meanings and
    differs from its lowercase form, [lookup_word] raises [TypeError] when
    [meanings] yields [None] for the lowercase form, as it does after a
    [DataError]: line 150 extends a list with [None]. *)
Theorem X15_lowercase_without_answer str_lower db Meanings_DICT Abbreviations_DICT
    ENDINGS slice_compound_word w (σ σ1 σ2 : DbState) (r : nat) :
  str_lower w ≠ w →
  meanings db Meanings_DICT w σ = Done (Some r, σ1) →
  truthy σ1 (Some r) = true →
  meanings db Meanings_DICT (str_lower w) σ1 = Done (None, σ2) →
  lookup_word str_lower db Meanings_DICT Abbreviations_DICT ENDINGS slice_compound_word
    w true σ = Fails (PyError TypeError).
Proof.
  intros Hlower Hrun Ht Hrun2. unfold lookup_word.
  unfold db_bind at 1. rewrite Hrun.
  unfold db_bind at 1, is_truthy. simpl.
  unfold db_bind at 1, try_lowercase.
  apply String.eqb_neq in Hlower. rewrite Hlower. simpl.
  unfold db_bind at 1, is_truthy. rewrite Ht. simpl.
  unfold db_bind at 1. rewrite Hrun2. reflexivity.
Qed.

Lemma X15_lowercase_without_answer_witness :
  lookup_word DbSample.lower DbSample.db_refusing DbSample.no_meanings
    DbSample.no_abbreviations [] DbSample.no_compounds "Hann" true DbSample.fresh
  = Fails (PyError TypeError).
Proof.
  apply (X15_lowercase_without_answer DbSample.lower DbSample.db_refusing
           DbSample.no_meanings DbSample.no_abbreviations [] DbSample.no_compounds
           "Hann" DbSample.fresh
           (mkDbState true {[ 0%nat := [DbSample.Hann_name] ]} 1
              [("Hann", Some 0%nat)] ["Hann"])
           (mkDbState true {[ 0%nat := [DbSample.Hann_name] ]} 1
              [("hann", None); ("Hann", Some 0%nat)] ["Hann"; "hann"])
           0).
  - discriminate.
  - vm_compute. reflexivity.
  - vm_compute. reflexivity.
  - vm_compute. reflexivity.
Defined.

(** ** The lists the cache shares *)

Lemma dict_get_filter_ne (c : list (string * value)) w k :
  k ≠ w → dict_get (List.filter (λ e, negb (String.eqb e.1 w)) c) k = dict_get c k.
Proof.
  intros Hne. induction c as [|[k' v] c IH]; simpl; [done|].
  destruct (String.eqb k' w) eqn:Heq; simpl.
  - apply String.eqb_eq in Heq. subst k'. by rewrite decide_False by congruence.
  - by rewrite IH.
Qed.

(** X16: at the start of a sentence, for a word whose meanings and whose
    lowercase meanings are both in the cache, [lookup_word] appends the
    lowercase meanings to the cached list of the word itself and makes no
    query.  The cache has the two entries as before, so each further
    lookup of the word at the start of a sentence appends the lowercase
    meanings once more, and [meanings] yields the grown list for the
    word. *)
Theorem X16_cached_list_grows str_lower db Meanings_DICT Abbreviations_DICT ENDINGS
    slice_compound_word w (σ : DbState) (r r' : nat) :
  let lower_w := str_lower w in
  lower_w ≠ w → r ≠ r' →
  dict_get (cache σ) w = Some (Some r) →
  dict_get (cache σ) lower_w = Some (Some r') →
  list_of σ r ≠ [] →
  ∃ σ',
    lookup_word str_lower db Meanings_DICT Abbreviations_DICT ENDINGS slice_compound_word
      w true σ = Done ((w, Some r), σ')
    ∧ list_of σ' r = list_of σ r ++ list_of σ r'
    ∧ list_of σ' r' = list_of σ r'
    ∧ dict_get (cache σ') w = Some (Some r)
    ∧ dict_get (cache σ') lower_w = Some (Some r')
    ∧ queries σ' = queries σ.
Proof.
  intros lower_w Hlower Hrefs Hw Hlw Hne.
  destruct (meanings_hit db Meanings_DICT w σ (Some r) Hw)
    as (σa & Hrun1 & Hconn1 & Hheap1 & Hnext1 & Hq1 & Hcache1).
  assert (Hlw1 : dict_get (cache σa) lower_w = Some (Some r')).
  { rewrite Hcache1. simpl. rewrite decide_False by congruence.
    by rewrite dict_get_filter_ne. }
  destruct (meanings_hit db Meanings_DICT lower_w σa (Some r') Hlw1)
    as (σb & Hrun2 & Hconn2 & Hheap2 & Hnext2 & Hq2 & Hcache2).
  assert (Hta : truthy σa (Some r) = true).
  { unfold truthy, list_of in *. rewrite Hheap1. by destruct (default [] (heap σ !! r)). }
  set (σc := mkDbState (connected σb) (<[r := list_of σb r ++ list_of σb r']> (heap σb))
               (next σb) (cache σb) (queries σb)).
  assert (Hlists : list_of σc r = list_of σ r ++ list_of σ r'
                   ∧ list_of σc r' = list_of σ r').
  { unfold σc, list_of. cbn [heap].
    rewrite lookup_insert_eq, lookup_insert_ne by done.
    simpl. rewrite Hheap2, Hheap1. by split. }
  destruct Hlists as [Hr Hr'].
  assert (Htc : truthy σc (Some r) = true).
  { unfold truthy. rewrite Hr. by destruct (list_of σ r). }
  exists σc. split; [|split; [done|split; [done|split; [|split]]]].
  - unfold lookup_word. unfold db_bind at 1. rewrite Hrun1.
    unfold db_bind at 1, is_truthy. cbn [orb].
    fold lower_w. unfold db_bind at 1, try_lowercase.
    apply String.eqb_neq in Hlower. rewrite Hlower. cbn [negb].
    unfold db_bind at 1, is_truthy. rewrite Hta. cbn [negb].
    unfold db_bind at 1. rewrite Hrun2.
    unfold db_bind at 1, read. unfold db_bind at 1, extend. fold σc. unfold db_ret.
    unfold db_bind at 1. rewrite try_abbreviation_skip by done.
    unfold db_bind at 1. rewrite try_adjective_skip by done.
    unfold db_bind at 1. rewrite try_compound_skip by done.
    unfold db_bind at 1. rewrite try_negation_skip by done.
    reflexivity.
  - unfold σc. cbn [cache]. rewrite Hcache2. simpl.
    rewrite decide_False by done. rewrite dict_get_filter_ne by congruence.
    rewrite Hcache1. simpl. by rewrite decide_True.
  - unfold σc. cbn [cache]. rewrite Hcache2. simpl. by rewrite decide_True.
  - unfold σc. cbn [queries]. by rewrite Hq2, Hq1.
Qed.

Lemma X16_cached_list_grows_witness :
  let σ := mkDbState true {[ 0%nat := [DbSample.Hann_name];
                             1%nat := [DbSample.hann_pfn; DbSample.hann_thf] ]} 2
             [("hann", Some 1%nat); ("Hann", Some 0%nat)] ["Hann"; "hann"] in
  ∃ σ',
    lookup_word DbSample.lower DbSample.db DbSample.no_meanings DbSample.no_abbreviations
      [] DbSample.no_compounds "Hann" true σ = Done (("Hann", Some 0%nat), σ')
    ∧ list_of σ' 0 = list_of σ 0 ++ list_of σ 1
    ∧ list_of σ' 1 = list_of σ 1
    ∧ dict_get (cache σ') "Hann" = Some (Some 0%nat)
    ∧ dict_get (cache σ') (DbSample.lower "Hann") = Some (Some 1%nat)
    ∧ queries σ' = queries σ.
Proof.
  apply (X16_cached_list_grows DbSample.lower DbSample.db DbSample.no_meanings
           DbSample.no_abbreviations [] DbSample.no_compounds "Hann"
           (mkDbState true {[ 0%nat := [DbSample.Hann_name];
                              1%nat := [DbSample.hann_pfn; DbSample.hann_thf] ]} 2
              [("hann", Some 1%nat); ("Hann", Some 0%nat)] ["Hann"; "hann"])
           0 1).
  - discriminate.
  - discriminate.
  - reflexivity.
  - reflexivity.
  - vm_compute. discriminate.
Defined.

(** On the sample the name has one meaning in the database and the pronoun
    two: the first lookup at the start of a sentence yields three
    meanings, the second one five, the same list grown; a lookup of the
    name elsewhere then yields the five, too. *)
Example cached_list_sample :
  let look := lookup_word DbSample.lower DbSample.db DbSample.no_meanings
                DbSample.no_abbreviations [] DbSample.no_compounds in
  match look "Hann" true DbSample.fresh with
  | Done (_, σ1) =>
      match look "Hann" true σ1 with
      | Done (_, σ2) =>
          match look "Hann" false σ2 with
          | Done ((w, m), σ3) =>
              (length (list_of σ1 0), length (list_of σ2 0), w, m, length (list_of σ3 0),
               queries σ3)
              = (3%nat, 5%nat, "Hann", Some 0%nat, 5%nat, ["Hann"; "hann"])
          | Fails _ => False
          end
      | Fails _ => False
      end
  | Fails _ => False
  end.
Proof. vm_compute. reflexivity. Qed.

(** ** The word returned *)

Lemma starts_with_bracket_Done w b σ σ' :
  starts_with_bracket w σ = Done (b, σ') →
  σ' = σ ∧ (b = true → ∃ rest, w = String "[" rest).
Proof.
  destruct w as [|c rest]; [done|]. unfold starts_with_bracket, db_bind, first_char, db_ret.
  intros [= <- <-]. split; [done|].
  intros Hc. apply Ascii.eqb_eq in Hc. subst c. by exists rest.
Qed.

Lemma try_abbreviation_word Abbreviations_DICT w lower_w m wm σ σ' :
  try_abbreviation Abbreviations_DICT w lower_w m σ = Done (wm, σ') →
  wm.1 = w ∨ (∃ rest, w = String "[" rest) ∧ wm.1 = str_strip w ∧ truthy σ' wm.2 = true.
Proof.
  unfold try_abbreviation. intros Hrun.
  apply db_bind_Done in Hrun as (t & σ1 & _ & Hrun).
  apply db_bind_Done in Hrun as ([] & σ2 & _ & Hrun);
    [|injection Hrun as <- _; by left].
  apply db_bind_Done in Hrun as (m1 & σ3 & _ & Hrun).
  apply db_bind_Done in Hrun as (t1 & σ4 & _ & Hrun).
  apply db_bind_Done in Hrun as (m2 & σ5 & _ & Hrun).
  apply db_bind_Done in Hrun as (t2 & σ6 & Ht2 & Hrun).
  apply db_bind_Done in Hrun as (w2 & σ7 & Hw2 & Hrun).
  injection Hrun as <- <-. injection Ht2 as <- <-. cbn [fst snd].
  destruct (truthy σ5 m2) eqn:Ht; [|injection Hw2 as <- _; by left].
  apply db_bind_Done in Hw2 as (bracket & σ8 & Hb & Hw2).
  injection Hw2 as <- <-. apply starts_with_bracket_Done in Hb as [-> Hb].
  destruct bracket; [|by left]. right. by destruct (Hb eq_refl) as [rest ->]; eauto.
Qed.

(** X17: the word that [lookup_word] returns is the word it was given, or,
    for a word that starts with a bracket, the word without its first and
    last character, and then the meanings returned with it are not
    empty. *)
Theorem X17_word_returned str_lower db Meanings_DICT Abbreviations_DICT ENDINGS
    slice_compound_word w at_sentence_start (σ σ' : DbState) (w' : string) (m : value) :
  lookup_word str_lower db Meanings_DICT Abbreviations_DICT ENDINGS slice_compound_word
    w at_sentence_start σ = Done ((w', m), σ') →
  w' = w ∨ (∃ rest, w = String "[" rest) ∧ w' = str_strip w ∧ truthy σ' m = true.
Proof.
  unfold lookup_word. intros Hrun.
  apply db_bind_Done in Hrun as (m0 & σ1 & _ & Hrun).
  apply db_bind_Done in Hrun as (t & σ2 & _ & Hrun).
  destruct (at_sentence_start || negb t); [|injection Hrun as <- _ _; by left].
  apply db_bind_Done in Hrun as (m1 & σ3 & _ & Hrun).
  apply db_bind_Done in Hrun as (wm & σ4 & Hwm & Hrun).
  apply try_abbreviation_word in Hwm as [Hsame|(Hbracket & Hstrip & Ht)].
  - apply db_bind_Done in Hrun as (m2 & σ5 & _ & Hrun).
    apply db_bind_Done in Hrun as (m3 & σ6 & _ & Hrun).
    apply db_bind_Done in Hrun as (m4 & σ7 & _ & Hrun).
    injection Hrun as <- _ _. by left.
  - revert Hrun. unfold db_bind at 1. rewrite (try_adjective_skip ENDINGS) by done.
    unfold db_bind at 1. rewrite (try_compound_skip db Meanings_DICT) by done.
    unfold db_bind at 1. rewrite (try_negation_skip db Meanings_DICT) by done.
    intros [= <- <- <-]. by right.
Qed.

Lemma X17_word_returned_witness :
  let σ' := mkDbState true {[ 0%nat := []; 1%nat := [DbSample.hf] ]} 2
              [("[hf.]", Some 0%nat)] ["[hf.]"] in
  "hf." = "[hf.]" ∨
  (∃ rest, "[hf.]" = String "[" rest) ∧ "hf." = str_strip "[hf.]"
  ∧ truthy σ' (Some 1%nat) = true.
Proof.
  intros σ'.
  apply (X17_word_returned DbSample.lower DbSample.db DbSample.no_meanings
           DbSample.abbreviations [] DbSample.no_compounds "[hf.]" false DbSample.fresh
           σ' "hf." (Some 1%nat)).
  vm_compute. reflexivity.
Defined.
